(** * PyMoira: a shallow embedding of the wire codec, the connection,
    the client-side list expansion and the inclusion tracer.

    Sources: [protocol.py] (Packet.build / Packet.parse), [client.py]
    (MoiraClient.recv / recvPacket / setVersion), [errors.py],
    [pymoira/lists.py] (ListMember, List.getAllMembers, ListTracer). *)

From Stdlib Require Import String Ascii.
From Stdlib Require Import Strings.Byte.
From Stdlib Require Import ZArith List Bool Lia Permutation.
Import ListNotations.
Open Scope Z_scope.

(* ================================================================== *)
(** ** Errors ([errors.py]) and the exception monad *)

(** The exceptions the modelled code can raise.  [ConnectionError],
    [MoiraError], [UserError] are the classes of [errors.py];
    [StructError] is Python's [struct.error] raised by [struct.pack] and
    [struct.unpack]; [KeyError] is a failed dictionary lookup;
    [MoiraUnavailableError] is the class of [errors.py] raised on a
    message of the day; [IndexError] is an out-of-range tuple index. *)
Inductive error :=
| ConnectionError (msg : string)
| MoiraError (code : Z)
| UserError (msg : string)
| StructError
| KeyError
| MoiraUnavailableError (msg : string)
| IndexError.

Inductive result (A : Type) : Type :=
| Ok (a : A)
| Err (e : error).
Arguments Ok {A} a.
Arguments Err {A} e.

Definition bind {A B} (m : result A) (k : A -> result B) : result B :=
  match m with
  | Ok a => k a
  | Err e => Err e
  end.

Declare Scope moira_scope.
Notation "x <- m ;; k" := (bind m (fun x => k))
  (at level 61, m at next level, right associativity) : moira_scope.
Open Scope moira_scope.

Definition raise {A} (e : error) : result A := Err e.

(* ================================================================== *)
(** ** Byte strings and the [struct] helpers ([protocol.py]) *)

(** A Python 2 [str] on the wire is a list of bytes. *)
Definition bytes := list byte.

Definition Z_of_byte (b : byte) : Z := Z.of_N (Byte.to_N b).

Definition byte_of_Z (z : Z) : byte :=
  match Byte.of_N (Z.to_N (z mod 256)) with
  | Some b => b
  | None => x00
  end.

(** Big-endian 32-bit image of [n] (the caller checks the range). *)
Definition be32 (n : Z) : bytes :=
  [ byte_of_Z (n / 2^24); byte_of_Z (n / 2^16);
    byte_of_Z (n / 2^8);  byte_of_Z n ].

(** [struct.pack("!I", n)]: raises [struct.error] outside [0, 2^32). *)
Definition pack_u32 (n : Z) : result bytes :=
  if (0 <=? n) && (n <? 2^32) then Ok (be32 n) else Err StructError.

(** [struct.pack("!i", n)]: two's complement, raises outside the
    signed 32-bit range. *)
Definition pack_i32 (n : Z) : result bytes :=
  if (- 2^31 <=? n) && (n <? 2^31) then Ok (be32 (n mod 2^32))
  else Err StructError.

(** Value of four big-endian bytes. *)
Definition unbe32 (s : bytes) : Z :=
  fold_left (fun acc b => acc * 256 + Z_of_byte b) s 0.

(** [struct.unpack("!I", s)]: needs exactly four bytes. *)
Definition unpack_u32 (s : bytes) : result Z :=
  if Nat.eqb (length s) 4 then Ok (unbe32 s) else Err StructError.

(** [struct.unpack("!i", s)]. *)
Definition unpack_i32 (s : bytes) : result Z :=
  if Nat.eqb (length s) 4 then
    let u := unbe32 s in Ok (if u <? 2^31 then u else u - 2^32)
  else Err StructError.

(** [_fmt_u32(n)]. *)
Definition _fmt_u32 (n : Z) : result bytes := pack_u32 n.

(** [_read_u32(s)]: [struct.unpack("!I", s[0:4])]. *)
Definition _read_u32 (s : bytes) : result Z := unpack_u32 (firstn 4 s).

(* ================================================================== *)
(** ** Packet ([protocol.py], class Packet) *)

Definition MOIRA_PROTOCOL_VERSION : Z := 2.
Definition MOIRA_MAX_LIST_DEPTH : Z := 3072.

(** A parsed packet: [raw_len], [opcode] (the status for a server
    packet) and [data], the tuple of fields. *)
Record packet := mkPacket {
  raw_len : Z;
  opcode : Z;
  data : list bytes
}.

(** [while len(item) % 4 != 0: item += "\0"]. *)
Definition pad4 (item : bytes) : bytes :=
  item ++ repeat x00 ((4 - length item mod 4) mod 4).

(** One field of the body: [item += "\0"], the length of the terminated
    item, then the item padded to a four-byte boundary. *)
Definition build_field (item : bytes) : result bytes :=
  let item := item ++ [x00] in
  lenstr <- _fmt_u32 (Z.of_nat (length item)) ;;
  Ok (lenstr ++ pad4 item).

Fixpoint build_body (items : list bytes) (body : bytes) : result bytes :=
  match items with
  | [] => Ok body
  | item :: rest =>
      f <- build_field item ;;
      build_body rest (body ++ f)
  end.

(** [Packet.build]. *)
Definition build (op : Z) (items : list bytes) : result bytes :=
  body <- build_body items [] ;;
  h1 <- pack_u32 (16 + Z.of_nat (length body)) ;;
  h2 <- pack_u32 MOIRA_PROTOCOL_VERSION ;;
  h3 <- pack_i32 op ;;
  h4 <- pack_u32 (Z.of_nat (length items)) ;;
  Ok (h1 ++ h2 ++ h3 ++ h4 ++ body).

(** [s.rstrip("\0")]: drop the trailing zero bytes. *)
Fixpoint lstrip0 (s : bytes) : bytes :=
  match s with
  | x00 :: s' => lstrip0 s'
  | _ => s
  end.

Definition rstrip0 (s : bytes) : bytes := rev (lstrip0 (rev s)).

(** The field loop of [Packet.parse]: [fuel] is [argc]. *)
Fixpoint parse_fields (argc : nat) (body : bytes) (fields : list bytes)
  : result (list bytes * bytes) :=
  match argc with
  | O => Ok (fields, body)
  | S argc' =>
      if (length body <? 4)%nat then
        raise (ConnectionError "Moira protocol version mismatch")
      else
        field_len <- _read_u32 body ;;
        if field_len + 4 >? Z.of_nat (length body) then
          raise (ConnectionError "")
        else
          let body := skipn 4 body in
          let actual_len :=
            if field_len mod 4 =? 0 then field_len
            else field_len + (4 - field_len mod 4) in
          let field := rstrip0 (firstn (Z.to_nat actual_len) body) in
          let body := skipn (Z.to_nat actual_len) body in
          parse_fields argc' body (fields ++ [field])
  end.

(** [Packet.parse]. *)
Definition parse (orig : bytes) : result packet :=
  let hdr := firstn 16 orig in
  if negb (Nat.eqb (length hdr) 16) then Err StructError else
  length_ <- unpack_u32 (firstn 4 hdr) ;;
  version <- unpack_u32 (firstn 4 (skipn 4 hdr)) ;;
  status <- unpack_i32 (firstn 4 (skipn 8 hdr)) ;;
  argc <- unpack_u32 (skipn 12 hdr) ;;
  let body := skipn 16 orig in
  if negb (length_ mod 4 =? 0) then
    raise (ConnectionError
      "Malformed Moira package: the length is not a multiple of four")
  else if negb (version =? 2) then
    raise (ConnectionError "Moira protocol version mismatch")
  else
    r <- parse_fields (Z.to_nat argc) body [] ;;
    let (fields, body) := r in
    if (0 <? length body)%nat then
      raise (ConnectionError
        "Moira has sent package with out-of-field information")
    else Ok (mkPacket length_ status fields).

(* ================================================================== *)
(** ** Protocol constants of [moira_constants] / [constants]

    The module that defines the Moira opcodes and status codes is not
    part of the repository snapshot; the code only compares them for
    equality, so they are kept abstract as a class.  [MR_QUERY_VERSION]
    is [MOIRA_QUERY_VERSION] of [protocol.py]. *)
Class MoiraConstants := {
  MR_SUCCESS : Z;
  MR_MORE_DATA : Z;
  MR_VERSION_LOW : Z;
  MR_PERM : Z;
  MR_MOTD : Z;
  MR_SETVERSION : Z;
  MR_QUERY : Z
}.

Definition MOIRA_QUERY_VERSION : Z := 14.

(* ================================================================== *)
(** ** The connection ([client.py], class MoiraClient) *)

(** The state of a [MoiraClient]: [version] is [self.version] ([None]
    is Python's [None]); [sent] is the list of frames written with
    [socket.send], oldest first; [inbox] is what the server still
    delivers, as the successive segments [socket.recv] hands out; an
    empty segment, or no segment at all, is the closed stream. *)
Record conn := mkConn {
  version : option Z;
  sent : list bytes;
  inbox : list bytes
}.

(** Client operations thread the connection and may raise. *)
Definition client (A : Type) := conn -> result A * conn.

Definition cret {A} (a : A) : client A := fun c => (Ok a, c).
Definition cthrow {A} (e : error) : client A := fun c => (Err e, c).
Definition clift {A} (r : result A) : client A := fun c => (r, c).
Definition cbind {A B} (m : client A) (k : A -> client B) : client B :=
  fun c => match m c with
           | (Ok a, c') => k a c'
           | (Err e, c') => (Err e, c')
           end.
Notation "x <-- m ;;; k" := (cbind m (fun x => k))
  (at level 61, m at next level, right associativity) : moira_scope.

Definition get_version : client (option Z) := fun c => (Ok (version c), c).
Definition set_version_field (v : option Z) : client unit :=
  fun c => (Ok tt, mkConn v (sent c) (inbox c)).

(** [socket.send(data)]: the whole frame is written. *)
Definition socket_send (b : bytes) : client unit :=
  fun c => (Ok tt, mkConn (version c) (sent c ++ [b]) (inbox c)).

(** [socket.recv(k)]: at most [k] bytes of the next segment; the empty
    string once the stream is closed. *)
Definition socket_recv (k : nat) : client bytes :=
  fun c => match inbox c with
           | [] => (Ok [], c)
           | seg :: rest =>
               (Ok (firstn k seg),
                mkConn (version c) (sent c)
                  (if (k <? length seg)%nat then skipn k seg :: rest else rest))
           end.

(** The [exact] loop of [MoiraClient.recv]: [while len(data) <
    buffer_size].  Each round either adds a byte or raises, so
    [buffer_size] rounds are enough; [fuel] only makes that explicit. *)
Fixpoint recv_loop (fuel : nat) (buffer_size : nat) (data : bytes) : client bytes :=
  if (length data <? buffer_size)%nat then
    match fuel with
    | O => cthrow (ConnectionError "Connection was closed while more data was expected")
    | S fuel' =>
        new_data <-- socket_recv (buffer_size - length data) ;;;
        if (length new_data =? 0)%nat then
          cthrow (ConnectionError "Connection was closed while more data was expected")
        else recv_loop fuel' buffer_size (data ++ new_data)
    end
  else cret data.

(** [MoiraClient.recv(buffer_size)] with [exact = True]. *)
Definition recv (buffer_size : nat) : client bytes :=
  recv_loop buffer_size buffer_size [].

(** [MoiraClient.sendPacket]. *)
Definition sendPacket (op : Z) (items : list bytes) : client unit :=
  raw <-- clift (build op items) ;;;
  socket_send raw.

(** [MoiraClient.recvPacket]. *)
Definition recvPacket : client packet :=
  length_data <-- recv 4 ;;;
  length_ <-- clift (_read_u32 length_data) ;;;
  if length_ <? 4 then cthrow (ConnectionError "Invalid packet length specified")
  else
    remainder <-- recv (Z.to_nat (length_ - 4)) ;;;
    clift (parse (length_data ++ remainder)).

(** [str(n)] of a Python integer, in ASCII decimal. *)
Fixpoint digits_rev (fuel : nat) (n : Z) : bytes :=
  match fuel with
  | O => []
  | S f => byte_of_Z (48 + n mod 10) :: (if n <? 10 then [] else digits_rev f (n / 10))
  end.

Definition str_Z (n : Z) : bytes :=
  if n <? 0 then x2d :: rev (digits_rev (S (Z.to_nat (Z.log2 (- n)))) (- n))
  else rev (digits_rev (S (Z.to_nat (Z.log2 n))) n).

(** [self.version == version] with [self.version] possibly [None]. *)
Definition py_eq_version (cur : option Z) (v : Z) : bool :=
  match cur with
  | Some x => x =? v
  | None => false
  end.

Section Client.
Context `{MoiraConstants}.

(** [MoiraClient.setVersion]. *)
Definition setVersion (v : Z) : client unit :=
  cur <-- get_version ;;;
  if py_eq_version cur v then cret tt
  else
    _ <-- sendPacket MR_SETVERSION [str_Z v] ;;;
    result <-- recvPacket ;;;
    if negb (opcode result =? MR_SUCCESS) && negb (opcode result =? MR_VERSION_LOW)
    then cthrow (MoiraError (opcode result))
    else cret tt.

(** The last two statements of [MoiraClient.__init__]:
    [self.version = None; self.setVersion(default_version)], where a
    missing (or falsy) [default_version] is [MOIRA_QUERY_VERSION]. *)
Definition init_version (default_version : option Z) : client unit :=
  let v := match default_version with
           | Some d => if d =? 0 then MOIRA_QUERY_VERSION else d
           | None => MOIRA_QUERY_VERSION
           end in
  _ <-- set_version_field None ;;;
  setVersion v.

End Client.

(** [MOIRA_PROTOCOL_CHALLENGE] and [MOIRA_PROTOCOL_RESPONSE] of
    [protocol.py], byte by byte (the Python literals use octal escapes). *)
Definition bytes_of_Zs (l : list Z) : bytes := map byte_of_Z l.

Definition MOIRA_PROTOCOL_CHALLENGE : bytes := bytes_of_Zs
  [0; 0; 0; 54; 0; 0; 0; 4; 1; 1; 1; 1; 115; 101; 114; 118; 101; 114; 95;
   105; 100; 0; 112; 97; 114; 109; 115; 0; 104; 111; 115; 116; 0; 117; 115;
   101; 114; 0; 0; 0; 0; 1; 0; 0; 0; 0; 1; 0; 0; 0; 0; 1; 0; 0; 0; 0; 1; 0].

Definition MOIRA_PROTOCOL_RESPONSE : bytes := bytes_of_Zs
  [0; 0; 0; 49; 0; 0; 0; 3; 0; 1; 1; 100; 105; 115; 112; 111; 115; 105; 116;
   105; 111; 110; 0; 115; 101; 114; 118; 101; 114; 95; 105; 100; 0; 112; 97;
   114; 109; 115; 0; 0; 0; 0; 1; 0; 0; 0; 1; 0; 0; 0; 0; 1; 0].

(** [response != MOIRA_PROTOCOL_RESPONSE] on byte strings. *)
Definition bytes_eqb (a b : bytes) : bool :=
  if list_eq_dec Byte.byte_eq_dec a b then true else false.

(** The number of bytes the server still delivers: every successful
    [recvPacket] consumes at least sixteen of them, so a loop reading
    packets runs at most that many rounds before [recvPacket] raises. *)
Definition stream_fuel : client nat :=
  fun c => (Ok (S (length (concat (inbox c)))), c).

(** [result.data[0]]. *)
Definition first_field (p : packet) : result bytes :=
  match data p with
  | f :: _ => Ok f
  | [] => Err IndexError
  end.

Section ClientOps.
Context `{MoiraConstants}.

(** [MoiraClient.challenge]: a single [self.socket.recv], not the exact
    [recv]. *)
Definition challenge : client unit :=
  _ <-- socket_send MOIRA_PROTOCOL_CHALLENGE ;;;
  response <-- socket_recv (length MOIRA_PROTOCOL_RESPONSE) ;;;
  if negb (bytes_eqb response MOIRA_PROTOCOL_RESPONSE) then
    cthrow (ConnectionError "Moira server failed to return the correct response to connection initiation request")
  else cret tt.

(** The [while result.opcode == MR_MORE_DATA] loop of [checkMOTD] and
    what follows it. *)
Fixpoint motd_loop (fuel : nat) (result : packet) (motd : bytes) : client unit :=
  if opcode result =? MR_MORE_DATA then
    match fuel with
    | O => cthrow (ConnectionError "Connection was closed while more data was expected")
    | S fuel' =>
        line <-- clift (first_field result) ;;;
        result' <-- recvPacket ;;;
        motd_loop fuel' result' (motd ++ line)
    end
  else if negb (opcode result =? MR_SUCCESS) then cthrow (MoiraError (opcode result))
  else cthrow (MoiraUnavailableError
         (String.append "Moira server is currently unavaliable: " (string_of_list_byte motd))).

(** [MoiraClient.checkMOTD]. *)
Definition checkMOTD : client unit :=
  _ <-- sendPacket MR_MOTD [] ;;;
  result <-- recvPacket ;;;
  if opcode result =? MR_SUCCESS then cret tt
  else if negb (opcode result =? MR_MORE_DATA) then cthrow (MoiraError (opcode result))
  else
    fuel <-- stream_fuel ;;;
    motd_loop fuel result [].

(** The [while response.opcode == MR_MORE_DATA] loop of [query] and what
    follows it; [result] holds the rows in order. *)
Fixpoint query_loop (fuel : nat) (response : packet) (result : list (list bytes))
  : client (list (list bytes)) :=
  if opcode response =? MR_MORE_DATA then
    match fuel with
    | O => cthrow (ConnectionError "Connection was closed while more data was expected")
    | S fuel' =>
        response' <-- recvPacket ;;;
        query_loop fuel' response' (result ++ [data response])
    end
  else if negb (opcode response =? MR_SUCCESS) then cthrow (MoiraError (opcode response))
  else cret result.

(** [MoiraClient.query(name, params, version)]; [if version:] is false
    for [None] and for [0].  The tuple of rows is a list. *)
Definition query (name : bytes) (params : list bytes) (version_ : option Z)
  : client (list (list bytes)) :=
  _ <-- match version_ with
        | Some v => if v =? 0 then cret tt else setVersion v
        | None => cret tt
        end ;;;
  _ <-- sendPacket MR_QUERY (name :: params) ;;;
  response <-- recvPacket ;;;
  fuel <-- stream_fuel ;;;
  query_loop fuel response [].

(** [MoiraClient.__init__] once the socket is connected: [challenge],
    [checkMOTD], then [self.version = None; self.setVersion(...)]. *)
Definition MoiraClient_init (default_version : option Z) : client unit :=
  _ <-- challenge ;;;
  _ <-- checkMOTD ;;;
  init_version default_version.

End ClientOps.

(* ================================================================== *)
(** ** Reading a frame by hand

    The header words of a frame and the failure conditions of a decode, as
    the amended reading of the decode contract states them: reading the
    [argc] declared fields in order, a field fails when fewer than four
    bytes remain for its length prefix or when its declared (unpadded)
    length plus the prefix exceeds what remains; a field then consumes its
    length rounded up to four bytes; bytes left after the last field
    fail. *)
Definition hdr_length (b : bytes) : Z := unbe32 (firstn 4 b).
Definition hdr_version (b : bytes) : Z := unbe32 (firstn 4 (skipn 4 b)).
Definition hdr_status (b : bytes) : Z :=
  let u := unbe32 (firstn 4 (skipn 8 b)) in
  if u <? 2^31 then u else u - 2^32.
Definition hdr_argc (b : bytes) : Z := unbe32 (firstn 4 (skipn 12 b)).

Definition round_up4 (l : Z) : nat :=
  Z.to_nat (if l mod 4 =? 0 then l else l + (4 - l mod 4)).

Fixpoint fields_malformed (argc : nat) (body : bytes) : bool :=
  match argc with
  | O => (0 <? length body)%nat
  | S n =>
      (length body <? 4)%nat
      || (Z.of_nat (length body) <? unbe32 (firstn 4 body) + 4)
      || fields_malformed n (skipn (round_up4 (unbe32 (firstn 4 body))) (skipn 4 body))
  end.

(* ================================================================== *)
(** ** List members ([lists.py], class ListMember) *)

(** A list member is identified by its type token and its name; [__eq__]
    compares exactly these two ([__hash__] hashes ["type:name"]).  The
    optional tag plays no part in the modelled code. *)
Record list_member := mkMember { mtype : string; mname : string }.

Definition member_eqb (a b : list_member) : bool :=
  String.eqb (mtype a) (mtype b) && String.eqb (mname a) (mname b).

Definition ListMember_User : string := "USER".
Definition ListMember_Kerberos : string := "KERBEROS".
Definition ListMember_List : string := "LIST".
Definition ListMember_String : string := "STRING".
Definition ListMember_Machine : string := "MACHINE".
Definition ListMember_No : string := "NONE".

(** [ListMember.types] of [pymoira/lists.py]. *)
Definition ListMember_types : list string :=
  [ListMember_User; ListMember_Kerberos; ListMember_List; ListMember_String;
   ListMember_Machine; ListMember_No].

(** [MoiraListMember.types] of the older top-level [lists.py], which has
    no [NONE]. *)
Definition MoiraListMember_types : list string :=
  [ListMember_User; ListMember_Kerberos; ListMember_List; ListMember_String;
   ListMember_Machine].

(** [str.upper] on ASCII. *)
Definition upper_ascii (c : ascii) : ascii :=
  let n := nat_of_ascii c in
  if (97 <=? n)%nat && (n <=? 122)%nat then ascii_of_nat (n - 32) else c.

Fixpoint py_upper (s : string) : string :=
  match s with
  | EmptyString => EmptyString
  | String c s' => String (upper_ascii c) (py_upper s')
  end.

Definition str_in (x : string) (l : list string) : bool :=
  existsb (String.eqb x) l.

(** [ListMember.__init__(client, mtype, name)]. *)
Definition ListMember_init (mtype_ name : string) : result list_member :=
  if negb (str_in mtype_ ListMember_types) then
    raise (UserError (String.append "Invalid list member type specified: " mtype_))
  else Ok (mkMember (py_upper mtype_) name).

(** [MoiraListMember.__init__] of the older [lists.py]. *)
Definition MoiraListMember_init (mtype_ name : string) : result list_member :=
  if negb (str_in mtype_ MoiraListMember_types) then
    raise (UserError (String.append "Invalid list member type specified: " mtype_))
  else Ok (mkMember mtype_ name).

(** [needle in hay] on strings. *)
Fixpoint str_contains (needle hay : string) : bool :=
  String.prefix needle hay ||
  match hay with
  | EmptyString => false
  | String _ hay' => str_contains needle hay'
  end.

(** [s.decode('ascii')] succeeds: every byte is below 128. *)
Definition is_ascii (s : string) : bool :=
  forallb (fun c => (nat_of_ascii c <? 128)%nat) (list_ascii_of_string s).

(** [Host(client, name, canonicalize = False)] of [pymoira/host.py]:
    [ListMember.create] never canonicalizes, so [socket.getfqdn] is not
    reached. *)
Definition Host_init (name : string) : result list_member :=
  let name := py_upper name in
  let name := if str_contains ".MIT.EDU" name then name
              else String.append name ".MIT.EDU" in
  ListMember_init ListMember_Machine name.

(** [User(client, username)] of [pymoira/user.py]. *)
Definition User_init (username : string) : result list_member :=
  ListMember_init ListMember_User username.

Section Members.

(** [listname.decode('utf-8').encode('idna')], which may raise. *)
Variable idna : string -> result string.

(** [List(client, listname)]. *)
Definition List_init (listname : string) : result list_member :=
  if is_ascii listname then ListMember_init ListMember_List listname
  else idn <- idna listname ;; ListMember_init ListMember_List idn.

(** [ListMember.create(client, mtype, name)]. *)
Definition create (mtype_ name : string) : result list_member :=
  if String.eqb mtype_ ListMember_List then List_init name
  else if String.eqb mtype_ ListMember_User then User_init name
  else if String.eqb mtype_ ListMember_Machine then Host_init name
  else ListMember_init mtype_ name.

(** [ListMember.fromTuple(client, member)]: the member and its [tag]
    attribute, if one was set. *)
Definition fromTuple (member : list string) : result (list_member * option string) :=
  if negb ((length member =? 2)%nat || (length member =? 3)%nat) then
    raise (UserError "Moira list member tuple must has a type-name[-tag] format")
  else
    match member with
    | mtype_ :: name :: _ =>
        result <- create mtype_ name ;;
        Ok (result, if (2 <? length member)%nat then nth_error member 2 else None)
    | _ => raise IndexError
    end.

End Members.

(** [ListMember.toTuple()]. *)
Definition toTuple (m : list_member) (tag : option string) : list string :=
  match tag with
  | Some t => [mtype m; mname m; t]
  | None => [mtype m; mname m]
  end.

(** [type(member) == List]: [fromTuple] builds a [List] object exactly for
    the [LIST] type token. *)
Definition is_list (m : list_member) : bool := String.eqb (mtype m) ListMember_List.

(** A [frozenset] of members, kept as a list without duplicates in the
    order of first appearance. *)
Fixpoint mem_member (m : list_member) (l : list list_member) : bool :=
  match l with
  | [] => false
  | x :: l' => member_eqb m x || mem_member m l'
  end.

Fixpoint frozenset_acc (seen : list list_member) (l : list list_member)
  : list list_member :=
  match l with
  | [] => rev seen
  | x :: l' => if mem_member x seen then frozenset_acc seen l'
               else frozenset_acc (x :: seen) l'
  end.

Definition frozenset (l : list list_member) : list list_member := frozenset_acc [] l.

(** [a | b] on frozensets. *)
Definition member_union (a b : list list_member) : list list_member :=
  a ++ frozenset (filter (fun m => negb (mem_member m a)) b).

(** A set of strings ([set()] of list names), without duplicates. *)
Fixpoint str_dedup_acc (seen : list string) (l : list string) : list string :=
  match l with
  | [] => rev seen
  | x :: l' => if str_in x seen then str_dedup_acc seen l'
               else str_dedup_acc (x :: seen) l'
  end.

Definition str_dedup (l : list string) : list string := str_dedup_acc [] l.

(** [s.add(x)]. *)
Definition str_add (x : string) (s : list string) : list string :=
  if str_in x s then s else s ++ [x].

(** A dictionary with string keys, in insertion order. *)
Definition dict (V : Type) := list (string * V).

Fixpoint dict_get {V} (k : string) (d : dict V) : option V :=
  match d with
  | [] => None
  | (k', v) :: d' => if String.eqb k k' then Some v else dict_get k d'
  end.

(** [d[k] = v]: overwrite in place, or append a new key. *)
Fixpoint dict_set {V} (k : string) (v : V) (d : dict V) : dict V :=
  match d with
  | [] => [(k, v)]
  | (k', v') :: d' => if String.eqb k k' then (k, v) :: d' else (k', v') :: dict_set k v d'
  end.

Definition dict_keys {V} (d : dict V) : list string := map fst d.

(* ================================================================== *)
(** ** Client-side recursive expansion ([List.getAllMembers])

    The program talks to the server while it expands; the computation
    keeps the names of the lists it asked the server about, in order, as
    its state, so that statements can speak about the queries made. *)

Definition lm (A : Type) := list string -> result A * list string.

Definition lret {A} (a : A) : lm A := fun log => (Ok a, log).
Definition lthrow {A} (e : error) : lm A := fun log => (Err e, log).
Definition lbind {A B} (m : lm A) (k : A -> lm B) : lm B :=
  fun log => match m log with
             | (Ok a, log') => k a log'
             | (Err e, log') => (Err e, log')
             end.
(** [try: ... except]: run [m] and hand its outcome to the caller. *)
Definition ltry {A} (m : lm A) : lm (result A) :=
  fun log => let (r, log') := m log in (Ok r, log').

Notation "x <~ m ;;; k" := (lbind m (fun x => k))
  (at level 61, m at next level, right associativity) : moira_scope.

(** The expansion state: [members], [denied] and [known] of the loop. *)
Record expansion := mkExpansion {
  members : list list_member;
  denied : list string;
  known : dict (option (list list_member))
}.

Section Expansion.
Context `{MoiraConstants}.

(** The server's answer to [get_members_of_list] for a list name, decoded
    by [fromTuple] into members (a decoding failure is an error too). *)
Variable srv : string -> result (list list_member).

(** The iteration order of a Python [set] of names. *)
Variable set_order : list string -> list string.

(** [List(client, name).getExplicitMembers()]: one query, whose reply
    becomes a [frozenset]. *)
Definition getExplicitMembers (name : string) : lm (list list_member) :=
  fun log => (r <- srv name ;; Ok (frozenset r), log ++ [name]).

(** [{member.name for member in members if type(member) == List} - set(known)]. *)
Definition to_expand_of (members_ : list list_member)
    (known_ : dict (option (list list_member))) : list string :=
  set_order (filter (fun n => negb (str_in n (dict_keys known_)))
                    (str_dedup (map mname (filter is_list members_)))).

(** The [for sublist_name in to_expand] loop. *)
Fixpoint expand_sublists (to_expand : list string) (st : expansion) : lm expansion :=
  match to_expand with
  | [] => lret st
  | sublist_name :: rest =>
      r <~ ltry (getExplicitMembers sublist_name) ;;;
      match r with
      | Ok new_members =>
          expand_sublists rest
            (mkExpansion (member_union (members st) new_members) (denied st)
                         (dict_set sublist_name (Some new_members) (known st)))
      | Err (MoiraError code) =>
          if code =? MR_PERM then
            expand_sublists rest
              (mkExpansion (members st) (str_add sublist_name (denied st))
                           (dict_set sublist_name None (known st)))
          else lthrow (MoiraError code)
      | Err e => lthrow e
      end
  end.

Definition depth_error : error := UserError "List expansion depth limit exceeded".

(** The [while to_expand] loop.  The depth check raises at the iteration
    [MOIRA_MAX_LIST_DEPTH + 1]; the fuel [S (Z.to_nat MOIRA_MAX_LIST_DEPTH)]
    lets the loop reach it, so the fuel never runs out first. *)
Fixpoint while_to_expand (fuel : nat) (current_depth : Z) (st : expansion)
  : lm expansion :=
  match fuel with
  | O => lthrow depth_error
  | S fuel' =>
      let current_depth := current_depth + 1 in
      if current_depth >? MOIRA_MAX_LIST_DEPTH then lthrow depth_error
      else
        let to_expand := to_expand_of (members st) (known st) in
        st' <~ expand_sublists to_expand st ;;;
        match to_expand with
        | [] => lret st'
        | _ => while_to_expand fuel' current_depth st'
        end
  end.

(** [getAllMembers(server_side = False, include_lists, tags = False)]:
    returns [(members, denied, known)]. *)
Definition getAllMembers (name : string) (include_lists : bool)
  : lm (list list_member * list string * dict (option (list list_member))) :=
  members_ <~ getExplicitMembers name ;;;
  let known_ := dict_set name (Some members_) [] in
  st <~ while_to_expand (S (Z.to_nat MOIRA_MAX_LIST_DEPTH)) 0
                        (mkExpansion members_ [] known_) ;;;
  let members_ := if include_lists then members st
                  else filter (fun m => negb (is_list m)) (members st) in
  lret (members_, denied st, known st).

End Expansion.

(* ================================================================== *)
(** ** The inclusion tracer ([ListTracer]) *)

(** The [member -> lists] dictionary, keyed by members. *)
Fixpoint inv_get (m : list_member) (d : list (list_member * list string))
  : option (list string) :=
  match d with
  | [] => None
  | (k, v) :: d' => if member_eqb m k then Some v else inv_get m d'
  end.

(** [if member not in result: result[member] = []],
    then [result[member].append(listname)]. *)
Fixpoint inv_append (m : list_member) (listname : string)
    (d : list (list_member * list string)) : list (list_member * list string) :=
  match d with
  | [] => [(m, [listname])]
  | (k, v) :: d' =>
      if member_eqb m k then (k, v ++ [listname]) :: d'
      else (k, v) :: inv_append m listname d'
  end.

(** [createInverseMap]: [self.inverse].  A [frozenset] is iterated in the
    order it is stored in. *)
Definition createInverseMap (lists : dict (option (list list_member)))
  : list (list_member * list string) :=
  fold_left
    (fun result '(listname, members_) =>
       match members_ with
       | None | Some [] => result
       | Some ms => fold_left (fun r m => inv_append m listname r) ms result
       end)
    lists [].

(** [createInverseMap]: [self.inverseLists]. *)
Definition inverseLists_of (inverse : list (list_member * list string))
  : dict (list string) :=
  map (fun '(m, c) => (mname m, c)) (filter (fun '(m, _) => is_list m) inverse).

Record tracer := mkTracer {
  mlist_name : string;
  lists : dict (option (list list_member));
  max_pathways : Z;
  inverse : list (list_member * list string);
  inverseLists : dict (list string)
}.

Definition tracer_of (name : string) (lists_ : dict (option (list list_member)))
    (max : Z) : tracer :=
  let inv := createInverseMap lists_ in
  mkTracer name lists_ max inv (inverseLists_of inv).

Definition pathways_error (max : Z) : error :=
  UserError (String.append "Maximum number ("
    (String.append (string_of_list_byte (str_Z max))
                   ") of possible inclusion pathways reached")).

(** The [for listname in self.inverseLists[curlist]] loop of
    [recursiveTrace], given the recursive call [rt]. *)
Fixpoint trace_parents
    (rt : string -> list string -> list (list string) * Z -> result (list (list string) * Z))
    (newway : list string) (ls : list string) (output : list (list string) * Z)
  : result (list (list string) * Z) :=
  match ls with
  | [] => Ok output
  | listname :: ls' =>
      if str_in listname newway then trace_parents rt newway ls' output
      else
        output <- rt listname newway output ;;
        trace_parents rt newway ls' output
  end.

(** [recursiveTrace(member, curlist, curway, output)].  [output] is kept
    reversed together with its length; [curway] is the tuple of names.
    The recursion only visits names not yet on [curway], all keys of
    [lists], so the fuel [S (length lists)] given by [trace] is never
    exhausted. *)
Fixpoint recursiveTrace (t : tracer) (fuel : nat) (curlist : string)
    (curway : list string) (output : list (list string) * Z)
  : result (list (list string) * Z) :=
  match fuel with
  | O => Ok output
  | S fuel' =>
      let newway := curway ++ [curlist] in
      if String.eqb curlist (mlist_name t) then
        if snd output =? max_pathways t then raise (pathways_error (max_pathways t))
        else Ok (rev newway :: fst output, snd output + 1)
      else
        match dict_get curlist (inverseLists t) with
        | None => raise KeyError
        | Some parents => trace_parents (recursiveTrace t fuel') newway parents output
        end
  end.

(** [trace(member)]. *)
Definition trace (t : tracer) (member : list_member) : result (list (list string)) :=
  match inv_get member (inverse t) with
  | None => Ok []
  | Some mlists =>
      r <- fold_left
             (fun acc mlist =>
                output <- acc ;;
                recursiveTrace t (S (length (lists t))) mlist [] output)
             mlists (Ok ([], 0)) ;;
      Ok (rev (fst r))
  end.

(** [ListTracer(mlist, tags = False, max_pathways = 65536)]. *)
Definition ListTracer_init `{MoiraConstants}
    (srv : string -> result (list list_member))
    (set_order : list string -> list string) (name : string) (max : Z) : lm tracer :=
  r <~ getAllMembers srv set_order name true ;;;
  let '(_, _, lists_) := r in
  lret (tracer_of name lists_ max).

Definition default_max_pathways : Z := 65536.

(* ================================================================== *)
(** ** Reading the tracer

    An inclusion pathway for a member [x] over the expanded lists [kn]: a
    list of names without repetition, starting at the root list, each
    list containing the next one as a [LIST] member, the last one
    containing [x] explicitly. *)

Definition holds (kn : dict (option (list list_member))) (a : string) (m : list_member)
  : Prop :=
  exists ms, dict_get a kn = Some (Some ms) /\ In m ms.

Fixpoint chain_down (kn : dict (option (list list_member))) (x : list_member)
    (p : list string) : Prop :=
  match p with
  | [] => False
  | [a] => holds kn a x
  | a :: ((b :: _) as rest) => holds kn a (mkMember ListMember_List b) /\ chain_down kn x rest
  end.

Definition is_pathway (kn : dict (option (list list_member))) (root : string)
    (x : list_member) (p : list string) : Prop :=
  NoDup p /\ hd_error p = Some root /\ chain_down kn x p.

(** The same walk read upwards, from a list to the root. *)
Fixpoint ascends (kn : dict (option (list list_member))) (root : string)
    (l : list string) : Prop :=
  match l with
  | [] => False
  | [a] => a = root
  | a :: ((b :: _) as rest) =>
      a <> root /\ holds kn b (mkMember ListMember_List a) /\ ascends kn root rest
  end.

(** The lists holding [m], in the order [createInverseMap] meets them. *)
Definition holders (m : list_member) (kn : dict (option (list list_member))) : list string :=
  concat (map (fun '(a, c) =>
                 match c with
                 | Some ms => map (fun _ => a) (filter (member_eqb m) ms)
                 | None => []
                 end) kn).

Definition opt_app (o : option (list string)) (l : list string) : option (list string) :=
  match l with
  | [] => o
  | _ => Some (match o with None => l | Some v => v ++ l end)
  end.

(** The pathways [recursiveTrace] emits, without the count limit. *)
Fixpoint trace_enum (t : tracer) (fuel : nat) (curlist : string) (curway : list string)
  : list (list string) :=
  match fuel with
  | O => []
  | S fuel' =>
      let newway := curway ++ [curlist] in
      if String.eqb curlist (mlist_name t) then [rev newway]
      else
        match dict_get curlist (inverseLists t) with
        | None => []
        | Some parents =>
            flat_map (fun l => if str_in l newway then [] else trace_enum t fuel' l newway)
                     parents
        end
  end.

(* ================================================================== *)
(** ** Example list graphs

    Server answers used to exercise the expansion and the tracer. *)

(** A nested list reference ([LIST:name]). *)
Definition list_ref (n : string) : list_member := mkMember ListMember_List n.

(** Every list [n] contains the list [n ++ "a"]: an unbounded chain. *)
Definition chain_srv (n : string) : result (list list_member) :=
  Ok [list_ref (String.append n "a")].

(** [A] contains [B] and the user [u]; [B] contains [A] again and a list
    [X] the caller may not read. *)
Definition cycle_srv (n : string) : result (list list_member) :=
  if String.eqb n "A" then Ok [list_ref "B"; mkMember ListMember_User "u"]
  else if String.eqb n "B" then Ok [list_ref "A"; list_ref "X"]
  else Err (MoiraError 3).

(** [A] contains [B] and [C]; [B] and [C] both contain [D]. *)
Definition diamond_srv (n : string) : result (list list_member) :=
  if String.eqb n "A" then Ok [list_ref "B"; list_ref "C"]
  else if String.eqb n "B" then Ok [list_ref "D"]
  else if String.eqb n "C" then Ok [list_ref "D"]
  else if String.eqb n "D" then Ok []
  else Err (MoiraError 3).

(** Seventeen one-letter marks. *)
Definition marks : list string :=
  ["b"; "c"; "d"; "e"; "f"; "g"; "h"; "i"; "j"; "k"; "l"; "m"; "n"; "o"; "p"; "q"; "r"]%string.

(** Four layers of seventeen lists under the root [R]: a list named
    [p ++ c] ([c] a mark) contains the seventeen lists [p ++ "a" ++ c'] of
    the next layer while [p] is shorter than four letters; the lists of
    the last layer contain the user [u].  There are [17 ^ 4 = 83521]
    pathways from [R] to [u]. *)
Definition layered_srv (n : string) : result (list list_member) :=
  let p := String.substring 0 (String.length n - 1) n in
  if (String.length p <? 4)%nat then
    Ok (map (fun c => list_ref (String.append p (String.append "a" c))) marks)
  else Ok [mkMember ListMember_User "u"].

(* ================================================================== *)
(** ** Notions used by the proofs *)

(** The encoding of one field as [build] lays it out. *)
Definition enc_field (item : bytes) : bytes :=
  be32 (Z.of_nat (length (item ++ [x00]))) ++ pad4 (item ++ [x00]).

(** The frame of a server status with no field. *)
Definition status_reply (s : Z) : bytes :=
  be32 16 ++ be32 2 ++ be32 (s mod 2^32) ++ be32 0.

(** Only [set_version_field] writes [self.version]. *)
Definition keeps_version {A} (m : client A) : Prop :=
  forall c, version (snd (m c)) = version c.

(** Sample values of the protocol constants, used to evaluate the model
    on concrete inputs. *)
#[local] Instance sample_constants : MoiraConstants := {|
  MR_SUCCESS := 0;
  MR_MORE_DATA := 1;
  MR_VERSION_LOW := 2;
  MR_PERM := 3;
  MR_MOTD := 6;
  MR_SETVERSION := 8;
  MR_QUERY := 3
|}.

Section ExpansionInvariant.
Context `{MoiraConstants}.
Variable srv : string -> result (list list_member).
Variable root : string.

(** A set of names containing, with each name the server answers for, the
    names of the [LIST] members of the answer. *)
Definition G_closed (G : list string) : Prop :=
  forall n ms m, In n G -> srv n = Ok ms -> In m ms -> is_list m = true -> In (mname m) G.

(** What the loop state says about the queries made so far ([log]): the
    keys of [known] are the queried names, each with the server's answer
    (or [None] for a refused nested list); [denied] holds the refused
    nested lists; [members] is the union of the answers; every queried
    name but the root was found as a [LIST] member. *)
Record exp_inv (st : expansion) (log : list string) : Prop := {
  inv_log_nodup : NoDup log;
  inv_keys_nodup : NoDup (dict_keys (known st));
  inv_keys : forall n, In n (dict_keys (known st)) <-> In n log;
  inv_known : forall n, In n log ->
    (exists ms, srv n = Ok ms /\ dict_get n (known st) = Some (Some (frozenset ms)))
    \/ (n <> root /\ srv n = Err (MoiraError MR_PERM) /\ dict_get n (known st) = Some None);
  inv_denied : forall n,
    In n (denied st) <-> In n log /\ n <> root /\ srv n = Err (MoiraError MR_PERM);
  inv_members : forall m,
    In m (members st) <-> exists k ms, dict_get k (known st) = Some (Some ms) /\ In m ms;
  inv_reached : forall n, In n log -> n = root \/ In (mkMember ListMember_List n) (members st);
  inv_root : In root log;
  inv_within : forall G, In root G -> G_closed G -> incl log G
}.

End ExpansionInvariant.

(** Every key of [kn] but the root is held, as a [LIST] member, by a list of [kn]. *)
Definition keys_held (kn : dict (option (list list_member))) (root : string) : Prop :=
  forall k, In k (dict_keys kn) -> k <> root -> exists a, holds kn a (list_ref k).

(** Every list of [kn] holds its members without repetition. *)
Definition contents_nodup (kn : dict (option (list list_member))) : Prop :=
  forall a ms, In (a, Some ms) kn -> NoDup ms.

(** [holds] and [chain_down] as tests, to check a given pathway. *)
Definition holdsb (kn : dict (option (list list_member))) (a : string) (m : list_member)
  : bool :=
  match dict_get a kn with
  | Some (Some ms) => mem_member m ms
  | _ => false
  end.

Fixpoint chain_downb (kn : dict (option (list list_member))) (x : list_member)
    (p : list string) : bool :=
  match p with
  | [] => false
  | [a] => holdsb kn a x
  | a :: ((b :: _) as rest) => holdsb kn a (list_ref b) && chain_downb kn x rest
  end.

(* ================================================================== *)
(** * Proofs *)

Example parse_build_example :
  (b <- build 5 [[x61; x00; x62]; []; [x63; x64; x65; x66]] ;; parse b)
  = Ok (mkPacket 44 5 [[x61; x00; x62]; []; [x63; x64; x65; x66]]).
Proof. vm_compute. reflexivity. Qed.

(* ================================================================== *)
(** ** Facts about the byte-level helpers *)

Lemma Z_of_byte_of_Z (z : Z) : Z_of_byte (byte_of_Z z) = z mod 256.
Proof.
  unfold Z_of_byte, byte_of_Z.
  pose proof (Z.mod_pos_bound z 256 ltac:(lia)) as Hb.
  destruct (Byte.of_N (Z.to_N (z mod 256))) as [b|] eqn:E.
  - apply Byte.to_of_N in E. rewrite E. lia.
  - apply Byte.of_N_None_iff in E. lia.
Qed.

Lemma Z_of_byte_bound (b : byte) : 0 <= Z_of_byte b < 256.
Proof. unfold Z_of_byte. pose proof (Byte.to_N_bounded b). lia. Qed.

Lemma unbe32_be32 (n : Z) : 0 <= n < 2^32 -> unbe32 (be32 n) = n.
Proof.
  intros Hn. unfold unbe32, be32; cbn [fold_left].
  rewrite !Z_of_byte_of_Z. change (2^24) with 16777216 in *.
  change (2^16) with 65536. change (2^8) with 256. change (2^32) with 4294967296 in Hn.
  assert (E1 : n / 16777216 = n / 65536 / 256)
    by (rewrite Z.div_div by lia; reflexivity).
  assert (E2 : n / 65536 = n / 256 / 256)
    by (rewrite Z.div_div by lia; reflexivity).
  pose proof (Z.div_mod (n / 65536) 256 ltac:(lia)).
  pose proof (Z.div_mod (n / 256) 256 ltac:(lia)).
  pose proof (Z.div_mod n 256 ltac:(lia)).
  assert (0 <= n / 16777216 < 256) by (split; [apply Z.div_pos | apply Z.div_lt_upper_bound]; lia).
  rewrite (Z.mod_small (n / 16777216)) by lia.
  lia.
Qed.

Lemma length_be32 (n : Z) : length (be32 n) = 4%nat.
Proof. reflexivity. Qed.

Lemma unpack_u32_be32 (n : Z) : 0 <= n < 2^32 -> unpack_u32 (be32 n) = Ok n.
Proof.
  intros Hn. unfold unpack_u32. rewrite length_be32. cbn [Nat.eqb].
  rewrite unbe32_be32; auto.
Qed.

Lemma pack_u32_ok (n : Z) (b : bytes) :
  pack_u32 n = Ok b -> 0 <= n < 2^32 /\ b = be32 n.
Proof.
  unfold pack_u32. destruct (0 <=? n) eqn:E1, (n <? 2^32) eqn:E2;
    simpl; intros H; inversion H; subst; split; auto; lia.
Qed.

Lemma pack_i32_ok (n : Z) (b : bytes) :
  pack_i32 n = Ok b -> - 2^31 <= n < 2^31 /\ b = be32 (n mod 2^32).
Proof.
  unfold pack_i32. destruct (- 2^31 <=? n) eqn:E1, (n <? 2^31) eqn:E2;
    simpl; intros H; inversion H; subst; split; auto; lia.
Qed.

Lemma unpack_i32_be32 (n : Z) :
  - 2^31 <= n < 2^31 -> unpack_i32 (be32 (n mod 2^32)) = Ok n.
Proof.
  intros Hn. unfold unpack_i32. rewrite length_be32. cbn [Nat.eqb].
  rewrite unbe32_be32 by (apply Z.mod_pos_bound; lia).
  f_equal. change (2^31) with 2147483648 in *. change (2^32) with 4294967296.
  destruct (n mod 4294967296 <? 2147483648) eqn:E;
    [apply Z.ltb_lt in E | apply Z.ltb_ge in E];
    pose proof (Z.mod_pos_bound n 4294967296 ltac:(lia));
    pose proof (Z.div_mod n 4294967296 ltac:(lia)); nia.
Qed.

(* ================================================================== *)
(** ** Facts about [Packet.build] and [Packet.parse] *)

Lemma lstrip0_zeros (k : nat) (y : bytes) :
  lstrip0 (repeat x00 k ++ y) = lstrip0 y.
Proof. induction k; simpl; auto. Qed.

Lemma rstrip0_app_zeros (x : bytes) (k : nat) :
  rstrip0 (x ++ repeat x00 k) = rstrip0 x.
Proof.
  unfold rstrip0. rewrite rev_app_distr, rev_repeat, lstrip0_zeros. reflexivity.
Qed.

Lemma rstrip0_snoc0 (x : bytes) : rstrip0 (x ++ [x00]) = rstrip0 x.
Proof. apply (rstrip0_app_zeros x 1). Qed.

Lemma length_pad4 (x : bytes) :
  length (pad4 x) = (length x + (4 - length x mod 4) mod 4)%nat.
Proof. unfold pad4. rewrite length_app, repeat_length. reflexivity. Qed.

Lemma pad4_mod (x : bytes) : (length (pad4 x) mod 4 = 0)%nat.
Proof.
  rewrite length_pad4. generalize (length x). intros k.
  pose proof (Nat.div_mod k 4 ltac:(lia)).
  pose proof (Nat.mod_upper_bound k 4 ltac:(lia)).
  pose proof (Nat.div_mod (4 - k mod 4) 4 ltac:(lia)).
  pose proof (Nat.mod_upper_bound (4 - k mod 4) 4 ltac:(lia)).
  pose proof (Nat.div_mod (k + (4 - k mod 4) mod 4) 4 ltac:(lia)).
  pose proof (Nat.mod_upper_bound (k + (4 - k mod 4) mod 4) 4 ltac:(lia)).
  nia.
Qed.

(** The rounding of [Packet.parse] gives the padded length of [build]. *)
Lemma actual_len_pad (k : nat) :
  Z.to_nat (if Z.of_nat k mod 4 =? 0 then Z.of_nat k
            else Z.of_nat k + (4 - Z.of_nat k mod 4))
  = (k + (4 - k mod 4) mod 4)%nat.
Proof.
  pose proof (Nat.div_mod k 4 ltac:(lia)).
  pose proof (Nat.mod_upper_bound k 4 ltac:(lia)).
  assert (Hm : Z.of_nat k mod 4 = Z.of_nat (k mod 4)).
  { rewrite Nat2Z.inj_mod. reflexivity. }
  rewrite Hm.
  remember (k mod 4)%nat as r.
  assert (r = 0 \/ r = 1 \/ r = 2 \/ r = 3)%nat as [-> | [-> | [-> | ->]]] by lia;
    simpl; lia.
Qed.

Lemma length_enc_field (item : bytes) :
  length (enc_field item) = (4 + length (pad4 (item ++ [x00])))%nat.
Proof. unfold enc_field. rewrite length_app, length_be32. reflexivity. Qed.

Lemma length_pad4_ge (x : bytes) : (length x <= length (pad4 x))%nat.
Proof. rewrite length_pad4. lia. Qed.

Lemma firstn_be32 (n : Z) (y : bytes) : firstn 4 (be32 n ++ y) = be32 n.
Proof. reflexivity. Qed.

Lemma skipn_be32 (n : Z) (y : bytes) : skipn 4 (be32 n ++ y) = y.
Proof. reflexivity. Qed.

Lemma parse_fields_enc_one (n : nat) (item rest : bytes) (acc : list bytes) :
  Z.of_nat (length (item ++ [x00])) < 2^32 ->
  parse_fields (S n) (enc_field item ++ rest) acc
  = parse_fields n rest (acc ++ [rstrip0 item]).
Proof.
  intros Hlen. set (x := item ++ [x00]) in *.
  cbn [parse_fields].
  assert (Hl : length (enc_field item ++ rest)
               = (4 + length (pad4 x) + length rest)%nat).
  { rewrite length_app, length_enc_field. reflexivity. }
  rewrite Hl.
  replace ((4 + length (pad4 x) + length rest <? 4)%nat) with false
    by (symmetry; apply Nat.ltb_ge; lia).
  unfold _read_u32, enc_field. fold x.
  rewrite <- app_assoc, firstn_be32, unpack_u32_be32 by lia. cbn [bind].
  pose proof (length_pad4_ge x).
  replace (Z.of_nat (length x) + 4 >? Z.of_nat (4 + length (pad4 x) + length rest))
    with false by (symmetry; rewrite Z.gtb_ltb; apply Z.ltb_ge; lia).
  rewrite skipn_be32, actual_len_pad, <- length_pad4.
  rewrite firstn_app, Nat.sub_diag, firstn_all, firstn_O, app_nil_r.
  rewrite skipn_app, Nat.sub_diag, skipn_all, skipn_O. cbn [app].
  unfold pad4. rewrite rstrip0_app_zeros. unfold x. rewrite rstrip0_snoc0.
  reflexivity.
Qed.

Lemma build_field_ok (item f : bytes) :
  build_field item = Ok f ->
  Z.of_nat (length (item ++ [x00])) < 2^32 /\ f = enc_field item.
Proof.
  unfold build_field, _fmt_u32, bind.
  destruct (pack_u32 (Z.of_nat (length (item ++ [x00])))) as [l|e] eqn:E;
    intros H; inversion H; subst.
  apply pack_u32_ok in E as [Hr ->]. split; [lia | reflexivity].
Qed.

Lemma build_body_ok (items : list bytes) (acc b : bytes) :
  build_body items acc = Ok b ->
  Forall (fun i => Z.of_nat (length (i ++ [x00])) < 2^32) items /\
  b = acc ++ concat (map enc_field items).
Proof.
  revert acc. induction items as [|item items IH]; intros acc H; simpl in H.
  - inversion H; subst. rewrite app_nil_r. auto.
  - destruct (build_field item) as [f|e] eqn:E; simpl in H; [|discriminate].
    apply build_field_ok in E as [Hr ->].
    apply IH in H as [Hf ->]. split; [constructor; auto|].
    cbn [map concat]. rewrite <- app_assoc. reflexivity.
Qed.

Lemma parse_fields_enc (items : list bytes) (rest : bytes) (acc : list bytes) :
  Forall (fun i => Z.of_nat (length (i ++ [x00])) < 2^32) items ->
  parse_fields (length items) (concat (map enc_field items) ++ rest) acc
  = Ok (acc ++ map rstrip0 items, rest).
Proof.
  revert acc. induction items as [|item items IH]; intros acc Hf.
  - simpl. rewrite app_nil_r. reflexivity.
  - inversion Hf; subst. cbn [length map concat].
    rewrite <- app_assoc, parse_fields_enc_one by assumption.
    rewrite IH by assumption. rewrite <- app_assoc. reflexivity.
Qed.

Lemma length_concat_enc_mod (items : list bytes) :
  (length (concat (map enc_field items)) mod 4 = 0)%nat.
Proof.
  induction items as [|item items IH]; [reflexivity|].
  cbn [map concat]. rewrite length_app, length_enc_field.
  pose proof (pad4_mod (item ++ [x00])).
  revert IH H. generalize (length (concat (map enc_field items))).
  generalize (length (pad4 (item ++ [x00]))). intros a c Hc Ha.
  pose proof (Nat.div_mod a 4 ltac:(lia)).
  pose proof (Nat.div_mod c 4 ltac:(lia)).
  replace (4 + a + c)%nat with ((1 + a / 4 + c / 4) * 4)%nat by lia.
  apply Nat.Div0.mod_mul.
Qed.

Lemma firstn_hdr (a b c d : Z) (y : bytes) :
  firstn 16 (be32 a ++ be32 b ++ be32 c ++ be32 d ++ y)
  = be32 a ++ be32 b ++ be32 c ++ be32 d.
Proof. reflexivity. Qed.

Lemma skipn_hdr (a b c d : Z) (y : bytes) :
  skipn 16 (be32 a ++ be32 b ++ be32 c ++ be32 d ++ y) = y.
Proof. reflexivity. Qed.

Lemma skipn8_be32 (a b : Z) (y : bytes) :
  skipn 8 (be32 a ++ be32 b ++ y) = y.
Proof. reflexivity. Qed.

Lemma skipn12_be32 (a b c : Z) (y : bytes) :
  skipn 12 (be32 a ++ be32 b ++ be32 c ++ y) = y.
Proof. reflexivity. Qed.

(** Decoding what [build] produced gives back the opcode and every field
    with its trailing zero bytes removed. *)
Lemma parse_build (op : Z) (items : list bytes) (b : bytes) :
  build op items = Ok b ->
  parse b = Ok (mkPacket (Z.of_nat (length b)) op (map rstrip0 items)).
Proof.
  unfold build, bind.
  destruct (build_body items []) as [body|e] eqn:Eb; [|discriminate].
  apply build_body_ok in Eb as [Hf Hbody]. simpl in Hbody.
  destruct (pack_u32 (16 + Z.of_nat (length body))) as [h1|e] eqn:E1; [|discriminate].
  destruct (pack_u32 MOIRA_PROTOCOL_VERSION) as [h2|e] eqn:E2; [|discriminate].
  destruct (pack_i32 op) as [h3|e] eqn:E3; [|discriminate].
  destruct (pack_u32 (Z.of_nat (length items))) as [h4|e] eqn:E4; [|discriminate].
  intros H; inversion H; subst b; clear H.
  apply pack_u32_ok in E1 as [R1 ->]. apply pack_u32_ok in E2 as [R2 ->].
  apply pack_i32_ok in E3 as [R3 ->]. apply pack_u32_ok in E4 as [R4 ->].
  unfold parse. rewrite firstn_hdr, skipn_hdr.
  change (Nat.eqb (length (be32 (16 + Z.of_nat (length body)) ++
            be32 MOIRA_PROTOCOL_VERSION ++ be32 (op mod 2^32) ++
            be32 (Z.of_nat (length items)))) 16) with true.
  cbn [negb].
  rewrite firstn_be32, unpack_u32_be32 by lia. cbn [bind].
  rewrite skipn_be32, firstn_be32, unpack_u32_be32 by (unfold MOIRA_PROTOCOL_VERSION; lia).
  cbn [bind].
  rewrite skipn8_be32, firstn_be32, unpack_i32_be32 by lia. cbn [bind].
  rewrite skipn12_be32, unpack_u32_be32 by lia. cbn [bind].
  assert (Hm : ((16 + Z.of_nat (length body)) mod 4 =? 0) = true).
  { apply Z.eqb_eq. subst body. pose proof (length_concat_enc_mod items) as H.
    apply (f_equal Z.of_nat) in H. rewrite Nat2Z.inj_mod in H.
    change (Z.of_nat 4) with 4 in H. rewrite Z.add_mod, H by lia. reflexivity. }
  rewrite Hm. unfold MOIRA_PROTOCOL_VERSION. cbn [negb Z.eqb].
  rewrite Nat2Z.id. subst body.
  rewrite <- (app_nil_r (concat (map enc_field items))), parse_fields_enc by assumption.
  cbn [bind length Nat.ltb Nat.leb]. change ((2 =? 2)%positive) with true.
  cbn [negb app]. rewrite !app_nil_r, !length_app, !length_be32.
  f_equal. f_equal. lia.
Qed.

Lemma lstrip0_cons (c : byte) (l : bytes) :
  c <> x00 -> lstrip0 (c :: l) = c :: l.
Proof. intros Hc. destruct c; try reflexivity. congruence. Qed.

Lemma rstrip0_last_nonzero (f : bytes) :
  last f x00 <> x00 -> rstrip0 f = f.
Proof.
  intros Hl. destruct f as [|a f] using rev_ind; [simpl in Hl; congruence|].
  rewrite last_last in Hl. unfold rstrip0.
  rewrite rev_app_distr. cbn [rev app]. rewrite lstrip0_cons by assumption.
  change (a :: rev f) with (rev [a] ++ rev f).
  rewrite <- rev_app_distr, rev_involutive. reflexivity.
Qed.

Lemma rstrip0_no_zero (f : bytes) : ~ In x00 f -> rstrip0 f = f.
Proof.
  intros Hz. destruct f as [|a f] using rev_ind; [reflexivity|].
  apply rstrip0_last_nonzero. rewrite last_last.
  intros ->. apply Hz, in_or_app. right. left. reflexivity.
Qed.

(* ================================================================== *)
(** ** Facts about the connection *)

Lemma pack_i32_in_range (n : Z) :
  - 2^31 <= n < 2^31 -> pack_i32 n = Ok (be32 (n mod 2^32)).
Proof.
  intros Hn. unfold pack_i32.
  replace (- 2^31 <=? n) with true by (symmetry; apply Z.leb_le; lia).
  replace (n <? 2^31) with true by (symmetry; apply Z.ltb_lt; lia).
  reflexivity.
Qed.

Lemma build_status_reply (s : Z) :
  - 2^31 <= s < 2^31 -> build s [] = Ok (status_reply s).
Proof.
  intros Hs. unfold build. cbn [build_body bind].
  rewrite pack_i32_in_range by assumption. reflexivity.
Qed.

Lemma parse_status_reply (s : Z) :
  - 2^31 <= s < 2^31 -> parse (status_reply s) = Ok (mkPacket 16 s []).
Proof.
  intros Hs. apply build_status_reply, parse_build in Hs. rewrite Hs.
  reflexivity.
Qed.

Lemma recv_loop_done (fuel n : nat) (data : bytes) (c : conn) :
  (n <= length data)%nat -> recv_loop fuel n data c = (Ok data, c).
Proof.
  intros H. destruct fuel; cbn [recv_loop];
    replace ((length data <? n)%nat) with false
      by (symmetry; apply Nat.ltb_ge; lia); reflexivity.
Qed.

(** [recv(n)] when the next segment already holds [n] bytes. *)
Lemma recv_one_segment (n : nat) (v : option Z) (out : list bytes)
      (seg : bytes) (rest : list bytes) :
  (0 < n)%nat -> (n <= length seg)%nat ->
  recv n (mkConn v out (seg :: rest))
  = (Ok (firstn n seg),
     mkConn v out (if (n <? length seg)%nat then skipn n seg :: rest else rest)).
Proof.
  intros Hn Hseg. unfold recv. destruct n as [|n']; [lia|].
  cbn [recv_loop length]. replace ((0 <? S n')%nat) with true by reflexivity.
  unfold cbind, socket_recv. cbn [inbox version sent].
  rewrite Nat.sub_0_r, length_firstn.
  replace (Nat.min (S n') (length seg)) with (S n') by lia.
  cbn [Nat.eqb app]. apply recv_loop_done. rewrite length_firstn. lia.
Qed.

(** [recvPacket] on a status frame. *)
Lemma recvPacket_status_reply (s : Z) (v : option Z) (out : list bytes)
      (rest : list bytes) :
  - 2^31 <= s < 2^31 ->
  recvPacket (mkConn v out (status_reply s :: rest))
  = (Ok (mkPacket 16 s []), mkConn v out rest).
Proof.
  intros Hs. unfold recvPacket, cbind.
  rewrite recv_one_segment by (unfold status_reply; cbn; lia).
  change (length (status_reply s)) with 16%nat.
  change ((4 <? 16)%nat) with true. cbn iota.
  change (firstn 4 (status_reply s)) with (be32 16).
  unfold clift. unfold _read_u32 at 1. rewrite firstn_all2 by reflexivity.
  rewrite unpack_u32_be32 by lia.
  change (16 <? 4) with false. cbn iota. change (Z.to_nat (16 - 4)) with 12%nat.
  cbv beta. rewrite recv_one_segment by (unfold status_reply; cbn; lia).
  change (length (skipn 4 (status_reply s))) with 12%nat.
  change ((12 <? 12)%nat) with false. cbn iota.
  rewrite firstn_all2 by (unfold status_reply; cbn; lia).
  change (be32 16 ++ skipn 4 (status_reply s)) with (status_reply s).
  rewrite parse_status_reply by assumption. reflexivity.
Qed.

Lemma keeps_cbind {A B} (m : client A) (k : A -> client B) :
  keeps_version m -> (forall a, keeps_version (k a)) -> keeps_version (cbind m k).
Proof.
  intros Hm Hk c. unfold cbind. specialize (Hm c).
  destruct (m c) as [[a|e] c'] eqn:E; simpl in *; [rewrite Hk|]; auto.
Qed.

Lemma keeps_cret {A} (a : A) : keeps_version (cret a).
Proof. intros c. reflexivity. Qed.

Lemma keeps_cthrow {A} (e : error) : keeps_version (@cthrow A e).
Proof. intros c. reflexivity. Qed.

Lemma keeps_clift {A} (r : result A) : keeps_version (clift r).
Proof. intros c. reflexivity. Qed.

Lemma keeps_socket_recv (k : nat) : keeps_version (socket_recv k).
Proof. intros c. unfold socket_recv. destruct (inbox c); reflexivity. Qed.

Lemma keeps_socket_send (b : bytes) : keeps_version (socket_send b).
Proof. intros c. reflexivity. Qed.

Lemma keeps_get_version : keeps_version get_version.
Proof. intros c. reflexivity. Qed.

Create HintDb keeps.
#[local] Hint Resolve keeps_cbind keeps_cret keeps_cthrow keeps_clift
  keeps_socket_recv keeps_socket_send keeps_get_version : keeps.

Lemma keeps_recv_loop (fuel n : nat) (data : bytes) :
  keeps_version (recv_loop fuel n data).
Proof.
  revert data. induction fuel as [|f IH]; intros data; cbn [recv_loop];
    destruct (length data <? n)%nat; auto with keeps.
  apply keeps_cbind; auto with keeps. intros a.
  destruct (length a =? 0)%nat; auto with keeps.
Qed.

Lemma keeps_recvPacket : keeps_version recvPacket.
Proof.
  unfold recvPacket, recv. apply keeps_cbind; [apply keeps_recv_loop|]. intros a.
  apply keeps_cbind; auto with keeps. intros l.
  destruct (l <? 4); auto with keeps.
  apply keeps_cbind; [apply keeps_recv_loop|]. auto with keeps.
Qed.

Lemma keeps_sendPacket (op : Z) (items : list bytes) :
  keeps_version (sendPacket op items).
Proof. unfold sendPacket. auto with keeps. Qed.

Lemma setVersion_keeps_version `{MoiraConstants} (v : Z) :
  keeps_version (setVersion v).
Proof.
  unfold setVersion. apply keeps_cbind; auto with keeps. intros cur.
  destruct (py_eq_version cur v); auto with keeps.
  apply keeps_cbind; [apply keeps_sendPacket|]. intros u.
  apply keeps_cbind; [apply keeps_recvPacket|]. intros r.
  destruct (_ && _); auto with keeps.
Qed.

(** A version request the server accepts with [MR_SUCCESS]. *)
Lemma setVersion_round_trip `{MoiraConstants} (v : Z) (c : conn)
      (b : bytes) (rest : list bytes) :
  - 2^31 <= MR_SUCCESS < 2^31 ->
  py_eq_version (version c) v = false ->
  build MR_SETVERSION [str_Z v] = Ok b ->
  inbox c = status_reply MR_SUCCESS :: rest ->
  setVersion v c = (Ok tt, mkConn (version c) (sent c ++ [b]) rest).
Proof.
  intros Hs Hv Hb Hin. destruct c as [ver out inb]; simpl in *; subst inb.
  unfold setVersion, cbind, get_version. cbn [version]. rewrite Hv.
  unfold sendPacket, cbind, clift. rewrite Hb. unfold socket_send.
  cbn [version sent inbox].
  rewrite recvPacket_status_reply by assumption. cbn [opcode].
  rewrite Z.eqb_refl. reflexivity.
Qed.

(** Claim C1 (code defect).  [setVersion] never assigns [self.version]:
    after [__init__] (which sets it to [None] and then calls
    [setVersion(14)]), each further [setVersion(14)] sends one more
    version request, and the negotiated-version state stays [None]. *)
Theorem setVersion_same_value_resends `{MoiraConstants} (c : conn) (b : bytes) :
  - 2^31 <= MR_SUCCESS < 2^31 ->
  build MR_SETVERSION [str_Z MOIRA_QUERY_VERSION] = Ok b ->
  inbox c = [status_reply MR_SUCCESS; status_reply MR_SUCCESS;
             status_reply MR_SUCCESS] ->
  (_ <-- init_version None ;;;
   _ <-- setVersion MOIRA_QUERY_VERSION ;;;
   setVersion MOIRA_QUERY_VERSION) c
  = (Ok tt, mkConn None (sent c ++ [b; b; b]) []).
Proof.
  intros Hs Hb Hin. destruct c as [ver out inb]; simpl in Hin; subst inb.
  unfold init_version, cbind, set_version_field. cbn [sent inbox].
  rewrite setVersion_round_trip with (b := b) (rest := [status_reply MR_SUCCESS;
    status_reply MR_SUCCESS]) by (simpl; auto).
  cbn [version sent inbox].
  rewrite setVersion_round_trip with (b := b) (rest := [status_reply MR_SUCCESS])
    by (simpl; auto).
  cbn [version sent inbox].
  rewrite setVersion_round_trip with (b := b) (rest := []) by (simpl; auto).
  cbn [version sent]. rewrite <- !app_assoc. reflexivity.
Qed.

Lemma setVersion_same_value_resends_witness :
  build MR_SETVERSION [str_Z MOIRA_QUERY_VERSION]
  = Ok [x00; x00; x00; x18; x00; x00; x00; x02; x00; x00; x00; x08;
        x00; x00; x00; x01; x00; x00; x00; x03; x31; x34; x00; x00] /\
  (_ <-- init_version None ;;;
   _ <-- setVersion MOIRA_QUERY_VERSION ;;;
   setVersion MOIRA_QUERY_VERSION)
    (mkConn (Some 14) [] [status_reply 0; status_reply 0; status_reply 0])
  = (Ok tt, mkConn None
       (let b := [x00; x00; x00; x18; x00; x00; x00; x02; x00; x00; x00; x08;
                  x00; x00; x00; x01; x00; x00; x00; x03; x31; x34; x00; x00]
        in [b; b; b]) []).
Proof.
  split; [vm_compute; reflexivity|].
  apply (setVersion_same_value_resends
           (mkConn (Some 14) [] [status_reply 0; status_reply 0; status_reply 0])).
  - simpl. lia.
  - vm_compute. reflexivity.
  - reflexivity.
Defined.

(** Claim C5 (code defect).  [recvPacket] only rejects a declared length
    below 4 with [ConnectionError]; a frame declaring a length from 4 to
    15 (below the 16-byte header) is read in full and then makes
    [Packet.parse] raise [struct.error] instead. *)
Theorem recvPacket_short_length_struct_error (L : Z) (payload : bytes)
        (v : option Z) (out rest : list bytes) :
  4 <= L < 16 ->
  Z.of_nat (length payload) = L - 4 ->
  recvPacket (mkConn v out ((be32 L ++ payload) :: rest))
  = (Err StructError, mkConn v out rest).
Proof.
  intros HL Hp. unfold recvPacket, cbind.
  rewrite recv_one_segment by (try rewrite length_app, length_be32; lia).
  rewrite length_app, length_be32, firstn_be32.
  unfold clift, _read_u32. rewrite firstn_all2 by (rewrite length_be32; lia).
  rewrite unpack_u32_be32 by lia.
  replace (L <? 4) with false by (symmetry; apply Z.ltb_ge; lia).
  destruct (Nat.ltb_spec 4 (4 + length payload)) as [Hlt|Hge].
  - rewrite skipn_be32. cbv beta.
    rewrite recv_one_segment by lia.
    rewrite firstn_all2 by lia.
    replace ((Z.to_nat (L - 4) <? length payload)%nat) with false
      by (symmetry; apply Nat.ltb_ge; lia).
    unfold parse. rewrite firstn_all2 by (rewrite length_app, length_be32; lia).
    replace (Nat.eqb (length (be32 L ++ payload)) 16) with false
      by (symmetry; apply Nat.eqb_neq; rewrite length_app, length_be32; lia).
    reflexivity.
  - assert (payload = []) as -> by (destruct payload; simpl in *; [reflexivity | lia]).
    replace (L - 4) with 0 by (simpl in Hp; lia). cbv beta.
    unfold recv. change (Z.to_nat 0) with 0%nat. cbn [recv_loop length Nat.ltb Nat.leb].
    unfold cret. rewrite app_nil_r.
    unfold parse. rewrite firstn_all2 by (rewrite length_be32; lia).
    reflexivity.
Qed.

Lemma recvPacket_short_length_struct_error_witness :
  (4 <= 8 < 16 /\ Z.of_nat (length [x00; x00; x00; x02]) = 8 - 4) /\
  recvPacket (mkConn None [] [[x00; x00; x00; x08; x00; x00; x00; x02]])
  = (Err StructError, mkConn None [] []).
Proof.
  split; [split; [lia | reflexivity]|].
  apply (recvPacket_short_length_struct_error 8 [x00; x00; x00; x02] None [] []).
  - lia.
  - reflexivity.
Defined.

(* ================================================================== *)
(** ** The codec claims *)

(** Claim C3.  For every opcode and every list of fields none of which
    contains a zero byte, decoding the frame [Packet.build] produced gives
    back the opcode and the fields, in order. *)
Theorem decode_encode_no_zero (op : Z) (items : list bytes) (b : bytes) :
  build op items = Ok b ->
  Forall (fun f => ~ In x00 f) items ->
  exists p, parse b = Ok p /\ opcode p = op /\ data p = items.
Proof.
  intros Hb Hz. apply parse_build in Hb. eexists; split; [exact Hb|].
  split; [reflexivity|]. simpl. clear Hb.
  induction Hz as [|f items Hf Hz IH]; [reflexivity|].
  simpl. rewrite rstrip0_no_zero by assumption. f_equal. exact IH.
Qed.

Lemma decode_encode_no_zero_witness :
  build 3 [[x61; x62]; [x63]]
  = Ok [x00; x00; x00; x20; x00; x00; x00; x02; x00; x00; x00; x03;
        x00; x00; x00; x02; x00; x00; x00; x03; x61; x62; x00; x00;
        x00; x00; x00; x02; x63; x00; x00; x00] /\
  Forall (fun f => ~ In x00 f) [[x61; x62]; [x63]] /\
  exists p, parse [x00; x00; x00; x20; x00; x00; x00; x02; x00; x00; x00; x03;
                   x00; x00; x00; x02; x00; x00; x00; x03; x61; x62; x00; x00;
                   x00; x00; x00; x02; x63; x00; x00; x00] = Ok p /\
            opcode p = 3 /\ data p = [[x61; x62]; [x63]].
Proof.
  assert (Hz : Forall (fun f => ~ In x00 f) [[x61; x62]; [x63]]).
  { apply Forall_forall. intros f Hf. simpl in Hf.
    destruct Hf as [<-|[<-|[]]]; simpl; intros H;
      repeat destruct H as [H|H]; try discriminate; contradiction. }
  split; [vm_compute; reflexivity|]. split; [exact Hz|].
  apply (decode_encode_no_zero 3 [[x61; x62]; [x63]]); [vm_compute; reflexivity | exact Hz].
Defined.

(** Claim C2, refuted: a field whose zero byte is followed by a non-zero
    byte comes back whole, not cut at the zero byte ([rstrip] only drops
    trailing zeros). *)
Lemma decode_encode_keeps_bytes_after_zero :
  (b <- build 5 [[x61; x00; x62]] ;; parse b)
  = Ok (mkPacket 24 5 [[x61; x00; x62]]) /\
  [x61; x00; x62] <> [x61].
Proof. split; [vm_compute; reflexivity | discriminate]. Qed.

(** Claim C2, as amended.  Encoding then decoding gives back the opcode and
    each field with its trailing zero bytes removed; in particular a field
    whose last byte is not zero, whatever zero bytes it holds inside, comes
    back unchanged. *)
Theorem decode_encode_strips_trailing_zeros (op : Z) (items : list bytes)
        (b : bytes) :
  build op items = Ok b ->
  exists p, parse b = Ok p /\ opcode p = op /\ data p = map rstrip0 items /\
    (forall i f, nth_error items i = Some f -> last f x00 <> x00 ->
                 nth_error (data p) i = Some f).
Proof.
  intros Hb. apply parse_build in Hb. eexists; split; [exact Hb|].
  simpl. split; [reflexivity|]. split; [reflexivity|].
  intros i f Hi Hl. rewrite nth_error_map, Hi. simpl.
  rewrite rstrip0_last_nonzero by assumption. reflexivity.
Qed.

Lemma decode_encode_strips_trailing_zeros_witness :
  build 5 [[x61; x00; x62]; [x63; x00]]
  = Ok [x00; x00; x00; x20; x00; x00; x00; x02; x00; x00; x00; x05;
        x00; x00; x00; x02; x00; x00; x00; x04; x61; x00; x62; x00;
        x00; x00; x00; x03; x63; x00; x00; x00] /\
  exists p, parse [x00; x00; x00; x20; x00; x00; x00; x02; x00; x00; x00; x05;
                   x00; x00; x00; x02; x00; x00; x00; x04; x61; x00; x62; x00;
                   x00; x00; x00; x03; x63; x00; x00; x00] = Ok p /\
    opcode p = 5 /\ data p = map rstrip0 [[x61; x00; x62]; [x63; x00]] /\
    (forall i f, nth_error [[x61; x00; x62]; [x63; x00]] i = Some f ->
                 last f x00 <> x00 -> nth_error (data p) i = Some f).
Proof.
  split; [vm_compute; reflexivity|].
  apply (decode_encode_strips_trailing_zeros 5 [[x61; x00; x62]; [x63; x00]]).
  vm_compute. reflexivity.
Defined.

Lemma unpack_u32_4 (s : bytes) : length s = 4%nat -> unpack_u32 s = Ok (unbe32 s).
Proof. intros H. unfold unpack_u32. rewrite H. reflexivity. Qed.

Lemma unpack_i32_4 (s : bytes) : length s = 4%nat -> exists z, unpack_i32 s = Ok z.
Proof. intros H. unfold unpack_i32. rewrite H. simpl. eauto. Qed.

Lemma length_firstn4 (b : bytes) : (4 <= length b)%nat -> length (firstn 4 b) = 4%nat.
Proof. intros H. rewrite length_firstn. lia. Qed.

(** The field loop fails exactly on the amended conditions, and only
    with [ConnectionError]. *)
Lemma parse_fields_malformed (n : nat) (body : bytes) (acc : list bytes) :
  match parse_fields n body acc with
  | Ok (_, rest) => fields_malformed n body = (0 <? length rest)%nat
  | Err e => fields_malformed n body = true /\ exists msg, e = ConnectionError msg
  end.
Proof.
  revert body acc. induction n as [|n IH]; intros body acc; [reflexivity|].
  cbn [parse_fields fields_malformed].
  destruct (length body <? 4)%nat eqn:E4.
  - split; [reflexivity | eexists; reflexivity].
  - cbn [orb]. apply Nat.ltb_ge in E4.
    unfold _read_u32. rewrite unpack_u32_4 by (apply length_firstn4; lia).
    cbn [bind]. rewrite Z.gtb_ltb.
    destruct (Z.of_nat (length body) <? unbe32 (firstn 4 body) + 4) eqn:El.
    + split; [reflexivity | eexists; reflexivity].
    + cbn [orb]. apply IH.
Qed.

Lemma firstn4_hdr (b : bytes) : firstn 4 (firstn 16 b) = firstn 4 b.
Proof. rewrite firstn_firstn. reflexivity. Qed.

Lemma version_hdr (b : bytes) :
  firstn 4 (skipn 4 (firstn 16 b)) = firstn 4 (skipn 4 b).
Proof. rewrite skipn_firstn_comm, firstn_firstn. reflexivity. Qed.

Lemma status_hdr (b : bytes) :
  firstn 4 (skipn 8 (firstn 16 b)) = firstn 4 (skipn 8 b).
Proof. rewrite skipn_firstn_comm, firstn_firstn. reflexivity. Qed.

Lemma argc_hdr (b : bytes) : skipn 12 (firstn 16 b) = firstn 4 (skipn 12 b).
Proof. rewrite skipn_firstn_comm. reflexivity. Qed.

(** Once sixteen bytes are present, the header words unpack and [parse]
    proceeds to its checks. *)
Lemma parse_header (b : bytes) :
  (16 <= length b)%nat ->
    parse b =
    if negb (hdr_length b mod 4 =? 0) then
      Err (ConnectionError
        "Malformed Moira package: the length is not a multiple of four")
    else if negb (hdr_version b =? 2) then
      Err (ConnectionError "Moira protocol version mismatch")
    else
      r <- parse_fields (Z.to_nat (hdr_argc b)) (skipn 16 b) [] ;;
      let (fields, body) := r in
      if (0 <? length body)%nat then
        Err (ConnectionError
          "Moira has sent package with out-of-field information")
      else Ok (mkPacket (hdr_length b) (hdr_status b) fields).
Proof.
  intros Hb.
  assert (Hh : length (firstn 16 b) = 16%nat) by (rewrite length_firstn; lia).
  unfold parse. rewrite Hh. cbn [Nat.eqb negb].
  unfold unpack_i32.
  rewrite firstn4_hdr, version_hdr, status_hdr, argc_hdr.
  rewrite !length_firstn, !length_skipn.
  replace (Nat.min 4 (length b - 8)) with 4%nat by lia.
  rewrite !unpack_u32_4 by (rewrite length_firstn; try rewrite length_skipn; lia).
  reflexivity.
Qed.

(** ** C4 *)

(** A buffer holding the sixteen header bytes fails exactly on the listed
    malformations, and only with [ConnectionError]. *)
Lemma parse_long_buffer_errors (b : bytes) :
  (16 <= length b)%nat ->
  ((exists e, parse b = Err e) <->
     (hdr_length b mod 4 <> 0 \/ hdr_version b <> MOIRA_PROTOCOL_VERSION
      \/ fields_malformed (Z.to_nat (hdr_argc b)) (skipn 16 b) = true))
  /\ (forall e, parse b = Err e -> exists msg, e = ConnectionError msg).
Proof.
  intros Hb. rewrite (parse_header b Hb).
  unfold MOIRA_PROTOCOL_VERSION.
  destruct (hdr_length b mod 4 =? 0) eqn:El; cbn [negb].
  2:{ apply Z.eqb_neq in El. split.
      - split; [eauto | intros _; eexists; reflexivity].
      - intros e [= <-]. eauto. }
  apply Z.eqb_eq in El.
  destruct (hdr_version b =? 2) eqn:Ev; cbn [negb].
  2:{ apply Z.eqb_neq in Ev. split.
      - split; [eauto | intros _; eexists; reflexivity].
      - intros e [= <-]. eauto. }
  apply Z.eqb_eq in Ev.
  pose proof (parse_fields_malformed (Z.to_nat (hdr_argc b)) (skipn 16 b) []) as Hf.
  destruct (parse_fields (Z.to_nat (hdr_argc b)) (skipn 16 b) []) as [[fields rest]|e];
    cbn [bind].
  - rewrite Hf. destruct (0 <? length rest)%nat.
    + split.
      * split; [eauto | intros _; eexists; reflexivity].
      * intros e [= <-]. eauto.
    + split.
      * split; [intros [e He]; discriminate|].
        intros [H|[H|H]]; [lia|lia|discriminate].
      * intros e He; discriminate.
  - destruct Hf as [Hm Hmsg]. split.
    + split; [intros _; right; right; exact Hm | eauto].
    + intros e' [= <-]. exact Hmsg.
Qed.

Lemma parse_short_buffer (b : bytes) :
  (length b < 16)%nat -> parse b = Err StructError.
Proof.
  intros Hb. unfold parse. rewrite length_firstn.
  destruct (Nat.eqb (Nat.min 16 (length b)) 16) eqn:E; [|reflexivity].
  apply Nat.eqb_eq in E. lia.
Qed.

(** C4 (code bug): for every buffer, [parse] behaves as follows.  A buffer
    shorter than the sixteen header bytes fails with [struct.error], which
    does not derive from [BaseError], whatever its header words say.  A
    buffer of at least sixteen bytes fails exactly when the length is not a
    multiple of four, the version is not 2, or, reading the declared fields
    in order, a field's length prefix or its data would read past the
    remaining buffer or bytes remain after the last field; each such
    failure is a [ConnectionError]. *)
Theorem parse_errors_all_buffers (b : bytes) :
  ((length b < 16)%nat -> parse b = Err StructError)
  /\ ((16 <= length b)%nat ->
      ((exists e, parse b = Err e) <->
         (hdr_length b mod 4 <> 0 \/ hdr_version b <> MOIRA_PROTOCOL_VERSION
          \/ fields_malformed (Z.to_nat (hdr_argc b)) (skipn 16 b) = true))
      /\ (forall e, parse b = Err e -> exists msg, e = ConnectionError msg)).
Proof.
  split.
  - apply parse_short_buffer.
  - apply parse_long_buffer_errors.
Qed.

(** Witness for [parse_errors_all_buffers]: a twelve-byte buffer whose
    version word is 3, so the header is malformed, fails with
    [struct.error] rather than a [ConnectionError]. *)
Lemma parse_errors_all_buffers_witness :
  let b := be32 12 ++ be32 3 ++ be32 0 in
  (length b < 16)%nat /\ hdr_version b <> MOIRA_PROTOCOL_VERSION
  /\ parse b = Err StructError
  /\ (forall msg, parse b <> Err (ConnectionError msg)).
Proof.
  intros b. assert (H : (length b < 16)%nat) by (vm_compute; lia).
  assert (Hp : parse b = Err StructError)
    by exact (proj1 (parse_errors_all_buffers b) H).
  split; [exact H|]. split; [vm_compute; discriminate|].
  split; [exact Hp|]. intros msg. rewrite Hp. discriminate.
Defined.

(** ** C10 *)

Lemma skipn_be32_add (n : Z) (k : nat) (y : bytes) :
  skipn (4 + k) (be32 n ++ y) = skipn k y.
Proof. rewrite Nat.add_comm, <- skipn_skipn. reflexivity. Qed.

(** C10: the field length is checked against the remaining bytes before
    padding, so the frame below, whose one field declares length 1 while
    only one byte follows its prefix (the padded length 4 does not fit),
    decodes to the field [a]; its header says 16 bytes while the buffer
    holds 21. And for every buffer of at least sixteen bytes whose length
    word is a multiple of four, replacing that word by any other multiple
    of four in range changes nothing but [raw_len]: the declared length is
    never compared with the size of the buffer. *)
Theorem decode_ignores_padding_and_total_length :
  (let b := be32 16 ++ be32 2 ++ be32 0 ++ be32 1 ++ be32 1 ++ [x61] in
   parse b = Ok (mkPacket 16 0 [[x61]])
   /\ hdr_length b <> Z.of_nat (length b)
   /\ length (skipn 20 b) = 1%nat /\ (1 < round_up4 1)%nat)
  /\ (forall (b : bytes) (L : Z),
        (16 <= length b)%nat -> 0 <= L < 2^32 -> L mod 4 = 0 ->
        hdr_length b mod 4 = 0 ->
        parse (be32 L ++ skipn 4 b)
        = match parse b with
          | Ok p => Ok (mkPacket L (opcode p) (data p))
          | Err e => Err e
          end).
Proof.
  split.
  { refine (conj _ (conj _ (conj _ _)));
      [vm_compute; reflexivity | vm_compute; intros H; discriminate H
      | reflexivity | vm_compute; lia]. }
  intros b L Hb HL HL4 Hb4.
  assert (Hb' : (16 <= length (be32 L ++ skipn 4 b))%nat)
    by (rewrite length_app, length_be32, length_skipn; lia).
  rewrite (parse_header _ Hb'), (parse_header _ Hb).
  assert (Hl : hdr_length (be32 L ++ skipn 4 b) = L)
    by (unfold hdr_length; rewrite firstn_be32; apply unbe32_be32; exact HL).
  assert (Hs : forall k, skipn (4 + k) (be32 L ++ skipn 4 b) = skipn (4 + k) b).
  { intros k. rewrite skipn_be32_add, skipn_skipn. f_equal. lia. }
  assert (Hv : hdr_version (be32 L ++ skipn 4 b) = hdr_version b)
    by (unfold hdr_version; rewrite skipn_be32; reflexivity).
  assert (Hst : hdr_status (be32 L ++ skipn 4 b) = hdr_status b)
    by (unfold hdr_status; rewrite (Hs 4%nat : skipn 8 _ = skipn 8 b); reflexivity).
  assert (Ha : hdr_argc (be32 L ++ skipn 4 b) = hdr_argc b)
    by (unfold hdr_argc; rewrite (Hs 8%nat : skipn 12 _ = skipn 12 b); reflexivity).
  rewrite Hl, Hv, Hst, Ha, (Hs 12%nat : skipn 16 _ = skipn 16 b), HL4, Hb4. cbn [Z.eqb negb].
  destruct (hdr_version b =? 2); cbn [negb]; [|reflexivity].
  destruct (parse_fields (Z.to_nat (hdr_argc b)) (skipn 16 b) []) as [[f r]|e];
    cbn [bind]; [|reflexivity].
  destruct (0 <? length r)%nat; reflexivity.
Qed.

(** Witness for [decode_ignores_padding_and_total_length]: the frame with
    one empty field re-labelled with length 1024. *)
Lemma decode_ignores_padding_and_total_length_witness :
  let b := be32 20 ++ be32 2 ++ be32 7 ++ be32 1 ++ be32 0 in
  parse (be32 1024 ++ skipn 4 b) = Ok (mkPacket 1024 7 [[]]).
Proof.
  intros b.
  rewrite (proj2 decode_ignores_padding_and_total_length b 1024);
    [ vm_compute; reflexivity | vm_compute; lia | lia | reflexivity | reflexivity ].
Defined.

(** ** C9 *)

Lemma str_in_spec (x : string) (l : list string) : str_in x l = true <-> In x l.
Proof.
  unfold str_in. rewrite existsb_exists. split.
  - intros [y [Hy E]]. apply String.eqb_eq in E. subst. exact Hy.
  - intros Hx. exists x. split; [exact Hx | apply String.eqb_refl].
Qed.

(** C9: [ListMember(client, mtype, name)] succeeds exactly for the six type
    tokens USER, KERBEROS, LIST, STRING, MACHINE and NONE, keeping the
    token and the name; for any other token it raises [UserError]. *)
Theorem ListMember_init_types (mtype_ name : string) :
  ((exists m, ListMember_init mtype_ name = Ok m) <->
     In mtype_ ["USER"; "KERBEROS"; "LIST"; "STRING"; "MACHINE"; "NONE"]%string)
  /\ (forall e, ListMember_init mtype_ name = Err e -> exists msg, e = UserError msg)
  /\ (forall m, ListMember_init mtype_ name = Ok m -> m = mkMember mtype_ name).
Proof.
  unfold ListMember_init.
  destruct (str_in mtype_ ListMember_types) eqn:E; cbn [negb].
  - apply str_in_spec in E.
    assert (Hu : py_upper mtype_ = mtype_)
      by (unfold ListMember_types in E; simpl in E;
          repeat (destruct E as [<-|E]; [reflexivity|]); destruct E).
    rewrite Hu. split; [|split].
    + split; [intros _; exact E | eauto].
    + intros e He; discriminate.
    + intros m [= <-]. reflexivity.
  - split; [|split].
    + split; [intros [m Hm]; discriminate|].
      intros Hin. apply str_in_spec in Hin. change ListMember_types with
        ["USER"; "KERBEROS"; "LIST"; "STRING"; "MACHINE"; "NONE"]%string in E.
      rewrite Hin in E. discriminate.
    + intros e [= <-]. eauto.
    + intros m Hm; discriminate.
Qed.

(** The older [MoiraListMember] of the top-level [lists.py] does not list
    [NONE] and rejects it. *)
Lemma MoiraListMember_rejects_NONE (name : string) :
  MoiraListMember_init "NONE" name
  = Err (UserError "Invalid list member type specified: NONE").
Proof. reflexivity. Qed.

(** ** Sets, frozensets and dictionaries *)

Lemma member_eqb_spec (a b : list_member) : member_eqb a b = true <-> a = b.
Proof.
  destruct a as [t1 n1], b as [t2 n2]. unfold member_eqb; cbn.
  rewrite andb_true_iff, !String.eqb_eq. split.
  - intros [-> ->]. reflexivity.
  - intros [= -> ->]. auto.
Qed.

Lemma mem_member_spec (m : list_member) (l : list list_member) :
  mem_member m l = true <-> In m l.
Proof.
  induction l as [|x l IH]; cbn; [split; [discriminate|tauto]|].
  rewrite orb_true_iff, member_eqb_spec, IH. split; intros [H|H]; auto.
Qed.

Lemma frozenset_acc_spec (seen l : list list_member) :
  NoDup seen ->
  NoDup (frozenset_acc seen l)
  /\ (forall m, In m (frozenset_acc seen l) <-> In m seen \/ In m l).
Proof.
  revert seen. induction l as [|x l IH]; intros seen Hs; cbn.
  - split; [apply NoDup_rev; exact Hs|]. intros m. rewrite <- in_rev. tauto.
  - destruct (mem_member x seen) eqn:E.
    + apply mem_member_spec in E. destruct (IH seen Hs) as [Hn Hi].
      split; [exact Hn|]. intros m. rewrite Hi. split; [tauto|].
      intros [H|[<-|H]]; auto.
    + assert (Hx : ~ In x seen) by (rewrite <- mem_member_spec, E; discriminate).
      destruct (IH (x :: seen) (NoDup_cons _ Hx Hs)) as [Hn Hi].
      split; [exact Hn|]. intros m. rewrite Hi. cbn. tauto.
Qed.

Lemma frozenset_NoDup (l : list list_member) : NoDup (frozenset l).
Proof. apply (frozenset_acc_spec [] l (NoDup_nil _)). Qed.

Lemma frozenset_In (l : list list_member) (m : list_member) :
  In m (frozenset l) <-> In m l.
Proof.
  rewrite (proj2 (frozenset_acc_spec [] l (NoDup_nil _))). cbn. tauto.
Qed.

Lemma member_union_In (a b : list list_member) (m : list_member) :
  In m (member_union a b) <-> In m a \/ In m b.
Proof.
  unfold member_union. rewrite in_app_iff, frozenset_In, filter_In.
  split; [intros [H|[H _]]; auto|].
  intros [H|H]; [auto|]. destruct (mem_member m a) eqn:E.
  - left. apply mem_member_spec. exact E.
  - right. split; [exact H | reflexivity].
Qed.

Lemma str_dedup_acc_spec (seen l : list string) :
  NoDup seen ->
  NoDup (str_dedup_acc seen l)
  /\ (forall x, In x (str_dedup_acc seen l) <-> In x seen \/ In x l).
Proof.
  revert seen. induction l as [|y l IH]; intros seen Hs; cbn.
  - split; [apply NoDup_rev; exact Hs|]. intros x. rewrite <- in_rev. tauto.
  - destruct (str_in y seen) eqn:E.
    + apply str_in_spec in E. destruct (IH seen Hs) as [Hn Hi].
      split; [exact Hn|]. intros x. rewrite Hi. split; [tauto|].
      intros [H|[<-|H]]; auto.
    + assert (Hy : ~ In y seen) by (rewrite <- str_in_spec, E; discriminate).
      destruct (IH (y :: seen) (NoDup_cons _ Hy Hs)) as [Hn Hi].
      split; [exact Hn|]. intros x. rewrite Hi. cbn. tauto.
Qed.

Lemma str_dedup_NoDup (l : list string) : NoDup (str_dedup l).
Proof. apply (str_dedup_acc_spec [] l (NoDup_nil _)). Qed.

Lemma str_dedup_In (l : list string) (x : string) : In x (str_dedup l) <-> In x l.
Proof.
  rewrite (proj2 (str_dedup_acc_spec [] l (NoDup_nil _))). cbn. tauto.
Qed.

Lemma str_add_In (x y : string) (s : list string) :
  In x (str_add y s) <-> x = y \/ In x s.
Proof.
  unfold str_add. destruct (str_in y s) eqn:E.
  - apply str_in_spec in E. split; [auto|]. intros [->|H]; auto.
  - rewrite in_app_iff. cbn. split; intros [H|H]; intuition.
Qed.

Lemma dict_get_set {V} (k k' : string) (v : V) (d : dict V) :
  dict_get k (dict_set k' v d) = if String.eqb k k' then Some v else dict_get k d.
Proof.
  induction d as [|[k0 v0] d IH]; cbn.
  - destruct (String.eqb k k'); reflexivity.
  - destruct (String.eqb k' k0) eqn:E0; cbn.
    + apply String.eqb_eq in E0. subst k0. destruct (String.eqb k k'); reflexivity.
    + rewrite IH. destruct (String.eqb k k') eqn:E; [|reflexivity].
      apply String.eqb_eq in E. subst k. rewrite E0. reflexivity.
Qed.

Lemma dict_keys_set {V} (k : string) (v : V) (d : dict V) (x : string) :
  In x (dict_keys (dict_set k v d)) <-> x = k \/ In x (dict_keys d).
Proof.
  induction d as [|[k0 v0] d IH]; cbn; [intuition congruence|].
  destruct (String.eqb k k0) eqn:E; cbn.
  - apply String.eqb_eq in E. subst. intuition congruence.
  - rewrite IH. intuition congruence.
Qed.

Lemma dict_keys_set_new {V} (k : string) (v : V) (d : dict V) :
  ~ In k (dict_keys d) -> dict_keys (dict_set k v d) = dict_keys d ++ [k].
Proof.
  unfold dict_keys. induction d as [|[k0 v0] d IH]; cbn; [reflexivity|].
  intros Hk. destruct (String.eqb k k0) eqn:E.
  - apply String.eqb_eq in E. subst. tauto.
  - cbn. rewrite IH by tauto. reflexivity.
Qed.

Lemma dict_get_keys {V} (k : string) (d : dict V) :
  In k (dict_keys d) <-> exists v, dict_get k d = Some v.
Proof.
  induction d as [|[k0 v0] d IH]; cbn.
  - split; [tauto|]. intros [v Hv]; discriminate.
  - destruct (String.eqb k k0) eqn:E.
    + apply String.eqb_eq in E. subst. split; eauto.
    + rewrite <- IH. apply String.eqb_neq in E. split; [intros [H|H]; [congruence|exact H]|auto].
Qed.

Lemma dict_get_In {V} (k : string) (v : V) (d : dict V) :
  dict_get k d = Some v -> In (k, v) d.
Proof.
  induction d as [|[k0 v0] d IH]; cbn; [discriminate|].
  destruct (String.eqb k k0) eqn:E.
  - apply String.eqb_eq in E. intros [= <-]. subst. auto.
  - auto.
Qed.

Lemma dict_In_get {V} (k : string) (v : V) (d : dict V) :
  NoDup (dict_keys d) -> In (k, v) d -> dict_get k d = Some v.
Proof.
  induction d as [|[k0 v0] d IH]; cbn; [tauto|].
  intros Hn Hin. inversion Hn as [|? ? Hk0 Hn']; subst.
  destruct (String.eqb k k0) eqn:E.
  - apply String.eqb_eq in E. subst. destruct Hin as [[= <-]|Hin]; [reflexivity|].
    exfalso. apply Hk0. apply (in_map fst) in Hin. exact Hin.
  - apply String.eqb_neq in E. destruct Hin as [[= -> _]|Hin]; [congruence|].
    auto.
Qed.

Lemma NoDup_snoc {A} (l : list A) (x : A) : NoDup l -> ~ In x l -> NoDup (l ++ [x]).
Proof.
  intros Hl Hx. apply NoDup_app; [exact Hl | repeat constructor; tauto |].
  intros a Ha [<-|[]]. contradiction.
Qed.

(** ** The expansion invariant *)

Section ExpansionProofs.
Context `{MoiraConstants}.
Variable srv : string -> result (list list_member).
Variable set_order : list string -> list string.
Variable root : string.

Local Abbreviation G_closed := (G_closed srv).
Local Abbreviation exp_inv := (exp_inv srv root).
Local Abbreviation Build_exp_inv := (Build_exp_inv srv root).


Lemma expand_sublists_cons (n : string) (rest : list string) (st : expansion)
    (log : list string) :
  expand_sublists srv (n :: rest) st log =
  match srv n with
  | Ok ms =>
      expand_sublists srv rest
        (mkExpansion (member_union (members st) (frozenset ms)) (denied st)
                     (dict_set n (Some (frozenset ms)) (known st))) (log ++ [n])
  | Err (MoiraError c) =>
      if c =? MR_PERM then
        expand_sublists srv rest
          (mkExpansion (members st) (str_add n (denied st)) (dict_set n None (known st)))
          (log ++ [n])
      else (Err (MoiraError c), log ++ [n])
  | Err e => (Err e, log ++ [n])
  end.
Proof.
  cbn. unfold lbind, ltry, getExplicitMembers.
  destruct (srv n) as [ms|[]]; cbn [bind]; try reflexivity.
  destruct (_ =? MR_PERM); reflexivity.
Qed.

Lemma new_name_within (st : expansion) (log : list string) (n : string) (G : list string) :
  exp_inv st log -> In root G -> G_closed G ->
  In (mkMember ListMember_List n) (members st) -> In n G.
Proof.
  intros Hi HG HGc Hn. apply (inv_members _ _ _ _ Hi) in Hn. destruct Hn as [k [ms [Hg Hm]]].
  assert (Hk : In k log) by (apply (inv_keys _ _ _ _ Hi), dict_get_keys; eauto).
  destruct (inv_known _ _ _ _ Hi k Hk) as [[ms0 [Hs Hg']]|[_ [_ Hg']]]; rewrite Hg in Hg';
    [|discriminate].
  injection Hg' as ->. rewrite frozenset_In in Hm.
  apply (HGc k ms0 _ (inv_within _ _ _ _ Hi G HG HGc k Hk) Hs Hm). reflexivity.
Qed.

Lemma exp_inv_ok (st : expansion) (log : list string) (n : string) (ms : list list_member) :
  exp_inv st log -> ~ In n log -> In (mkMember ListMember_List n) (members st) ->
  srv n = Ok ms ->
  exp_inv (mkExpansion (member_union (members st) (frozenset ms)) (denied st)
                       (dict_set n (Some (frozenset ms)) (known st))) (log ++ [n]).
Proof.
  intros Hi Hn Hl Hs. destruct Hi as [I1 I2 I3 I4 I5 I6 I7 I8 I9].
  assert (Hk : ~ In n (dict_keys (known st))) by (rewrite I3; exact Hn).
  constructor; cbn [members denied known].
  - apply NoDup_snoc; assumption.
  - rewrite dict_keys_set_new by exact Hk. apply NoDup_snoc; assumption.
  - intros x. rewrite dict_keys_set, I3, in_app_iff. cbn. intuition congruence.
  - intros x Hx. rewrite dict_get_set. apply in_app_iff in Hx.
    destruct (String.eqb x n) eqn:E.
    + apply String.eqb_eq in E. subst x. left. eauto.
    + destruct Hx as [Hx|[<-|[]]]; [|rewrite String.eqb_refl in E; discriminate].
      exact (I4 x Hx).
  - intros x. rewrite I5, in_app_iff. cbn. split; [tauto|].
    intros [[Hx|[<-|[]]] Hr]; [tauto|]. rewrite Hs in Hr. destruct Hr as [_ Hr]; discriminate.
  - intros m. rewrite member_union_In, I6. split.
    + intros [[k [ms' [Hg Hm]]]|Hm].
      * exists k, ms'. rewrite dict_get_set. destruct (String.eqb k n) eqn:E; [|auto].
        apply String.eqb_eq in E. subst k.
        exfalso. apply Hk. apply dict_get_keys. eauto.
      * exists n, (frozenset ms). rewrite dict_get_set, String.eqb_refl. auto.
    + intros [k [ms' [Hg Hm]]]. rewrite dict_get_set in Hg.
      destruct (String.eqb k n); [injection Hg as <-; right; exact Hm|].
      left. eauto.
  - intros x Hx. apply in_app_iff in Hx. rewrite member_union_In.
    destruct Hx as [Hx|[<-|[]]]; [|auto].
    destruct (I7 x Hx); auto.
  - apply in_app_iff. auto.
  - intros G HG HGc x Hx. apply in_app_iff in Hx. destruct Hx as [Hx|[<-|[]]].
    + exact (I9 G HG HGc x Hx).
    + apply (new_name_within st log n G (Build_exp_inv st log I1 I2 I3 I4 I5 I6 I7 I8 I9) HG HGc Hl).
Qed.

Lemma exp_inv_perm (st : expansion) (log : list string) (n : string) :
  exp_inv st log -> ~ In n log -> In (mkMember ListMember_List n) (members st) ->
  srv n = Err (MoiraError MR_PERM) ->
  exp_inv (mkExpansion (members st) (str_add n (denied st)) (dict_set n None (known st)))
          (log ++ [n]).
Proof.
  intros Hi Hn Hl Hs. destruct Hi as [I1 I2 I3 I4 I5 I6 I7 I8 I9].
  assert (Hk : ~ In n (dict_keys (known st))) by (rewrite I3; exact Hn).
  assert (Hnr : n <> root) by (intros ->; contradiction).
  constructor; cbn [members denied known].
  - apply NoDup_snoc; assumption.
  - rewrite dict_keys_set_new by exact Hk. apply NoDup_snoc; assumption.
  - intros x. rewrite dict_keys_set, I3, in_app_iff. cbn. intuition congruence.
  - intros x Hx. rewrite dict_get_set. apply in_app_iff in Hx.
    destruct (String.eqb x n) eqn:E.
    + apply String.eqb_eq in E. subst x. right. auto.
    + destruct Hx as [Hx|[<-|[]]]; [|rewrite String.eqb_refl in E; discriminate].
      exact (I4 x Hx).
  - intros x. rewrite str_add_In, I5, in_app_iff. cbn. split.
    + intros [->|H']; [auto|tauto].
    + intros [[Hx|[<-|[]]] Hr]; auto.
  - intros m. rewrite I6. split.
    + intros [k [ms' [Hg Hm]]]. exists k, ms'. rewrite dict_get_set.
      destruct (String.eqb k n) eqn:E; [|auto].
      apply String.eqb_eq in E. subst k. exfalso. apply Hk. apply dict_get_keys. eauto.
    + intros [k [ms' [Hg Hm]]]. rewrite dict_get_set in Hg.
      destruct (String.eqb k n); [discriminate|]. eauto.
  - intros x Hx. apply in_app_iff in Hx.
    destruct Hx as [Hx|[<-|[]]]; [exact (I7 x Hx)|auto].
  - apply in_app_iff. auto.
  - intros G HG HGc x Hx. apply in_app_iff in Hx. destruct Hx as [Hx|[<-|[]]].
    + exact (I9 G HG HGc x Hx).
    + apply (new_name_within st log n G (Build_exp_inv st log I1 I2 I3 I4 I5 I6 I7 I8 I9) HG HGc Hl).
Qed.

(** One pass of the [for] loop over names not queried before. *)
Lemma expand_sublists_inv (names : list string) (st : expansion) (log : list string) :
  exp_inv st log -> NoDup names -> (forall n, In n names -> ~ In n log) ->
  (forall n, In n names -> In (mkMember ListMember_List n) (members st)) ->
  match expand_sublists srv names st log with
  | (Ok st', log') => log' = log ++ names /\ exp_inv st' log'
                      /\ incl (members st) (members st')
  | (Err e, log') => NoDup log'
      /\ exists n, In n log' /\ srv n = Err e /\ e <> MoiraError MR_PERM
  end.
Proof.
  revert st log. induction names as [|n rest IH]; intros st log Hi Hnd Hfresh Hlist.
  - cbn. rewrite app_nil_r. split; [reflexivity|]. split; [exact Hi|]. intros m Hm; exact Hm.
  - rewrite expand_sublists_cons. inversion Hnd as [|? ? Hn Hnd']; subst.
    assert (Hfn : ~ In n log) by (apply Hfresh; left; reflexivity).
    assert (Hln : In (mkMember ListMember_List n) (members st)) by (apply Hlist; left; reflexivity).
    assert (Hsnoc : NoDup (log ++ [n])) by (apply NoDup_snoc; [apply (inv_log_nodup _ _ _ _ Hi)|exact Hfn]).
    assert (Hfresh' : forall x, In x rest -> ~ In x (log ++ [n])).
    { intros x Hx Hx'. apply in_app_iff in Hx'. destruct Hx' as [Hx'|[<-|[]]].
      - exact (Hfresh x (or_intror Hx) Hx').
      - contradiction. }
    destruct (srv n) as [ms|e] eqn:Hs.
    + pose proof (exp_inv_ok st log n ms Hi Hfn Hln Hs) as Hi'.
      assert (Hlist' : forall x, In x rest -> In (mkMember ListMember_List x)
                (members (mkExpansion (member_union (members st) (frozenset ms)) (denied st)
                   (dict_set n (Some (frozenset ms)) (known st))))).
      { intros x Hx. cbn [members]. apply member_union_In. left. apply Hlist. right. exact Hx. }
      specialize (IH _ _ Hi' Hnd' Hfresh' Hlist').
      destruct (expand_sublists srv rest _ _) as [[st'|e] log'].
      * destruct IH as [-> [Hi'' Hinc]]. split; [rewrite <- app_assoc; reflexivity|].
        split; [exact Hi''|]. intros m Hm. apply Hinc. cbn. apply member_union_In. auto.
      * exact IH.
    + destruct e as [msg|c|msg| | |msg|];
        try (split; [exact Hsnoc|exists n; split; [apply in_app_iff; right; left; reflexivity|];
             split; [exact Hs | discriminate]]).
      destruct (c =? MR_PERM) eqn:Ec.
      * apply Z.eqb_eq in Ec. subst c.
        pose proof (exp_inv_perm st log n Hi Hfn Hln Hs) as Hi'.
        assert (Hlist' : forall x, In x rest -> In (mkMember ListMember_List x)
                  (members (mkExpansion (members st) (str_add n (denied st))
                     (dict_set n None (known st))))).
        { intros x Hx. apply Hlist. right. exact Hx. }
        specialize (IH _ _ Hi' Hnd' Hfresh' Hlist').
        destruct (expand_sublists srv rest _ _) as [[st'|e] log'].
        -- destruct IH as [-> [Hi'' Hinc]]. split; [rewrite <- app_assoc; reflexivity|].
           split; [exact Hi''|]. intros m Hm. apply Hinc. exact Hm.
        -- exact IH.
      * split; [exact Hsnoc|]. exists n. split; [apply in_app_iff; right; left; reflexivity|].
        split; [exact Hs|]. intros [= Hc]. subst c. rewrite Z.eqb_refl in Ec. discriminate.
Qed.


Hypothesis set_order_perm : forall l, Permutation (set_order l) l.

Lemma is_list_member (m : list_member) :
  is_list m = true -> m = mkMember ListMember_List (mname m).
Proof.
  destruct m as [t n]. unfold is_list; cbn. intros E. apply String.eqb_eq in E. subst. reflexivity.
Qed.

(** The names a round expands: the [LIST] members not queried yet, each
    once. *)
Lemma to_expand_spec (st : expansion) (log : list string) :
  exp_inv st log ->
  NoDup (to_expand_of set_order (members st) (known st))
  /\ (forall n, In n (to_expand_of set_order (members st) (known st))
                <-> In (mkMember ListMember_List n) (members st) /\ ~ In n log).
Proof.
  intros Hi. unfold to_expand_of. split.
  - eapply Permutation_NoDup; [apply Permutation_sym, set_order_perm|].
    apply NoDup_filter, str_dedup_NoDup.
  - intros n. split.
    + intros Hn. apply (Permutation_in _ (set_order_perm _)) in Hn.
      apply filter_In in Hn. destruct Hn as [Hn Hk].
      rewrite str_dedup_In, in_map_iff in Hn. destruct Hn as [m [<- Hm]].
      apply filter_In in Hm. destruct Hm as [Hm Hl].
      rewrite <- (is_list_member m Hl). split; [exact Hm|].
      rewrite <- (inv_keys _ _ _ _ Hi), <- str_in_spec. destruct (str_in _ _); [discriminate|auto].
    + intros [Hm Hn]. apply (Permutation_in _ (Permutation_sym (set_order_perm _))).
      apply filter_In. split.
      * apply str_dedup_In, in_map_iff. exists (mkMember ListMember_List n).
        split; [reflexivity|]. apply filter_In. split; [exact Hm | apply String.eqb_refl].
      * rewrite <- (inv_keys _ _ _ _ Hi), <- str_in_spec in Hn.
        destruct (str_in _ _); [tauto|reflexivity].
Qed.

(** The [while] loop: it keeps the invariant and stops when no [LIST]
    member is left unqueried; it fails with the depth error only after
    more than [MOIRA_MAX_LIST_DEPTH] distinct names were queried, and
    otherwise only with an error a query returned. *)
Lemma while_to_expand_inv (f : nat) (d : Z) (st : expansion) (log : list string) :
  exp_inv st log -> Z.of_nat f + d = MOIRA_MAX_LIST_DEPTH + 1 -> 0 <= d ->
  d + 1 <= Z.of_nat (length log) ->
  match while_to_expand srv set_order f d st log with
  | (Ok st', log') => exp_inv st' log'
      /\ to_expand_of set_order (members st') (known st') = []
  | (Err e, log') => NoDup log'
      /\ ((e = depth_error /\ (Z.to_nat MOIRA_MAX_LIST_DEPTH < length log')%nat
           /\ exists st', exp_inv st' log')
          \/ (exists n, In n log' /\ srv n = Err e /\ e <> MoiraError MR_PERM))
  end.
Proof.
  unfold MOIRA_MAX_LIST_DEPTH.
  revert d st log. induction f as [|f IH]; intros d st log Hi Hf Hd Hl.
  - cbn. split; [exact (inv_log_nodup _ _ _ _ Hi)|]. left. split; [reflexivity|].
    split; [lia | eauto].
  - cbn [while_to_expand]. unfold MOIRA_MAX_LIST_DEPTH.
    destruct (d + 1 >? 3072) eqn:Ed.
    + cbn. split; [exact (inv_log_nodup _ _ _ _ Hi)|]. left. split; [reflexivity|].
      rewrite Z.gtb_ltb, Z.ltb_lt in Ed. split; [lia | eauto].
    + rewrite Z.gtb_ltb, Z.ltb_ge in Ed. cbv zeta. unfold lbind.
      destruct (to_expand_spec st log Hi) as [Hnd Hte].
      pose proof (expand_sublists_inv (to_expand_of set_order (members st) (known st)) st log Hi Hnd
                    (fun n Hn => proj2 (proj1 (Hte n) Hn))
                    (fun n Hn => proj1 (proj1 (Hte n) Hn))) as Hx.
      destruct (to_expand_of set_order (members st) (known st)) as [|n rest] eqn:Et.
      * cbn. split; [exact Hi | exact Et].
      * destruct (expand_sublists srv (n :: rest) st log) as [[st'|e] log'].
        -- destruct Hx as [-> [Hi' _]]. apply IH; [exact Hi' | lia | lia |].
           rewrite length_app. cbn [length]. lia.
        -- destruct Hx as [Hn' Hx]. split; [exact Hn'|]. right. exact Hx.
Qed.


Lemma exp_inv_start (ms : list list_member) :
  srv root = Ok ms ->
  exp_inv (mkExpansion (frozenset ms) [] (dict_set root (Some (frozenset ms)) [])) [root].
Proof.
  intros Hs. constructor; cbn [members denied known dict_set].
  - repeat constructor. tauto.
  - repeat constructor. tauto.
  - intros n. reflexivity.
  - intros n [<-|[]]. left. exists ms. split; [exact Hs|]. cbn. rewrite String.eqb_refl. reflexivity.
  - intros n. split; [intros []|]. intros [[<-|[]] [Hr _]]. congruence.
  - intros m. split.
    + intros Hm. exists root, (frozenset ms). cbn. rewrite String.eqb_refl. auto.
    + intros [k [ms' [Hg Hm]]]. cbn in Hg. destruct (String.eqb k root); [|discriminate].
      injection Hg as <-. exact Hm.
  - intros n [<-|[]]. auto.
  - left. reflexivity.
  - intros G HG _ n [<-|[]]. exact HG.
Qed.

(** The whole client-side expansion from a fresh query log. *)
Lemma getAllMembers_inv (include_lists : bool) :
  match getAllMembers srv set_order root include_lists [] with
  | (Ok (mem, den, kn), log) =>
      exists st, exp_inv st log /\ to_expand_of set_order (members st) (known st) = []
        /\ den = denied st /\ kn = known st
        /\ mem = (if include_lists then members st
                  else filter (fun m => negb (is_list m)) (members st))
  | (Err e, log) => NoDup log
      /\ ((e = depth_error /\ (Z.to_nat MOIRA_MAX_LIST_DEPTH < length log)%nat
           /\ exists st, exp_inv st log)
          \/ (exists n, In n log /\ srv n = Err e /\ (n = root \/ e <> MoiraError MR_PERM)))
  end.
Proof.
  unfold getAllMembers, lbind at 1, getExplicitMembers. cbn [app].
  destruct (srv root) as [ms|e] eqn:Hs; cbn [bind].
  - pose proof (while_to_expand_inv (S (Z.to_nat MOIRA_MAX_LIST_DEPTH)) 0 _ [root]
                  (exp_inv_start ms Hs)) as Hw.
    unfold lbind.
    destruct (while_to_expand srv set_order (S (Z.to_nat MOIRA_MAX_LIST_DEPTH)) 0 _ [root])
      as [[st|e] log].
    + destruct Hw as [Hi Hc]; [unfold MOIRA_MAX_LIST_DEPTH; lia | lia | cbn; lia |].
      cbn. exists st. split; [exact Hi|]. split; [exact Hc|]. auto.
    + destruct Hw as [Hn [Hd|[n [Hn' [Hs' He]]]]];
        [unfold MOIRA_MAX_LIST_DEPTH; lia | lia | cbn; lia | | ].
      * split; [exact Hn | left; exact Hd].
      * split; [exact Hn|]. right. eauto.
  - split; [repeat constructor; tauto|]. right. exists root. split; [left; reflexivity|]. auto.
Qed.

End ExpansionProofs.

Lemma string_length_append (s t : string) :
  String.length (String.append s t) = (String.length s + String.length t)%nat.
Proof. induction s as [|c s IH]; cbn; [reflexivity | rewrite IH; reflexivity]. Qed.

Lemma longest_name (l : list string) :
  l <> [] -> exists x, In x l /\ forall y, In y l -> (String.length y <= String.length x)%nat.
Proof.
  induction l as [|a l IH]; [congruence|]. intros _.
  destruct l as [|b l].
  - exists a. split; [left; reflexivity|]. intros y [<-|[]]. lia.
  - destruct IH as [x [Hx Hmax]]; [discriminate|].
    destruct (Nat.le_gt_cases (String.length a) (String.length x)).
    + exists x. split; [right; exact Hx|]. intros y [<-|Hy]; [lia|auto].
    + exists a. split; [left; reflexivity|]. intros y [<-|Hy]; [lia|].
      specialize (Hmax y Hy). lia.
Qed.

(** In the unbounded chain every round has a name to expand: the longest
    queried name's child is longer than every queried name. *)
Lemma chain_to_expand_nonempty `{MoiraConstants} (set_order : list string -> list string)
    (root : string) (st : expansion) (log : list string) :
  (forall l, Permutation (set_order l) l) ->
  exp_inv chain_srv root st log -> to_expand_of set_order (members st) (known st) <> [].
Proof.
  intros Hperm Hi Hnil.
  destruct (longest_name log) as [x [Hx Hmax]].
  { intros ->. exact (inv_root _ _ _ _ Hi). }
  destruct (to_expand_spec chain_srv set_order root Hperm st log Hi) as [_ Hte].
  assert (Hin : In (String.append x "a") (to_expand_of set_order (members st) (known st))).
  { apply Hte. split.
    - apply (inv_members _ _ _ _ Hi). exists x, (frozenset [list_ref (String.append x "a")]).
      destruct (inv_known _ _ _ _ Hi x Hx) as [[ms [Hs Hg]]|[_ [Hs _]]];
        [|discriminate].
      injection Hs as <-. split; [exact Hg|]. apply frozenset_In. left. reflexivity.
    - intros Hy. specialize (Hmax _ Hy). rewrite string_length_append in Hmax. cbn in Hmax. lia. }
  rewrite Hnil in Hin. destruct Hin.
Qed.

(** ** C6 *)

(** C6: during the client-side expansion (from a fresh start, for any
    iteration order of Python sets) no list is queried twice; on success,
    [denied] holds exactly the nested lists whose query was refused with
    [MR_PERM], each recorded in [known] as [None], every other queried
    list is recorded with its members, and every [LIST] member of every
    readable list was queried, so the refusal stopped nothing else; on
    failure the error is the depth error or exactly the error one query
    returned, which is not a refusal of a nested list. *)
Theorem getAllMembers_permission_denied `{MoiraConstants}
    (srv : string -> result (list list_member))
    (set_order : list string -> list string) (root : string) (include_lists : bool) :
  (forall l, Permutation (set_order l) l) ->
  let '(r, log) := getAllMembers srv set_order root include_lists [] in
  NoDup log
  /\ (forall mem den kn, r = Ok (mem, den, kn) ->
        (forall n, In n den <-> In n log /\ n <> root /\ srv n = Err (MoiraError MR_PERM))
        /\ (forall n, In n log ->
              (exists ms, srv n = Ok ms /\ dict_get n kn = Some (Some (frozenset ms)))
              \/ (n <> root /\ srv n = Err (MoiraError MR_PERM) /\ dict_get n kn = Some None))
        /\ (forall k ms m, dict_get k kn = Some (Some ms) -> In m ms -> is_list m = true ->
              In (mname m) log))
  /\ (forall e, r = Err e ->
        e = depth_error
        \/ exists n, In n log /\ srv n = Err e /\ (n = root \/ e <> MoiraError MR_PERM)).
Proof.
  intros Hperm.
  pose proof (getAllMembers_inv srv set_order root Hperm include_lists) as Hg.
  destruct (getAllMembers srv set_order root include_lists []) as [[[[mem den] kn]|e] log].
  - destruct Hg as [st [Hi [Hc [-> [-> _]]]]].
    split; [exact (inv_log_nodup _ _ _ _ Hi)|]. split.
    + intros mem' den' kn' [= <- <- <-]. split; [exact (inv_denied _ _ _ _ Hi)|].
      split; [exact (inv_known _ _ _ _ Hi)|].
      intros k ms m Hk Hm Hl. rewrite (is_list_member m Hl) in Hm.
      destruct (in_dec String.string_dec (mname m) log) as [Hin|Hout]; [exact Hin|].
      exfalso. destruct (to_expand_spec srv set_order root Hperm st log Hi) as [_ Hte].
      assert (Hx : In (mname m) (to_expand_of set_order (members st) (known st))).
      { apply Hte. split; [|exact Hout]. apply (inv_members _ _ _ _ Hi). eauto. }
      rewrite Hc in Hx. destruct Hx.
    + intros e' He'. discriminate.
  - destruct Hg as [Hn Hg]. split; [exact Hn|]. split.
    + intros mem den kn He'. discriminate.
    + intros e' [= <-]. destruct Hg as [[Hd _]|Hg]; [left; exact Hd|right; exact Hg].
Qed.

(** Witness for [getAllMembers_permission_denied]: the cyclic graph with
    the unreadable list [X] under the sample constants ([MR_PERM = 3]). *)
Lemma getAllMembers_permission_denied_witness :
  getAllMembers cycle_srv (fun l => l) "A" false []
  = (Ok ([mkMember ListMember_User "u"], ["X"%string],
         [("A"%string, Some [list_ref "B"; mkMember ListMember_User "u"]);
          ("B", Some [list_ref "A"; list_ref "X"]); ("X", None)]%string),
      ["A"; "B"; "X"]%string)
  /\ (let '(r, log) := getAllMembers cycle_srv (fun l => l) "A" false [] in
      NoDup log
      /\ (forall mem den kn, r = Ok (mem, den, kn) ->
            (forall n, In n den <-> In n log /\ n <> "A"%string /\ cycle_srv n = Err (MoiraError MR_PERM))
            /\ (forall n, In n log ->
                  (exists ms, cycle_srv n = Ok ms /\ dict_get n kn = Some (Some (frozenset ms)))
                  \/ (n <> "A"%string /\ cycle_srv n = Err (MoiraError MR_PERM) /\ dict_get n kn = Some None))
            /\ (forall k ms m, dict_get k kn = Some (Some ms) -> In m ms -> is_list m = true ->
                  In (mname m) log))
      /\ (forall e, r = Err e ->
            e = depth_error
            \/ exists n, In n log /\ cycle_srv n = Err e /\ (n = "A"%string \/ e <> MoiraError MR_PERM))).
Proof.
  split; [vm_compute; reflexivity|].
  apply (getAllMembers_permission_denied cycle_srv (fun l => l) "A" false).
  intros l. apply Permutation_refl.
Defined.

(** ** C7 *)

(** C7: the client-side expansion stops by running out of new names: when
    the lists it can reach are among at most [MOIRA_MAX_LIST_DEPTH] names
    (cycles allowed), it never fails with the depth error (it only
    queries new names, each at most once); and when every list contains a
    further new list, so that new names never run out, it fails with the
    depth error [UserError] instead of going on. *)
Theorem getAllMembers_terminates `{MoiraConstants}
    (set_order : list string -> list string) (root : string) (include_lists : bool) :
  (forall l, Permutation (set_order l) l) ->
  (forall (srv : string -> result (list list_member)) (G : list string),
     (forall n, srv n <> Err depth_error) -> In root G -> G_closed srv G ->
     (length G <= Z.to_nat MOIRA_MAX_LIST_DEPTH)%nat ->
     fst (getAllMembers srv set_order root include_lists []) <> Err depth_error)
  /\ fst (getAllMembers chain_srv set_order root include_lists []) = Err depth_error.
Proof.
  intros Hperm. split.
  - intros srv G Hsrv HG HGc Hlen.
    pose proof (getAllMembers_inv srv set_order root Hperm include_lists) as Hg.
    destruct (getAllMembers srv set_order root include_lists []) as [[res|e] log].
    + cbn. discriminate.
    + cbn. intros [= ->]. destruct Hg as [Hn [[_ [Hgt [st Hi]]]|[n [_ [Hs _]]]]].
      * pose proof (NoDup_incl_length Hn (inv_within _ _ _ _ Hi G HG HGc)). lia.
      * exact (Hsrv n Hs).
  - pose proof (getAllMembers_inv chain_srv set_order root Hperm include_lists) as Hg.
    destruct (getAllMembers chain_srv set_order root include_lists []) as [[[[mem den] kn]|e] log].
    + destruct Hg as [st [Hi [Hc _]]].
      exfalso. exact (chain_to_expand_nonempty set_order root st log Hperm Hi Hc).
    + cbn. destruct Hg as [_ [[-> _]|[n [_ [Hs _]]]]]; [reflexivity | discriminate].
Qed.

(** Witness for [getAllMembers_terminates]: the cycle [A -> B -> A] (with
    the unreadable [X]) within the names [A], [B], [X]. *)
Lemma getAllMembers_terminates_witness :
  fst (getAllMembers cycle_srv (fun l => l) "A" false []) <> Err depth_error
  /\ fst (getAllMembers chain_srv (fun l => l) "A" false []) = Err depth_error.
Proof.
  destruct (getAllMembers_terminates (fun l => l) "A" false (fun l => Permutation_refl l))
    as [Hcl Hch].
  split; [|exact Hch].
  apply (Hcl cycle_srv ["A"; "B"; "X"]%string).
  - intros n. unfold cycle_srv.
    destruct (String.eqb n "A"); [discriminate|].
    destruct (String.eqb n "B"); discriminate.
  - left. reflexivity.
  - intros n ms m Hn Hs Hm Hl.
    destruct Hn as [<-|[<-|[<-|[]]]]; vm_compute in Hs; try discriminate Hs;
      injection Hs as <-; destruct Hm as [<-|[<-|[]]];
      first [apply str_in_spec; reflexivity | vm_compute in Hl; discriminate Hl].
  - vm_compute. lia.
Defined.

(** ** The inverse map *)

Lemma member_eqb_refl (m : list_member) : member_eqb m m = true.
Proof. apply member_eqb_spec. reflexivity. Qed.

Lemma member_eqb_sym (a b : list_member) : member_eqb a b = member_eqb b a.
Proof.
  destruct (member_eqb a b) eqn:E; symmetry.
  - apply member_eqb_spec in E. subst. apply member_eqb_refl.
  - destruct (member_eqb b a) eqn:E'; [|reflexivity].
    apply member_eqb_spec in E'. subst. rewrite member_eqb_refl in E. discriminate.
Qed.

Lemma member_eqb_trans_false (m m' k : list_member) :
  member_eqb m' k = true -> member_eqb m m' = false -> member_eqb m k = false.
Proof.
  intros E1 E2. apply member_eqb_spec in E1. subst. exact E2.
Qed.

Lemma opt_app_app (o : option (list string)) (l1 l2 : list string) :
  opt_app (opt_app o l1) l2 = opt_app o (l1 ++ l2).
Proof.
  destruct l1 as [|a l1], l2 as [|b l2]; cbn; try reflexivity.
  - rewrite app_nil_r. reflexivity.
  - destruct o; cbn; [rewrite <- app_assoc|]; reflexivity.
Qed.

Lemma inv_get_append (m m' : list_member) (a : string) (d : list (list_member * list string)) :
  inv_get m (inv_append m' a d) = if member_eqb m m' then opt_app (inv_get m d) [a]
                                  else inv_get m d.
Proof.
  induction d as [|[k v] d IH]; cbn.
  - destruct (member_eqb m m'); reflexivity.
  - destruct (member_eqb m' k) eqn:E; cbn.
    + destruct (member_eqb m k) eqn:Ek.
      * assert (member_eqb m m' = true) as ->.
        { apply member_eqb_spec in E, Ek. subst. apply member_eqb_refl. }
        reflexivity.
      * destruct (member_eqb m m') eqn:Em; [|reflexivity].
        apply member_eqb_spec in E, Em. subst. rewrite member_eqb_refl in Ek. discriminate.
    + rewrite IH. destruct (member_eqb m k) eqn:Ek; [|reflexivity].
      destruct (member_eqb m m') eqn:Em; [|reflexivity].
      apply member_eqb_spec in Ek, Em. subst. rewrite member_eqb_refl in E; discriminate.
Qed.

Lemma inv_get_fold_members (m : list_member) (a : string) (ms : list list_member)
    (d : list (list_member * list string)) :
  inv_get m (fold_left (fun r m' => inv_append m' a r) ms d)
  = opt_app (inv_get m d) (map (fun _ => a) (filter (member_eqb m) ms)).
Proof.
  revert d. induction ms as [|m' ms IH]; intros d; cbn; [reflexivity|].
  rewrite IH, inv_get_append. destruct (member_eqb m m'); [|reflexivity].
  rewrite opt_app_app. reflexivity.
Qed.

Lemma inv_get_createInverseMap (m : list_member) (kn : dict (option (list list_member))) :
  inv_get m (createInverseMap kn) = opt_app None (holders m kn).
Proof.
  unfold createInverseMap, holders.
  change (@nil (list_member * list string)) with (@nil (list_member * list string)).
  assert (Hg : forall d, inv_get m (fold_left (fun result '(listname, members_) =>
       match members_ with
       | None | Some [] => result
       | Some ms => fold_left (fun r m' => inv_append m' listname r) ms result
       end) kn d)
       = opt_app (inv_get m d) (concat (map (fun '(a, c) =>
                 match c with
                 | Some ms => map (fun _ => a) (filter (member_eqb m) ms)
                 | None => []
                 end) kn))).
  { induction kn as [|[a c] kn IH]; intros d; cbn; [reflexivity|].
    rewrite IH, <- opt_app_app. f_equal.
    destruct c as [[|m0 ms]|]; cbn; [reflexivity| |reflexivity].
    exact (inv_get_fold_members m a (m0 :: ms) d). }
  apply Hg.
Qed.

Lemma holders_In (m : list_member) (kn : dict (option (list list_member))) (a : string) :
  In a (holders m kn) <-> exists ms, In (a, Some ms) kn /\ In m ms.
Proof.
  unfold holders. rewrite in_concat. split.
  - intros [l [Hl Ha]]. apply in_map_iff in Hl. destruct Hl as [[a' c] [<- Hin]].
    destruct c as [ms|]; [|destruct Ha].
    apply in_map_iff in Ha. destruct Ha as [m' [-> Hm']]. apply filter_In in Hm'.
    destruct Hm' as [Hm' E]. apply member_eqb_spec in E. subst. eauto.
  - intros [ms [Hin Hm]]. exists (map (fun _ => a) (filter (member_eqb m) ms)). split.
    + apply in_map_iff. exists (a, Some ms). auto.
    + apply in_map_iff. exists m. split; [reflexivity|]. apply filter_In.
      split; [exact Hm | apply member_eqb_refl].
Qed.

Lemma holders_keys (m : list_member) (kn : dict (option (list list_member))) (a : string) :
  In a (holders m kn) -> In a (dict_keys kn).
Proof.
  intros Ha. apply holders_In in Ha. destruct Ha as [ms [Hin _]].
  apply (in_map fst) in Hin. exact Hin.
Qed.

Lemma filter_eq_NoDup (m : list_member) (ms : list list_member) :
  NoDup ms -> (length (filter (member_eqb m) ms) <= 1)%nat.
Proof.
  induction 1 as [|x l Hx Hl IH]; cbn; [lia|].
  destruct (member_eqb m x) eqn:E; cbn; [|exact IH].
  apply member_eqb_spec in E. subst x.
  assert (filter (member_eqb m) l = []) as ->; [|cbn; lia].
  clear IH Hl. induction l as [|y l IHl]; [reflexivity|]. cbn.
  destruct (member_eqb m y) eqn:Ey.
  - apply member_eqb_spec in Ey. subst. exfalso. apply Hx. left. reflexivity.
  - apply IHl. intros H'. apply Hx. right. exact H'.
Qed.

Lemma holders_NoDup (m : list_member) (kn : dict (option (list list_member))) :
  NoDup (dict_keys kn) ->
  (forall a ms, In (a, Some ms) kn -> NoDup ms) ->
  NoDup (holders m kn).
Proof.
  induction kn as [|[a c] kn IH]; intros Hk Hc; [constructor|].
  inversion Hk as [|? ? Ha Hk']; subst.
  change (holders m ((a, c) :: kn))
    with ((match c with
           | Some ms => map (fun _ => a) (filter (member_eqb m) ms)
           | None => []
           end) ++ holders m kn).
  apply NoDup_app.
  - destruct c as [ms|]; [|constructor].
    pose proof (filter_eq_NoDup m ms (Hc a ms (or_introl eq_refl))).
    destruct (filter (member_eqb m) ms) as [|y [|z l]]; cbn in *; try lia; repeat constructor; tauto.
  - apply IH; [exact Hk'|]. intros a' ms Hin. exact (Hc a' ms (or_intror Hin)).
  - intros b Hb Hb'. destruct c as [ms|]; [|destruct Hb].
    apply in_map_iff in Hb. destruct Hb as [_ [<- _]].
    exact (Ha (holders_keys m kn a Hb')).
Qed.

Lemma dict_get_inverseLists (n : string) (inv : list (list_member * list string)) :
  dict_get n (inverseLists_of inv) = inv_get (list_ref n) inv.
Proof.
  induction inv as [|[[t k] c] inv IH]; [reflexivity|].
  unfold inverseLists_of in *. unfold is_list, list_ref, member_eqb in *. cbn [filter mtype mname].
  destruct (String.eqb t ListMember_List) eqn:E.
  - apply String.eqb_eq in E. subst t. cbn [map dict_get inv_get mtype mname].
    unfold member_eqb; cbn [mtype mname]. rewrite String.eqb_refl. cbn [andb].
    destruct (String.eqb n k); [reflexivity | exact IH].
  - cbn [inv_get mtype mname]. unfold member_eqb; cbn [mtype mname]. rewrite String.eqb_sym, E. cbn [andb]. exact IH.
Qed.

(** ** The pathway count of [recursiveTrace] *)

Lemma trace_parents_count
    (rt : string -> list string -> list (list string) * Z -> result (list (list string) * Z))
    (E : string -> list (list string)) (max : Z) (err : error) (newway ls : list string) :
  (forall l out cnt, In l ls -> 0 <= cnt <= max ->
     rt l newway (out, cnt)
     = if cnt + Z.of_nat (length (E l)) <=? max
       then Ok (rev (E l) ++ out, cnt + Z.of_nat (length (E l))) else Err err) ->
  forall out cnt, 0 <= cnt <= max ->
  let F := flat_map (fun l => if str_in l newway then [] else E l) ls in
  trace_parents rt newway ls (out, cnt)
  = if cnt + Z.of_nat (length F) <=? max
    then Ok (rev F ++ out, cnt + Z.of_nat (length F)) else Err err.
Proof.
  intros Hrt. induction ls as [|l ls IH]; intros out cnt Hc F; subst F; cbn [trace_parents flat_map].
  - cbn. rewrite Z.add_0_r. destruct (cnt <=? max) eqn:E1; [reflexivity|].
    apply Z.leb_gt in E1. lia.
  - assert (Hrt' : forall l' out cnt, In l' ls -> 0 <= cnt <= max ->
              rt l' newway (out, cnt)
              = if cnt + Z.of_nat (length (E l')) <=? max
                then Ok (rev (E l') ++ out, cnt + Z.of_nat (length (E l'))) else Err err)
      by (intros; apply Hrt; [right|]; assumption).
    specialize (IH Hrt').
    destruct (str_in l newway); cbn [app].
    + apply IH. exact Hc.
    + rewrite (Hrt l out cnt (or_introl eq_refl) Hc).
      destruct (cnt + Z.of_nat (length (E l)) <=? max) eqn:E1.
      * apply Z.leb_le in E1. cbn [bind].
        rewrite (IH (rev (E l) ++ out) (cnt + Z.of_nat (length (E l)))) by lia.
        rewrite length_app, Nat2Z.inj_add, Z.add_assoc, rev_app_distr, <- app_assoc.
        reflexivity.
      * apply Z.leb_gt in E1. cbn [bind]. rewrite length_app, Nat2Z.inj_add.
        destruct (_ <=? max) eqn:E2; [apply Z.leb_le in E2; lia | reflexivity].
Qed.

(** [recursiveTrace] emits the pathways of [trace_enum] in order, unless
    their number would pass [max_pathways]; [Kt] is a set of names closed
    under taking parents, outside of which lookups could fail. *)
Lemma recursiveTrace_count (t : tracer) (Kt : string -> Prop) :
  (forall k, Kt k -> k <> mlist_name t ->
     exists ps, dict_get k (inverseLists t) = Some ps /\ Forall Kt ps) ->
  forall fuel cur way out cnt, Kt cur -> 0 <= cnt <= max_pathways t ->
  recursiveTrace t fuel cur way (out, cnt)
  = if cnt + Z.of_nat (length (trace_enum t fuel cur way)) <=? max_pathways t
    then Ok (rev (trace_enum t fuel cur way) ++ out,
             cnt + Z.of_nat (length (trace_enum t fuel cur way)))
    else Err (pathways_error (max_pathways t)).
Proof.
  intros HK fuel. induction fuel as [|f IH]; intros cur way out cnt Hcur Hc.
  - cbn. rewrite Z.add_0_r. destruct (cnt <=? max_pathways t) eqn:E1; [reflexivity|].
    apply Z.leb_gt in E1. lia.
  - cbn [recursiveTrace trace_enum]. destruct (String.eqb cur (mlist_name t)) eqn:Er.
    + cbn [snd fst length rev app]. change (Z.of_nat 1) with 1.
      destruct (cnt =? max_pathways t) eqn:Em.
      * apply Z.eqb_eq in Em. destruct (cnt + 1 <=? max_pathways t) eqn:E1;
          [apply Z.leb_le in E1; lia | reflexivity].
      * apply Z.eqb_neq in Em. destruct (cnt + 1 <=? max_pathways t) eqn:E1;
          [reflexivity | apply Z.leb_gt in E1; lia].
    + apply String.eqb_neq in Er. destruct (HK cur Hcur Er) as [ps [Hps Hall]].
      rewrite Hps. apply trace_parents_count; [|exact Hc].
      intros l out' cnt' Hl Hc'. apply IH; [|exact Hc'].
      rewrite Forall_forall in Hall. exact (Hall l Hl).
Qed.

Lemma fold_trace_err (t : tracer) (fuel : nat) (ls : list string) (e : error) :
  fold_left (fun acc mlist => output <- acc ;; recursiveTrace t fuel mlist [] output)
            ls (Err e) = Err e.
Proof. induction ls as [|l ls IH]; [reflexivity | exact IH]. Qed.

(** [trace] collects the pathways of every list holding the member, or
    fails once there are more than [max_pathways]. *)
Lemma trace_count (t : tracer) (Kt : string -> Prop) (member : list_member)
    (mlists : list string) :
  (forall k, Kt k -> k <> mlist_name t ->
     exists ps, dict_get k (inverseLists t) = Some ps /\ Forall Kt ps) ->
  inv_get member (inverse t) = Some mlists -> Forall Kt mlists ->
  0 <= max_pathways t ->
  let T := flat_map (fun ml => trace_enum t (S (length (lists t))) ml []) mlists in
  trace t member
  = if Z.of_nat (length T) <=? max_pathways t then Ok T
    else Err (pathways_error (max_pathways t)).
Proof.
  intros HK Hinv Hall Hmax T. unfold trace. rewrite Hinv.
  assert (Hf : forall ls out cnt, Forall Kt ls -> 0 <= cnt <= max_pathways t ->
    let T' := flat_map (fun ml => trace_enum t (S (length (lists t))) ml []) ls in
    fold_left (fun acc mlist => output <- acc ;;
                 recursiveTrace t (S (length (lists t))) mlist [] output)
              ls (Ok (out, cnt))
    = if cnt + Z.of_nat (length T') <=? max_pathways t
      then Ok (rev T' ++ out, cnt + Z.of_nat (length T'))
      else Err (pathways_error (max_pathways t))).
  { induction ls as [|l ls IH]; intros out cnt Hl Hc T'; subst T'.
    - cbn. rewrite Z.add_0_r. destruct (cnt <=? max_pathways t) eqn:E1; [reflexivity|].
      apply Z.leb_gt in E1. lia.
    - inversion Hl as [|? ? Hkl Hl']; subst. cbn [fold_left flat_map bind].
      rewrite (recursiveTrace_count t Kt HK _ l [] out cnt Hkl Hc).
      set (E := trace_enum t (S (length (lists t))) l []).
      destruct (cnt + Z.of_nat (length E) <=? max_pathways t) eqn:E1.
      + apply Z.leb_le in E1. rewrite (IH _ _ Hl') by lia.
        rewrite length_app, Nat2Z.inj_add, Z.add_assoc, rev_app_distr, <- app_assoc.
        reflexivity.
      + apply Z.leb_gt in E1. rewrite fold_trace_err, length_app, Nat2Z.inj_add.
        destruct (_ <=? max_pathways t) eqn:E2; [apply Z.leb_le in E2; lia | reflexivity]. }
  rewrite (Hf mlists [] 0 Hall) by lia. fold T. cbn [Z.add].
  destruct (Z.of_nat (length T) <=? max_pathways t); [|reflexivity].
  cbn [bind fst]. rewrite app_nil_r, rev_involutive. reflexivity.
Qed.

Lemma inverseLists_tracer_of (root : string) (kn : dict (option (list list_member)))
    (max : Z) (n : string) :
  dict_get n (inverseLists (tracer_of root kn max)) = opt_app None (holders (list_ref n) kn).
Proof.
  cbn [tracer_of inverseLists]. rewrite dict_get_inverseLists.
  apply inv_get_createInverseMap.
Qed.

Lemma tracer_of_parents (root : string) (kn : dict (option (list list_member))) (max : Z) :
  keys_held kn root ->
  forall k, In k (dict_keys kn) -> k <> mlist_name (tracer_of root kn max) ->
  exists ps, dict_get k (inverseLists (tracer_of root kn max)) = Some ps
             /\ Forall (fun k => In k (dict_keys kn)) ps.
Proof.
  intros Hheld k Hk Hr. cbn [tracer_of mlist_name] in Hr.
  destruct (Hheld k Hk Hr) as [a [ms [Hg Hm]]].
  assert (Ha : In a (holders (list_ref k) kn))
    by (apply holders_In; exists ms; split; [apply dict_get_In; exact Hg | exact Hm]).
  rewrite inverseLists_tracer_of.
  destruct (holders (list_ref k) kn) as [|h hs] eqn:Eh; [destruct Ha|].
  exists (h :: hs). split; [reflexivity|].
  apply Forall_forall. intros x Hx. rewrite <- Eh in Hx. exact (holders_keys _ _ _ Hx).
Qed.

Lemma holds_holders (kn : dict (option (list list_member))) (a : string) (m : list_member) :
  NoDup (dict_keys kn) -> (holds kn a m <-> In a (holders m kn)).
Proof.
  intros Hk. rewrite holders_In. split.
  - intros [ms [Hg Hm]]. exists ms. split; [apply dict_get_In; exact Hg | exact Hm].
  - intros [ms [Hin Hm]]. exists ms. split; [apply dict_In_get; assumption | exact Hm].
Qed.

Lemma holds_key (kn : dict (option (list list_member))) (a : string) (m : list_member) :
  holds kn a m -> In a (dict_keys kn).
Proof. intros [ms [Hg _]]. apply dict_get_keys. eauto. Qed.

(** [trace_enum] lists, reversed, the ways up from [curlist] to the root
    that repeat no name of [curway]. *)
Lemma trace_enum_In (root : string) (kn : dict (option (list list_member))) (max : Z) :
  NoDup (dict_keys kn) ->
  forall fuel cur way p,
  NoDup (way ++ [cur]) -> incl (way ++ [cur]) (dict_keys kn) ->
  (length (dict_keys kn) < length way + fuel)%nat ->
  In p (trace_enum (tracer_of root kn max) fuel cur way)
  <-> exists ext, p = rev (way ++ cur :: ext) /\ ascends kn root (cur :: ext)
                  /\ NoDup (way ++ cur :: ext).
Proof.
  intros Hk fuel. induction fuel as [|f IH]; intros cur way p Hnd Hincl Hlen.
  - exfalso. apply NoDup_incl_length in Hincl; [|exact Hnd].
    rewrite length_app in Hincl. cbn in Hincl. lia.
  - cbn [trace_enum]. change (mlist_name (tracer_of root kn max)) with root.
    destruct (String.eqb cur root) eqn:Er.
    + apply String.eqb_eq in Er. subst cur. split.
      * intros [<-|[]]. exists []. split; [reflexivity|]. split; [reflexivity | exact Hnd].
      * intros [ext [-> [Ha Hn]]]. destruct ext as [|l ext]; [left; reflexivity|].
        destruct Ha as [Hne _]. contradiction.
    + apply String.eqb_neq in Er. rewrite inverseLists_tracer_of.
      assert (Hpar : forall l, holds kn l (list_ref cur) <-> In l (holders (list_ref cur) kn))
        by (intros; apply holds_holders; exact Hk).
      destruct (holders (list_ref cur) kn) as [|h hs] eqn:Eh.
      * cbn [opt_app]. split; [intros []|].
        intros [ext [_ [Ha _]]]. destruct ext as [|l ext]; [contradiction|].
        destruct Ha as [_ [Hh _]]. apply Hpar in Hh. destruct Hh.
      * cbn [opt_app]. rewrite <- Eh in Hpar |- *. rewrite in_flat_map. split.
        -- intros [l [Hl Hp]].
           destruct (str_in l (way ++ [cur])) eqn:Es; [destruct Hp|].
           assert (Hl' : ~ In l (way ++ [cur]))
             by (intros Hin; apply str_in_spec in Hin; congruence).
           apply IH in Hp.
           ++ destruct Hp as [ext [-> [Ha Hn]]]. exists (l :: ext).
              rewrite <- app_assoc in Hn |- *. cbn [app] in Hn |- *.
              split; [reflexivity|]. split; [|exact Hn].
              split; [exact Er|]. split; [apply Hpar; exact Hl | exact Ha].
           ++ apply NoDup_snoc; assumption.
           ++ intros x Hx. apply in_app_or in Hx. destruct Hx as [Hx|[<-|[]]].
              ** exact (Hincl x Hx).
              ** exact (holders_keys _ _ _ Hl).
           ++ rewrite length_app. cbn [length]. lia.
        -- intros [ext [-> [Ha Hn]]]. destruct ext as [|l ext]; [contradiction|].
           destruct Ha as [_ [Hh Ha]]. exists l. split; [apply Hpar; exact Hh|].
           assert (Hn' : NoDup ((way ++ [cur]) ++ l :: ext))
             by (rewrite <- app_assoc; exact Hn).
           assert (Hl' : ~ In l (way ++ [cur])).
           { intros Hin. apply (NoDup_remove_2 _ _ _ Hn'). apply in_or_app. left. exact Hin. }
           destruct (str_in l (way ++ [cur])) eqn:Es;
             [apply str_in_spec in Es; contradiction|].
           apply IH.
           ++ apply NoDup_snoc; assumption.
           ++ intros x Hx. apply in_app_or in Hx. destruct Hx as [Hx|[<-|[]]].
              ** exact (Hincl x Hx).
              ** exact (holds_key _ _ _ Hh).
           ++ rewrite length_app. cbn [length]. lia.
           ++ exists ext. rewrite <- app_assoc. cbn [app].
              split; [reflexivity|]. split; [exact Ha | exact Hn].
Qed.

Lemma trace_enum_shape (t : tracer) :
  forall fuel cur way p, In p (trace_enum t fuel cur way) ->
  exists ext, rev p = way ++ cur :: ext.
Proof.
  induction fuel as [|f IH]; intros cur way p Hp; cbn [trace_enum] in Hp; [destruct Hp|].
  destruct (String.eqb cur (mlist_name t)).
  - destruct Hp as [<-|[]]. exists []. apply rev_involutive.
  - destruct (dict_get cur (inverseLists t)) as [ps|]; [|destruct Hp].
    apply in_flat_map in Hp. destruct Hp as [l [_ Hp]].
    destruct (str_in l (way ++ [cur])); [destruct Hp|].
    apply IH in Hp. destruct Hp as [ext Hext]. exists (l :: ext).
    rewrite Hext, <- app_assoc. reflexivity.
Qed.

Lemma NoDup_flat_map {A B} (F : A -> list B) (ls : list A) :
  NoDup ls -> (forall l, In l ls -> NoDup (F l)) ->
  (forall l1 l2 p, In p (F l1) -> In p (F l2) -> l1 = l2) ->
  NoDup (flat_map F ls).
Proof.
  induction 1 as [|l ls Hl Hls IH]; intros HF Hdis; [constructor|].
  cbn [flat_map]. apply NoDup_app.
  - apply HF. left. reflexivity.
  - apply IH; [|exact Hdis]. intros l' Hl'. apply HF. right. exact Hl'.
  - intros p Hp Hp'. apply in_flat_map in Hp'. destruct Hp' as [l' [Hl' Hp']].
    rewrite (Hdis _ _ _ Hp Hp') in Hl. contradiction.
Qed.

Lemma trace_enum_NoDup (root : string) (kn : dict (option (list list_member))) (max : Z) :
  NoDup (dict_keys kn) -> contents_nodup kn ->
  forall fuel cur way, NoDup (trace_enum (tracer_of root kn max) fuel cur way).
Proof.
  intros Hk Hc fuel. induction fuel as [|f IH]; intros cur way; cbn [trace_enum];
    [constructor|].
  destruct (String.eqb cur (mlist_name (tracer_of root kn max))); [repeat constructor; tauto|].
  rewrite inverseLists_tracer_of.
  pose proof (holders_NoDup (list_ref cur) kn Hk Hc) as Hnd.
  destruct (holders (list_ref cur) kn) as [|h hs]; [constructor|]. cbn [opt_app].
  apply NoDup_flat_map; [exact Hnd | |].
  - intros l _. destruct (str_in l (way ++ [cur])); [constructor | apply IH].
  - intros l1 l2 p H1 H2.
    destruct (str_in l1 (way ++ [cur])); [destruct H1|].
    destruct (str_in l2 (way ++ [cur])); [destruct H2|].
    apply trace_enum_shape in H1, H2. destruct H1 as [e1 H1], H2 as [e2 H2].
    rewrite H1 in H2. apply app_inv_head in H2. injection H2 as ->. reflexivity.
Qed.

Lemma chain_down_snoc2 (kn : dict (option (list list_member))) (x : list_member)
    (a b : string) :
  forall p, chain_down kn x (p ++ [b; a])
            <-> chain_down kn (list_ref a) (p ++ [b]) /\ holds kn a x.
Proof.
  induction p as [|c p IH]; [cbn; unfold list_ref; tauto|].
  destruct p as [|d p].
  - cbn. unfold list_ref. tauto.
  - change ((c :: d :: p) ++ [b; a]) with (c :: (d :: p) ++ [b; a]).
    change ((c :: d :: p) ++ [b]) with (c :: (d :: p) ++ [b]).
    cbn [chain_down app]. cbn [app] in IH. rewrite IH. tauto.
Qed.

(** An upward walk from a list holding [x] reads, reversed, as a pathway. *)
Lemma ascends_chain_down (kn : dict (option (list list_member))) (root : string) :
  forall ext ml x, NoDup (ml :: ext) ->
  (holds kn ml x /\ ascends kn root (ml :: ext)
   <-> hd_error (rev (ml :: ext)) = Some root /\ chain_down kn x (rev (ml :: ext))).
Proof.
  induction ext as [|l ext IH]; intros ml x Hnd.
  - cbn. split; intros [H1 H2]; [split; [congruence | exact H1] | split; [exact H2 | congruence]].
  - inversion Hnd as [|? ? Hml Hnd']; subst.
    assert (Hrev : rev (ml :: l :: ext) = rev ext ++ [l; ml])
      by (cbn [rev]; rewrite <- app_assoc; reflexivity).
    assert (Hrev' : rev (l :: ext) = rev ext ++ [l]) by reflexivity.
    assert (Hhd : hd_error (rev (ml :: l :: ext)) = hd_error (rev (l :: ext))).
    { rewrite Hrev, Hrev'. destruct (rev ext); reflexivity. }
    rewrite Hhd, Hrev, chain_down_snoc2, <- Hrev'.
    specialize (IH l (list_ref ml) Hnd'). change (ascends kn root (ml :: l :: ext))
      with (ml <> root /\ holds kn l (list_ref ml) /\ ascends kn root (l :: ext)).
    split.
    + intros [Hx [_ Hup]]. apply IH in Hup. tauto.
    + intros [Hr [Hc Hx]]. split; [exact Hx|].
      split; [|apply IH; tauto].
      intros ->. apply Hml. apply in_rev.
      destruct (rev (l :: ext)) as [|r rs] eqn:E; [discriminate|].
      injection Hr as ->. left. reflexivity.
Qed.

Lemma chain_down_holds (kn : dict (option (list list_member))) (x : list_member) :
  forall p, chain_down kn x p -> exists a, holds kn a x.
Proof.
  induction p as [|a p IH]; [intros []|].
  destruct p as [|b p]; [intros H; exists a; exact H|].
  intros [_ H]. exact (IH H).
Qed.

(** The pathways of [x] are those [trace_enum] finds from each list holding [x]. *)
Lemma trace_enum_pathways (root : string) (kn : dict (option (list list_member))) (max : Z)
    (x : list_member) (p : list string) :
  NoDup (dict_keys kn) ->
  In p (flat_map (fun ml => trace_enum (tracer_of root kn max) (S (length kn)) ml [])
                 (holders x kn))
  <-> is_pathway kn root x p.
Proof.
  intros Hk. rewrite in_flat_map.
  assert (Hlen : length (dict_keys kn) = length kn) by apply length_map.
  split.
  - intros [ml [Hml Hp]]. apply trace_enum_In in Hp; [| exact Hk | repeat constructor; tauto
      | intros y [<-|[]]; exact (holders_keys _ _ _ Hml) | cbn; lia].
    destruct Hp as [ext [-> [Ha Hn]]]. cbn [app] in Hn |- *.
    split; [apply NoDup_rev; exact Hn|].
    apply ascends_chain_down; [exact Hn|]. split; [apply holds_holders; assumption | exact Ha].
  - intros [Hn [Hhd Hc]].
    destruct (rev p) as [|ml ext] eqn:Er.
    { apply (f_equal (@rev string)) in Er. rewrite rev_involutive in Er. subst p. destruct Hc. }
    assert (Hp : p = rev (ml :: ext))
      by (rewrite <- Er; symmetry; apply rev_involutive).
    assert (Hn' : NoDup (ml :: ext)) by (rewrite <- Er; apply NoDup_rev; exact Hn).
    subst p. destruct (proj2 (ascends_chain_down kn root ext ml x Hn') (conj Hhd Hc))
      as [Hx Ha]. exists ml. split; [apply holds_holders; assumption|].
    apply trace_enum_In; [exact Hk | repeat constructor; tauto
      | intros y [<-|[]]; exact (holds_key _ _ _ Hx) | cbn; lia |].
    exists ext. cbn [app]. auto.
Qed.

(** [trace] over a well-formed expansion: the pathways of [x], each once,
    or the pathway error when there are more than [max]. *)
Lemma trace_tracer_of (root : string) (kn : dict (option (list list_member))) (max : Z)
    (x : list_member) :
  NoDup (dict_keys kn) -> contents_nodup kn -> keys_held kn root -> 0 <= max ->
  match trace (tracer_of root kn max) x with
  | Ok ps => NoDup ps /\ (forall p, In p ps <-> is_pathway kn root x p)
             /\ Z.of_nat (length ps) <= max
  | Err e => e = pathways_error max
             /\ exists ps, NoDup ps /\ (forall p, In p ps <-> is_pathway kn root x p)
                           /\ max < Z.of_nat (length ps)
  end.
Proof.
  intros Hk Hc Hheld Hmax.
  set (T := flat_map (fun ml => trace_enum (tracer_of root kn max) (S (length kn)) ml [])
                     (holders x kn)).
  assert (HT : forall p, In p T <-> is_pathway kn root x p)
    by (intros; apply trace_enum_pathways; exact Hk).
  assert (HTn : NoDup T).
  { apply NoDup_flat_map; [apply holders_NoDup; assumption | |].
    - intros l _. apply trace_enum_NoDup; assumption.
    - intros l1 l2 p H1 H2. apply trace_enum_shape in H1, H2.
      destruct H1 as [e1 H1], H2 as [e2 H2]. rewrite H1 in H2. injection H2 as ->.
      reflexivity. }
  destruct (holders x kn) as [|h hs] eqn:Eh.
  - unfold trace. cbn [tracer_of inverse]. rewrite inv_get_createInverseMap, Eh.
    cbn [opt_app]. split; [constructor|]. split; [|cbn; lia].
    intros p. split; [intros []|]. intros [_ [_ Hcd]].
    destruct (chain_down_holds _ _ _ Hcd) as [a Ha].
    apply (holds_holders kn a x Hk) in Ha. rewrite Eh in Ha. destruct Ha.
  - rewrite (trace_count (tracer_of root kn max) (fun k => In k (dict_keys kn)) x (h :: hs)).
    + cbn [lists tracer_of max_pathways]. fold T.
      destruct (Z.of_nat (length T) <=? max) eqn:E1.
      * apply Z.leb_le in E1. auto.
      * apply Z.leb_gt in E1. split; [reflexivity|]. exists T. auto.
    + apply tracer_of_parents. exact Hheld.
    + cbn [tracer_of inverse]. rewrite inv_get_createInverseMap, Eh. reflexivity.
    + apply Forall_forall. intros y Hy. rewrite <- Eh in Hy. exact (holders_keys _ _ _ Hy).
    + exact Hmax.
Qed.

Lemma holdsb_holds (kn : dict (option (list list_member))) (a : string) (m : list_member) :
  holdsb kn a m = true -> holds kn a m.
Proof.
  unfold holdsb. destruct (dict_get a kn) as [[ms|]|] eqn:E; try discriminate.
  intros Hm. exists ms. split; [exact E | apply mem_member_spec; exact Hm].
Qed.

Lemma chain_downb_chain_down (kn : dict (option (list list_member))) (x : list_member) :
  forall p, chain_downb kn x p = true -> chain_down kn x p.
Proof.
  induction p as [|a p IH]; [discriminate|].
  destruct p as [|b p]; [apply holdsb_holds|].
  intros H. apply andb_true_iff in H. destruct H as [H1 H2].
  split; [apply holdsb_holds; exact H1 | apply IH; exact H2].
Qed.

(** The lists of a successful full expansion form a well-formed graph for
    the tracer. *)
Lemma getAllMembers_wf `{MoiraConstants} (srv : string -> result (list list_member))
    (set_order : list string -> list string) (root : string)
    (mem : list list_member) (den : list string) (kn : dict (option (list list_member)))
    (log : list string) :
  (forall l, Permutation (set_order l) l) ->
  getAllMembers srv set_order root true [] = (Ok (mem, den, kn), log) ->
  NoDup (dict_keys kn) /\ contents_nodup kn /\ keys_held kn root
  /\ In root (dict_keys kn).
Proof.
  intros Hperm E. pose proof (getAllMembers_inv srv set_order root Hperm true) as Hg.
  rewrite E in Hg. destruct Hg as [st [Hi [_ [_ [-> _]]]]].
  destruct Hi as [I1 I2 I3 I4 I5 I6 I7 I8 I9].
  split; [exact I2|]. split; [|split].
  - intros a ms Hin. pose proof (dict_In_get _ _ _ I2 Hin) as Hga.
    assert (Ha : In a log) by (apply I3, dict_get_keys; eauto).
    destruct (I4 a Ha) as [[ms0 [_ Hg]]|[_ [_ Hg]]]; rewrite Hga in Hg; [|discriminate].
    injection Hg as ->. apply frozenset_NoDup.
  - intros k Hk Hr. apply I3 in Hk. destruct (I7 k Hk) as [->|Hm]; [contradiction|].
    apply I6 in Hm. destruct Hm as [a [ms [Hg Hm]]]. exists a, ms. auto.
  - apply I3. exact I8.
Qed.

(** Claim C8, counterexample.  A membership graph with more inclusion
    pathways than [max_pathways]: under the root [R], four layers of
    seventeen lists ([layered_srv]), so [17 ^ 4 = 83521 > 65536] pathways
    lead to the user [u].  The expansion succeeds and [u] sits in
    the lists of the last layer, yet [trace] returns no pathway at all: it
    raises the [UserError] about the maximum number of pathways, although
    [[R; ab; aab; aaab; aaaab]] is one of them. *)
Lemma trace_layered_exceeds_max :
  match fst (ListTracer_init layered_srv (fun l => l) "R" default_max_pathways []) with
  | Ok t =>
      trace t (mkMember ListMember_User "u") = Err (pathways_error default_max_pathways)
      /\ is_pathway (lists t) "R" (mkMember ListMember_User "u")
                    ["R"; "ab"; "aab"; "aaab"; "aaaab"]%string
  | Err _ => False
  end.
Proof.
  assert (H1 : match fst (ListTracer_init layered_srv (fun l => l) "R" default_max_pathways [])
               with
               | Ok t => trace t (mkMember ListMember_User "u")
                         = Err (pathways_error default_max_pathways)
               | Err _ => False
               end) by (vm_compute; reflexivity).
  assert (H2 : match fst (ListTracer_init layered_srv (fun l => l) "R" default_max_pathways [])
               with
               | Ok t => chain_downb (lists t) (mkMember ListMember_User "u")
                           ["R"; "ab"; "aab"; "aaab"; "aaaab"]%string = true
               | Err _ => False
               end) by (vm_compute; reflexivity).
  destruct (fst (ListTracer_init layered_srv (fun l => l) "R" default_max_pathways []))
    as [t|e]; [|exact H1].
  split; [exact H1|]. split; [|split; [reflexivity|]].
  - repeat constructor; cbn; intros H; repeat destruct H as [H|H]; try discriminate H; exact H.
  - apply chain_downb_chain_down. exact H2.
Qed.

(** Claim C8, amended.  Let [t] be the tracer [ListTracer(root)] builds
    (default [max_pathways = 65536]) over a successful expansion, with
    the lists expanded, [lists t], as the membership graph.  If no list
    holds [x] explicitly, [trace t x] is empty.  Otherwise, when [x] has at
    most [65536] cycle-free inclusion pathways (root first, then each list
    holding the next, the last one holding [x]), [trace t x] returns each of
    them exactly once, root to target.  When there are more, it raises the
    [UserError] of the pathway limit.  Over the graph where [A] contains [B]
    and [C], and [B] and [C] contain [D], [trace(D)] is [[A; B]; [A; C]]. *)
Theorem trace_pathways `{MoiraConstants} (srv : string -> result (list list_member))
    (set_order : list string -> list string) (root : string) (t : tracer)
    (log : list string) (x : list_member) :
  (forall l, Permutation (set_order l) l) ->
  ListTracer_init srv set_order root default_max_pathways [] = (Ok t, log) ->
  ((forall a, ~ holds (lists t) a x) -> trace t x = Ok [])
  /\ match trace t x with
     | Ok ps => NoDup ps /\ (forall p, In p ps <-> is_pathway (lists t) root x p)
                /\ Z.of_nat (length ps) <= default_max_pathways
     | Err e => e = pathways_error default_max_pathways
                /\ exists ps, NoDup ps /\ (forall p, In p ps <-> is_pathway (lists t) root x p)
                              /\ default_max_pathways < Z.of_nat (length ps)
     end
  /\ match fst (ListTracer_init diamond_srv (fun l => l) "A" default_max_pathways []) with
     | Ok t' => trace t' (list_ref "D") = Ok [["A"; "B"]; ["A"; "C"]]%string
     | Err _ => False
     end.
Proof.
  intros Hperm E.
  unfold ListTracer_init, lbind in E.
  destruct (getAllMembers srv set_order root true []) as [[[[mem den] kn]|e] log'] eqn:Eg;
    [|discriminate E].
  cbn [lret] in E. injection E as <- <-.
  destruct (getAllMembers_wf srv set_order root mem den kn log' Hperm Eg)
    as [Hk [Hc [Hheld _]]].
  assert (Hmax : 0 <= default_max_pathways) by (unfold default_max_pathways; lia).
  pose proof (trace_tracer_of root kn default_max_pathways x Hk Hc Hheld Hmax) as Ht.
  cbn [lists tracer_of]. split; [|split; [exact Ht | vm_compute; reflexivity]].
  intros Hno. destruct (trace (tracer_of root kn default_max_pathways) x) as [ps|e'].
  - destruct Ht as [_ [Hin _]]. destruct ps as [|p ps]; [reflexivity|].
    exfalso. destruct (proj1 (Hin p) (or_introl eq_refl)) as [_ [_ Hcd]].
    destruct (chain_down_holds _ _ _ Hcd) as [a Ha]. exact (Hno a Ha).
  - exfalso. destruct Ht as [_ [ps [_ [Hin Hlen]]]].
    destruct ps as [|p ps]; [cbn in Hlen; unfold default_max_pathways in Hlen; lia|].
    destruct (proj1 (Hin p) (or_introl eq_refl)) as [_ [_ Hcd]].
    destruct (chain_down_holds _ _ _ Hcd) as [a Ha]. exact (Hno a Ha).
Qed.

Lemma trace_pathways_witness :
  let kn := [("A"%string, Some [list_ref "B"; list_ref "C"]);
             ("B"%string, Some [list_ref "D"]); ("C"%string, Some [list_ref "D"]);
             ("D"%string, Some [])] in
  let t := tracer_of "A" kn default_max_pathways in
  ListTracer_init diamond_srv (fun l => l) "A" default_max_pathways []
    = (Ok t, ["A"; "B"; "C"; "D"]%string)
  /\ trace t (list_ref "D") = Ok [["A"; "B"]; ["A"; "C"]]%string
  /\ (((forall a, ~ holds (lists t) a (list_ref "D")) -> trace t (list_ref "D") = Ok [])
      /\ match trace t (list_ref "D") with
         | Ok ps => NoDup ps /\ (forall p, In p ps <-> is_pathway (lists t) "A" (list_ref "D") p)
                    /\ Z.of_nat (length ps) <= default_max_pathways
         | Err e => e = pathways_error default_max_pathways
                    /\ exists ps, NoDup ps
                       /\ (forall p, In p ps <-> is_pathway (lists t) "A" (list_ref "D") p)
                       /\ default_max_pathways < Z.of_nat (length ps)
         end
      /\ match fst (ListTracer_init diamond_srv (fun l => l) "A" default_max_pathways []) with
         | Ok t' => trace t' (list_ref "D") = Ok [["A"; "B"]; ["A"; "C"]]%string
         | Err _ => False
         end).
Proof.
  intros kn t.
  assert (E : ListTracer_init diamond_srv (fun l => l) "A" default_max_pathways []
              = (Ok t, ["A"; "B"; "C"; "D"]%string)) by (vm_compute; reflexivity).
  split; [exact E|]. split; [vm_compute; reflexivity|].
  apply (trace_pathways diamond_srv (fun l => l) "A" t ["A"; "B"; "C"; "D"]%string
           (list_ref "D")).
  - intros l. apply Permutation_refl.
  - exact E.
Defined.

(* ================================================================== *)
(** ** Reading the stream: [recv] and [recvPacket] *)

Local Abbreviation closed_error :=
  (ConnectionError "Connection was closed while more data was expected").

(** What one [socket.recv(k)] takes from the stream. *)
Lemma socket_recv_split (k : nat) (c : conn) :
  exists x, fst (socket_recv k c) = Ok x
  /\ concat (inbox c) = x ++ concat (inbox (snd (socket_recv k c)))
  /\ version (snd (socket_recv k c)) = version c
  /\ sent (snd (socket_recv k c)) = sent c
  /\ (length x <= k)%nat.
Proof.
  unfold socket_recv. destruct (inbox c) as [|seg rest] eqn:Ei.
  - exists []. cbn [fst snd]. rewrite Ei. cbn. auto with arith.
  - exists (firstn k seg). cbn [fst snd inbox version sent]. rewrite length_firstn.
    refine (conj eq_refl (conj _ (conj eq_refl (conj eq_refl _)))); [|lia].
    destruct (k <? length seg)%nat eqn:Ek; cbn [concat].
    + rewrite app_assoc, firstn_skipn. reflexivity.
    + apply Nat.ltb_ge in Ek. rewrite firstn_all2 by lia. reflexivity.
Qed.

(** Whatever [recv_loop] returns was taken from the front of the stream,
    and reaches the requested size exactly. *)
Lemma recv_loop_consumes (fuel n : nat) (data : bytes) (c : conn) (r : bytes) (c' : conn) :
  recv_loop fuel n data c = (Ok r, c') ->
  exists t, r = data ++ t /\ concat (inbox c) = t ++ concat (inbox c')
  /\ length r = Nat.max n (length data)
  /\ version c' = version c /\ sent c' = sent c.
Proof.
  revert data c. induction fuel as [|f IH]; intros data c; cbn [recv_loop].
  - destruct (length data <? n)%nat eqn:En; [discriminate|].
    apply Nat.ltb_ge in En. intros H; inversion H; subst.
    exists []. rewrite app_nil_r. repeat split; lia.
  - destruct (length data <? n)%nat eqn:En.
    2:{ apply Nat.ltb_ge in En. intros H; inversion H; subst.
        exists []. rewrite app_nil_r. repeat split; lia. }
    apply Nat.ltb_lt in En.
    destruct (socket_recv_split (n - length data) c) as [x [Hx [Hs [Hv [Hsent Hl]]]]].
    unfold cbind. destruct (socket_recv (n - length data) c) as [rx c1] eqn:E.
    cbn [fst snd] in *. subst rx.
    destruct (length x =? 0)%nat; [discriminate|].
    intros H. apply IH in H. destruct H as [t [-> [Ht [Hlen [Hv' Hs']]]]].
    exists (x ++ t). rewrite !app_assoc. refine (conj eq_refl _).
    rewrite Hs, Ht, app_assoc. refine (conj eq_refl _).
    rewrite !length_app in Hlen. rewrite !length_app.
    refine (conj _ (conj _ _)); [lia | congruence | congruence].
Qed.

(** [recvPacket] consumes exactly [raw_len] bytes, at least the sixteen
    of the header, and returns the parse of them. *)
Lemma recvPacket_consumes_aux (c : conn) (p : packet) (c' : conn) :
  recvPacket c = (Ok p, c') ->
  exists t, concat (inbox c) = t ++ concat (inbox c') /\ parse t = Ok p
  /\ Z.of_nat (length t) = raw_len p /\ (16 <= length t)%nat
  /\ version c' = version c /\ sent c' = sent c.
Proof.
  unfold recvPacket, recv, cbind.
  destruct (recv_loop 4 4 [] c) as [[ld|e] c1] eqn:E1; [|discriminate].
  apply recv_loop_consumes in E1. destruct E1 as [t1 [-> [H1 [L1 [V1 S1]]]]].
  cbn [app length Nat.max] in L1 |- *.
  unfold clift. unfold _read_u32. rewrite firstn_all2 by lia.
  unfold unpack_u32. rewrite L1. cbn [Nat.eqb].
  destruct (unbe32 t1 <? 4) eqn:Elt; [discriminate|]. apply Z.ltb_ge in Elt.
  destruct (recv_loop _ _ [] c1) as [[rem|e] c2] eqn:E2; [|discriminate].
  apply recv_loop_consumes in E2. destruct E2 as [t2 [-> [H2 [L2 [V2 S2]]]]].
  cbn [app length Nat.max] in L2 |- *. rewrite Nat.max_0_r in L2.
  intros Hp. injection Hp as Hp <-. exists (t1 ++ t2).
  assert (Hlen : Z.of_nat (length (t1 ++ t2)) = unbe32 t1)
    by (rewrite length_app, L1, L2; lia).
  refine (conj _ (conj Hp _)); [rewrite H1, H2, app_assoc; reflexivity|].
  unfold parse in Hp.
  destruct (negb (Nat.eqb (length (firstn 16 (t1 ++ t2))) 16)) eqn:E16; [discriminate|].
  apply negb_false_iff, Nat.eqb_eq in E16. rewrite length_firstn in E16.
  rewrite firstn_firstn in Hp. replace (Nat.min 4 16) with 4%nat in Hp by reflexivity.
  rewrite firstn_app, L1 in Hp. replace (4 - 4)%nat with 0%nat in Hp by reflexivity.
  rewrite firstn_O, app_nil_r in Hp. rewrite firstn_all2 in Hp by lia.
  unfold unpack_u32 in Hp at 1. rewrite L1 in Hp. cbn [Nat.eqb bind] in Hp.
  unfold bind in Hp.
  destruct (unpack_u32 (firstn 4 (skipn 4 _))); [|discriminate].
  destruct (unpack_i32 _); [|discriminate].
  destruct (unpack_u32 (skipn 12 _)); [|discriminate].
  destruct (negb (unbe32 t1 mod 4 =? 0)); [discriminate|].
  destruct (negb (_ =? 2)); [discriminate|].
  destruct (parse_fields _ _ _) as [[fs body]|]; [|discriminate].
  destruct (0 <? length body)%nat; [discriminate|].
  injection Hp as <-. cbn [raw_len].
  pose proof (Nat.le_min_r 16 (length (t1 ++ t2))) as H16. rewrite E16 in H16.
  refine (conj Hlen (conj H16 (conj _ _))); congruence.
Qed.

(** [socket.recv(k)] on a stream of nonempty segments, [k > 0]: a
    nonempty prefix of the stream, and the segments left stay nonempty. *)
Lemma socket_recv_nonempty (k : nat) (c : conn) :
  (0 < k)%nat -> Forall (fun seg => seg <> []) (inbox c) ->
  exists x inb1,
    socket_recv k c = (Ok x, mkConn (version c) (sent c) inb1)
    /\ concat (inbox c) = x ++ concat inb1
    /\ (inbox c = [] -> x = [] /\ inb1 = [])
    /\ (inbox c <> [] -> (0 < length x <= k)%nat)
    /\ Forall (fun seg => seg <> []) inb1.
Proof.
  intros Hk Hne. unfold socket_recv. destruct c as [v s [|seg rest]]; cbn [inbox version sent].
  - exists [], []. refine (conj eq_refl (conj eq_refl (conj _ (conj _ (Forall_nil _))))).
    + auto.
    + congruence.
  - inversion Hne as [|? ? Hseg Hrest]; subst.
    exists (firstn k seg), (if (k <? length seg)%nat then skipn k seg :: rest else rest).
    refine (conj eq_refl _).
    destruct (k <? length seg)%nat eqn:Ek.
    + apply Nat.ltb_lt in Ek. refine (conj _ (conj _ (conj _ _))).
      * cbn [concat]. rewrite app_assoc, firstn_skipn. reflexivity.
      * discriminate.
      * intros _. rewrite length_firstn. destruct seg; [congruence|cbn [length]; lia].
      * constructor; [|exact Hrest]. intros E.
        apply (f_equal (@length byte)) in E. rewrite length_skipn in E. cbn in E. lia.
    + apply Nat.ltb_ge in Ek. rewrite firstn_all2 by lia.
      refine (conj eq_refl (conj _ (conj _ Hrest))); [discriminate|].
      intros _. destruct seg; [congruence|cbn [length] in *; lia].
Qed.

(** The exact loop of [recv] over a stream of nonempty segments. *)
Lemma recv_loop_exact (fuel n : nat) (data : bytes) (c : conn) :
  Forall (fun seg => seg <> []) (inbox c) -> (n - length data <= fuel)%nat ->
  let k := (n - length data)%nat in
  if (k <=? length (concat (inbox c)))%nat then
    exists inb, recv_loop fuel n data c
      = (Ok (data ++ firstn k (concat (inbox c))), mkConn (version c) (sent c) inb)
    /\ concat inb = skipn k (concat (inbox c))
    /\ Forall (fun seg => seg <> []) inb
  else recv_loop fuel n data c = (Err closed_error, mkConn (version c) (sent c) []).
Proof.
  revert data c. induction fuel as [|f IH]; intros data c Hne Hf k.
  - assert (Hk : k = 0%nat) by (unfold k; lia). rewrite Hk.
    replace (0 <=? _)%nat with true by reflexivity. exists (inbox c).
    rewrite recv_loop_done by (unfold k in Hk; lia).
    destruct c; cbn. rewrite app_nil_r. auto.
  - cbn [recv_loop]. destruct (length data <? n)%nat eqn:En.
    2:{ apply Nat.ltb_ge in En. assert (Hk : k = 0%nat) by (unfold k; lia). rewrite Hk.
        replace (0 <=? _)%nat with true by reflexivity. exists (inbox c).
        destruct c; cbn. rewrite app_nil_r. auto. }
    apply Nat.ltb_lt in En.
    destruct (socket_recv_nonempty k c ltac:(unfold k; lia) Hne)
      as [x [inb1 [Hs [Hcat [Hnil [Hlen Hne']]]]]].
    unfold cbind. fold k. rewrite Hs.
    destruct (inbox c) as [|seg rest] eqn:Ei.
    + destruct (Hnil eq_refl) as [-> ->].
      cbn [length concat]. replace (k <=? 0)%nat with false by (symmetry; apply Nat.leb_gt; unfold k; lia).
      reflexivity.
    + assert (Hx : (0 < length x <= k)%nat) by (apply Hlen; congruence).
      replace (length x =? 0)%nat with false by (symmetry; apply Nat.eqb_neq; lia).
      specialize (IH (data ++ x) (mkConn (version c) (sent c) inb1) Hne').
      cbn [inbox version sent] in IH. rewrite length_app in IH.
      specialize (IH ltac:(unfold k in *; lia)).
      replace (n - (length data + length x))%nat with (k - length x)%nat in IH by (unfold k; lia).
      rewrite Hcat, length_app.
      destruct (k - length x <=? length (concat inb1))%nat eqn:E1.
      * apply Nat.leb_le in E1.
        replace (k <=? length x + length (concat inb1))%nat with true
          by (symmetry; apply Nat.leb_le; lia).
        destruct IH as [inb [Hr [Hc Hn]]]. exists inb. rewrite Hr.
        rewrite firstn_app, skipn_app, (firstn_all2 x), (skipn_all2 x) by lia.
        rewrite app_assoc. auto.
      * apply Nat.leb_gt in E1.
        replace (k <=? length x + length (concat inb1))%nat with false
          by (symmetry; apply Nat.leb_gt; lia).
        exact IH.
Qed.

(** [MoiraClient.recv(n)] over a stream whose segments are nonempty:
    when the stream holds [n] bytes, [recv] returns its first [n] bytes
    and leaves the rest of the stream, whatever the segment boundaries;
    otherwise it raises the [ConnectionError] of a closed connection
    after draining the stream.  Nothing is sent and [version] is kept. *)
Theorem recv_exact (n : nat) (c : conn) :
  Forall (fun seg => seg <> []) (inbox c) ->
  if (n <=? length (concat (inbox c)))%nat then
    exists inb, recv n c = (Ok (firstn n (concat (inbox c))), mkConn (version c) (sent c) inb)
    /\ concat inb = skipn n (concat (inbox c))
    /\ Forall (fun seg => seg <> []) inb
  else recv n c = (Err closed_error, mkConn (version c) (sent c) []).
Proof.
  intros Hne. pose proof (recv_loop_exact n n [] c Hne ltac:(cbn; lia)) as H.
  cbn [length] in H. rewrite Nat.sub_0_r in H. exact H.
Qed.

Lemma recv_exact_witness :
  Forall (fun seg => seg <> []) (inbox (mkConn None [] [[x01; x02]; [x03]; [x04; x05]]))
  /\ (exists inb, recv 4 (mkConn None [] [[x01; x02]; [x03]; [x04; x05]])
        = (Ok [x01; x02; x03; x04], mkConn None [] inb)
      /\ concat inb = [x05] /\ Forall (fun seg => seg <> []) inb).
Proof.
  assert (Hne : Forall (fun seg => seg <> []) (inbox (mkConn None [] [[x01; x02]; [x03]; [x04; x05]])))
    by (repeat constructor; discriminate).
  split; [exact Hne|].
  exact (recv_exact 4 (mkConn None [] [[x01; x02]; [x03]; [x04; x05]]) Hne).
Defined.

(* ================================================================== *)
(** ** The frame [Packet.build] writes, and when it fails *)

Lemma build_field_spec (item : bytes) :
  build_field item
  = if Z.of_nat (length (item ++ [x00])) <? 2^32 then Ok (enc_field item) else Err StructError.
Proof.
  unfold build_field, _fmt_u32, pack_u32, bind.
  replace (0 <=? Z.of_nat (length (item ++ [x00]))) with true by (symmetry; apply Z.leb_le; lia).
  cbn [andb]. destruct (_ <? 2^32); reflexivity.
Qed.

Lemma build_body_spec (items : list bytes) (acc : bytes) :
  build_body items acc
  = if forallb (fun i => Z.of_nat (length (i ++ [x00])) <? 2^32) items
    then Ok (acc ++ concat (map enc_field items)) else Err StructError.
Proof.
  revert acc. induction items as [|item items IH]; intros acc; cbn [build_body forallb].
  - rewrite app_nil_r. reflexivity.
  - rewrite build_field_spec. destruct (_ <? 2^32); cbn [bind andb]; [|reflexivity].
    rewrite IH. destruct (forallb (fun i => Z.of_nat (length (i ++ [x00])) <? 2^32) items);
      [|reflexivity].
    cbn [map concat]. rewrite app_assoc. reflexivity.
Qed.

Lemma length_enc_field_ge (item : bytes) :
  (length (item ++ [x00]) + 4 <= length (enc_field item))%nat.
Proof.
  rewrite length_enc_field. pose proof (length_pad4_ge (item ++ [x00])). lia.
Qed.

Lemma length_items_le_body (items : list bytes) :
  (length items <= length (concat (map enc_field items)))%nat.
Proof.
  induction items as [|item items IH]; [cbn; lia|].
  cbn [map concat length]. rewrite length_app.
  pose proof (length_enc_field_ge item) as H. rewrite length_app in H. cbn [length] in H. lia.
Qed.

Lemma length_enc_field_le_body (item : bytes) (items : list bytes) :
  In item items -> (length (enc_field item) <= length (concat (map enc_field items)))%nat.
Proof.
  induction items as [|i items IH]; intros Hin; [destruct Hin|].
  cbn [map concat]. rewrite length_app. destruct Hin as [->|Hin]; [lia|].
  specialize (IH Hin). lia.
Qed.

(** The frame [build] returns, word by word. *)
Lemma build_shape (op : Z) (items : list bytes) (b : bytes) :
  build op items = Ok b ->
  b = be32 (Z.of_nat (length b)) ++ be32 2 ++ be32 (op mod 2^32)
      ++ be32 (Z.of_nat (length items)) ++ concat (map enc_field items)
  /\ length b = (16 + length (concat (map enc_field items)))%nat
  /\ Z.of_nat (length b) < 2^32 /\ - 2^31 <= op < 2^31
  /\ Z.of_nat (length items) < 2^32.
Proof.
  unfold build, bind.
  destruct (build_body items []) as [body|e] eqn:Eb; [|discriminate].
  apply build_body_ok in Eb as [_ Hbody]. cbn [app] in Hbody. subst body.
  destruct (pack_u32 (16 + _)) as [h1|e] eqn:E1; [|discriminate].
  destruct (pack_u32 MOIRA_PROTOCOL_VERSION) as [h2|e] eqn:E2; [|discriminate].
  destruct (pack_i32 op) as [h3|e] eqn:E3; [|discriminate].
  destruct (pack_u32 (Z.of_nat (length items))) as [h4|e] eqn:E4; [|discriminate].
  intros H; inversion H; subst b; clear H.
  apply pack_u32_ok in E1 as [R1 ->]. apply pack_u32_ok in E2 as [R2 ->].
  apply pack_i32_ok in E3 as [R3 ->]. apply pack_u32_ok in E4 as [R4 ->].
  rewrite !length_app, !length_be32.
  replace (Z.of_nat (4 + (4 + (4 + (4 + length (concat (map enc_field items)))))))
    with (16 + Z.of_nat (length (concat (map enc_field items)))) by lia.
  refine (conj eq_refl (conj _ (conj _ (conj R3 _)))); lia.
Qed.

(** [Packet.build]: the frame starts with a 16-byte header holding its
    own length (a multiple of four below [2^32]), the protocol version
    2, the opcode (read back as a signed word) and the number of fields;
    the fields follow, each as its length with the terminating zero, then
    the zero-terminated item padded to four bytes. *)
Theorem build_frame_layout (op : Z) (items : list bytes) (b : bytes) :
  build op items = Ok b ->
  hdr_length b = Z.of_nat (length b) /\ (length b mod 4 = 0)%nat
  /\ hdr_version b = MOIRA_PROTOCOL_VERSION /\ hdr_status b = op
  /\ hdr_argc b = Z.of_nat (length items)
  /\ skipn 16 b = concat (map enc_field items).
Proof.
  intros Hb. destruct (build_shape op items b Hb) as [Eb [Hlen [Hl [Hop Hn]]]].
  assert (F1 : firstn 4 b = be32 (Z.of_nat (length b))) by (rewrite Eb at 1; apply firstn_be32).
  assert (F2 : firstn 4 (skipn 4 b) = be32 2) by (rewrite Eb at 1; reflexivity).
  assert (F3 : firstn 4 (skipn 8 b) = be32 (op mod 2^32)) by (rewrite Eb at 1; reflexivity).
  assert (F4 : firstn 4 (skipn 12 b) = be32 (Z.of_nat (length items)))
    by (rewrite Eb at 1; reflexivity).
  assert (F5 : skipn 16 b = concat (map enc_field items)) by (rewrite Eb at 1; reflexivity).
  unfold hdr_length, hdr_version, hdr_status, hdr_argc. rewrite F1, F2, F3, F4, F5.
  rewrite !unbe32_be32 by (try apply Z.mod_pos_bound; lia).
  refine (conj eq_refl (conj _ (conj eq_refl (conj _ (conj eq_refl eq_refl))))).
  - rewrite Hlen. pose proof (length_concat_enc_mod items). rewrite Nat.Div0.add_mod.
    rewrite H. reflexivity.
  - destruct (Z_lt_le_dec op 0).
    + rewrite Z.mod_eq by lia.
      replace (op / 2^32) with (-1) by (apply Z.div_unique with (op + 2^32); lia).
      replace (op - 2 ^ 32 * -1 <? 2 ^ 31) with false by (symmetry; apply Z.ltb_ge; lia). lia.
    + rewrite Z.mod_small by lia.
      replace (op <? 2 ^ 31) with true by (symmetry; apply Z.ltb_lt; lia). reflexivity.
Qed.

Lemma build_frame_layout_witness :
  build 5 [[x61]] = Ok [x00; x00; x00; x18; x00; x00; x00; x02; x00; x00; x00; x05;
                        x00; x00; x00; x01; x00; x00; x00; x02; x61; x00; x00; x00]
  /\ hdr_length [x00; x00; x00; x18; x00; x00; x00; x02; x00; x00; x00; x05;
                 x00; x00; x00; x01; x00; x00; x00; x02; x61; x00; x00; x00] = 24.
Proof.
  assert (E : build 5 [[x61]] = Ok [x00; x00; x00; x18; x00; x00; x00; x02; x00; x00; x00; x05;
                        x00; x00; x00; x01; x00; x00; x00; x02; x61; x00; x00; x00])
    by (vm_compute; reflexivity).
  split; [exact E|]. exact (proj1 (build_frame_layout 5 [[x61]] _ E)).
Defined.

Lemma pack_u32_in_range (n : Z) : 0 <= n < 2^32 -> pack_u32 n = Ok (be32 n).
Proof.
  intros Hn. unfold pack_u32.
  replace ((0 <=? n) && (n <? 2^32)) with true
    by (symmetry; apply andb_true_iff; split; [apply Z.leb_le|apply Z.ltb_lt]; lia).
  reflexivity.
Qed.

Lemma pack_u32_out (n : Z) : ~ (0 <= n < 2^32) -> pack_u32 n = Err StructError.
Proof.
  intros Hn. unfold pack_u32.
  destruct (0 <=? n) eqn:E1, (n <? 2^32) eqn:E2; try reflexivity.
  apply Z.leb_le in E1. apply Z.ltb_lt in E2. lia.
Qed.

Lemma pack_i32_out (n : Z) : ~ (- 2^31 <= n < 2^31) -> pack_i32 n = Err StructError.
Proof.
  intros Hn. unfold pack_i32.
  destruct (- 2^31 <=? n) eqn:E1, (n <? 2^31) eqn:E2; try reflexivity.
  apply Z.leb_le in E1. apply Z.ltb_lt in E2. lia.
Qed.

(** [Packet.build] raises [struct.error], and nothing else, exactly when
    the opcode is outside the signed 32-bit range or the frame would
    reach [2^32] bytes (a field too long for its length word included). *)
Theorem build_error (op : Z) (items : list bytes) :
  (forall e, build op items = Err e -> e = StructError)
  /\ ((exists e, build op items = Err e)
      <-> ~ (- 2^31 <= op < 2^31)
          \/ 2^32 <= 16 + Z.of_nat (length (concat (map enc_field items)))).
Proof.
  unfold build. rewrite build_body_spec. cbn [app].
  pose proof (length_items_le_body items) as HL.
  destruct (forallb (fun i => Z.of_nat (length (i ++ [x00])) <? 2^32) items) eqn:Ef;
    cbn [bind].
  2:{ split; [intros e H; inversion H; reflexivity|].
      split; [intros _|intros _; eexists; reflexivity]. right.
      assert (Hi : exists i, In i items /\ 2^32 <= Z.of_nat (length (i ++ [x00]))).
      { clear HL. induction items as [|i items IH]; [discriminate|].
        cbn [forallb] in Ef. apply andb_false_iff in Ef as [E|E].
        - exists i. split; [left; reflexivity|]. apply Z.ltb_ge in E. exact E.
        - destruct (IH E) as [j [Hj Hl]]. exists j. split; [right; exact Hj|exact Hl]. }
      destruct Hi as [i [Hi Hl]].
      pose proof (length_enc_field_le_body i items Hi).
      pose proof (length_enc_field_ge i). lia. }
  set (L := Z.of_nat (length (concat (map enc_field items)))) in *.
  destruct (Z_lt_le_dec (16 + L) (2^32)) as [H1|H1].
  - rewrite (pack_u32_in_range (16 + L)) by lia. cbn [bind].
    rewrite (pack_u32_in_range MOIRA_PROTOCOL_VERSION) by (unfold MOIRA_PROTOCOL_VERSION; lia).
    cbn [bind].
    destruct (Z_le_gt_dec (- 2^31) op) as [H3|H3]; [destruct (Z_lt_le_dec op (2^31)) as [H3'|H3']|].
    + rewrite pack_i32_in_range by lia. cbn [bind].
      rewrite (pack_u32_in_range (Z.of_nat (length items))) by (unfold L in *; lia).
      cbn [bind]. split; [intros e H; discriminate|].
      split; [intros [e H]; discriminate|]. intros [H|H]; lia.
    + rewrite pack_i32_out by lia. cbn [bind].
      split; [intros e H; inversion H; reflexivity|].
      split; [intros _; left; lia|intros _; eexists; reflexivity].
    + rewrite pack_i32_out by lia. cbn [bind].
      split; [intros e H; inversion H; reflexivity|].
      split; [intros _; left; lia|intros _; eexists; reflexivity].
  - rewrite (pack_u32_out (16 + L)) by lia. cbn [bind].
    split; [intros e H; inversion H; reflexivity|].
    split; [intros _; right; lia|intros _; eexists; reflexivity].
Qed.

(* ================================================================== *)
(** ** [_fmt_u32], [_read_u32] and what [Packet.parse] returns *)

(** [_fmt_u32] writes four bytes that [_read_u32] reads back, whatever
    follows them, and raises [struct.error] outside [0, 2^32);
    [_read_u32] raises [struct.error] on fewer than four bytes and
    ignores the bytes after the fourth. *)
Theorem fmt_read_u32 (n : Z) (s rest : bytes) :
  match _fmt_u32 n with
  | Ok b => length b = 4%nat /\ _read_u32 (b ++ rest) = Ok n
  | Err e => e = StructError /\ ~ (0 <= n < 2^32)
  end
  /\ _read_u32 s = if (length s <? 4)%nat then Err StructError else Ok (unbe32 (firstn 4 s)).
Proof.
  split.
  - unfold _fmt_u32. destruct (Z_le_gt_dec 0 n); [destruct (Z_lt_le_dec n (2^32))|].
    + rewrite pack_u32_in_range by lia. split; [apply length_be32|].
      unfold _read_u32. rewrite firstn_be32. apply unpack_u32_be32. lia.
    + rewrite pack_u32_out by lia. split; [reflexivity|lia].
    + rewrite pack_u32_out by lia. split; [reflexivity|lia].
  - unfold _read_u32, unpack_u32. rewrite length_firstn.
    destruct (length s <? 4)%nat eqn:E.
    + apply Nat.ltb_lt in E. replace (Nat.min 4 (length s) =? 4)%nat with false
        by (symmetry; apply Nat.eqb_neq; lia). reflexivity.
    + apply Nat.ltb_ge in E. replace (Nat.min 4 (length s) =? 4)%nat with true
        by (symmetry; apply Nat.eqb_eq; lia). reflexivity.
Qed.

Lemma lstrip0_idem (s : bytes) : lstrip0 (lstrip0 s) = lstrip0 s.
Proof.
  induction s as [|b s IH]; [reflexivity|].
  destruct b; try reflexivity. exact IH.
Qed.

Lemma rstrip0_idem (s : bytes) : rstrip0 (rstrip0 s) = rstrip0 s.
Proof. unfold rstrip0. rewrite rev_involutive, lstrip0_idem. reflexivity. Qed.

Lemma unbe32_acc_nonneg (s : bytes) (acc : Z) :
  0 <= acc -> 0 <= fold_left (fun acc b => acc * 256 + Z_of_byte b) s acc.
Proof.
  revert acc. induction s as [|b s IH]; intros acc Hacc; [exact Hacc|].
  cbn [fold_left]. apply IH. pose proof (Z_of_byte_bound b). lia.
Qed.

Lemma unbe32_nonneg (s : bytes) : 0 <= unbe32 s.
Proof. apply unbe32_acc_nonneg. lia. Qed.

(** The field loop returns [argc] more fields, each with no trailing zero. *)
Lemma parse_fields_shape (n : nat) (body : bytes) (acc fs : list bytes) (rest : bytes) :
  parse_fields n body acc = Ok (fs, rest) ->
  length fs = (length acc + n)%nat
  /\ (Forall (fun f => rstrip0 f = f) acc -> Forall (fun f => rstrip0 f = f) fs).
Proof.
  revert body acc. induction n as [|n IH]; intros body acc; cbn [parse_fields].
  - intros H; inversion H; subst. split; [lia|auto].
  - destruct (length body <? 4)%nat; [discriminate|].
    destruct (_read_u32 body) as [fl|e]; cbn [bind]; [|discriminate].
    destruct (fl + 4 >? Z.of_nat (length body)); [discriminate|].
    intros H. apply IH in H as [Hl Hf]. rewrite length_app in Hl. cbn [length] in Hl.
    split; [lia|]. intros Ha. apply Hf. apply Forall_app. split; [exact Ha|].
    constructor; [apply rstrip0_idem|constructor].
Qed.

(** What a successful [Packet.parse] guarantees: the buffer holds at
    least the 16-byte header, whose length word (a multiple of four) is
    [raw_len], whose version is 2, whose status is [opcode] and whose
    argument count is the number of fields; no field ends in a zero
    byte. *)
Theorem parse_ok_shape (b : bytes) (p : packet) :
  parse b = Ok p ->
  (16 <= length b)%nat /\ raw_len p = hdr_length b /\ raw_len p mod 4 = 0
  /\ hdr_version b = MOIRA_PROTOCOL_VERSION /\ opcode p = hdr_status b
  /\ Z.of_nat (length (data p)) = hdr_argc b
  /\ Forall (fun f => rstrip0 f = f) (data p).
Proof.
  intros Hp.
  assert (H16 : (16 <= length b)%nat).
  { unfold parse in Hp. rewrite length_firstn in Hp.
    destruct (Nat.min 16 (length b) =? 16)%nat eqn:E; [|discriminate].
    apply Nat.eqb_eq in E. lia. }
  rewrite parse_header in Hp by exact H16.
  destruct (negb (hdr_length b mod 4 =? 0)) eqn:E1; [discriminate|].
  destruct (negb (hdr_version b =? 2)) eqn:E2; [discriminate|].
  apply negb_false_iff, Z.eqb_eq in E1, E2.
  cbn [bind] in Hp.
  destruct (parse_fields _ _ []) as [[fs rest]|e] eqn:Ef; [|discriminate].
  cbn [bind] in Hp. cbv beta iota in Hp.
  destruct (0 <? length rest)%nat; [discriminate|].
  injection Hp as <-. cbn [raw_len opcode data].
  apply parse_fields_shape in Ef as [Hl Hf]. cbn [length] in Hl.
  refine (conj H16 (conj eq_refl (conj E1 (conj E2 (conj eq_refl (conj _ (Hf (Forall_nil _)))))))).
  rewrite Hl. apply Z2Nat.id. apply unbe32_nonneg.
Qed.

Lemma parse_ok_shape_witness :
  parse [x00; x00; x00; x18; x00; x00; x00; x02; x00; x00; x00; x07;
         x00; x00; x00; x01; x00; x00; x00; x02; x61; x00; x00; x00]
    = Ok (mkPacket 24 7 [[x61]])
  /\ Z.of_nat (length (data (mkPacket 24 7 [[x61]])))
     = hdr_argc [x00; x00; x00; x18; x00; x00; x00; x02; x00; x00; x00; x07;
                 x00; x00; x00; x01; x00; x00; x00; x02; x61; x00; x00; x00].
Proof.
  assert (E : parse [x00; x00; x00; x18; x00; x00; x00; x02; x00; x00; x00; x07;
                     x00; x00; x00; x01; x00; x00; x00; x02; x61; x00; x00; x00]
              = Ok (mkPacket 24 7 [[x61]])) by (vm_compute; reflexivity).
  split; [exact E|].
  exact (proj1 (proj2 (proj2 (proj2 (proj2 (proj2 (parse_ok_shape _ _ E))))))).
Defined.

(* ================================================================== *)
(** ** One frame on the stream *)

(** The header words of a built frame, whatever follows it. *)
Lemma build_hdr_app (op : Z) (items : list bytes) (b extra : bytes) :
  build op items = Ok b ->
  hdr_length (b ++ extra) = Z.of_nat (length b)
  /\ hdr_version (b ++ extra) = 2 /\ hdr_status (b ++ extra) = op
  /\ hdr_argc (b ++ extra) = Z.of_nat (length items)
  /\ skipn 16 (b ++ extra) = concat (map enc_field items) ++ extra
  /\ firstn 4 (b ++ extra) = be32 (Z.of_nat (length b))
  /\ (length b mod 4 = 0)%nat /\ (16 <= length b)%nat /\ Z.of_nat (length b) < 2^32.
Proof.
  intros Hb. destruct (build_shape op items b Hb) as [Eb [Hlen [Hl [Hop Hn]]]].
  assert (F : forall y, b ++ y = be32 (Z.of_nat (length b)) ++ be32 2 ++ be32 (op mod 2^32)
               ++ be32 (Z.of_nat (length items)) ++ concat (map enc_field items) ++ y).
  { intros y. rewrite Eb at 1. rewrite <- !app_assoc. reflexivity. }
  assert (F1 : firstn 4 (b ++ extra) = be32 (Z.of_nat (length b)))
    by (rewrite F; apply firstn_be32).
  assert (F2 : firstn 4 (skipn 4 (b ++ extra)) = be32 2) by (rewrite F; reflexivity).
  assert (F3 : firstn 4 (skipn 8 (b ++ extra)) = be32 (op mod 2^32)) by (rewrite F; reflexivity).
  assert (F4 : firstn 4 (skipn 12 (b ++ extra)) = be32 (Z.of_nat (length items)))
    by (rewrite F; reflexivity).
  assert (F5 : skipn 16 (b ++ extra) = concat (map enc_field items) ++ extra)
    by (rewrite F; reflexivity).
  unfold hdr_length, hdr_version, hdr_status, hdr_argc. rewrite F1, F2, F3, F4, F5.
  rewrite !unbe32_be32 by (try apply Z.mod_pos_bound; lia).
  refine (conj eq_refl (conj eq_refl (conj _ (conj eq_refl (conj eq_refl (conj eq_refl (conj _ (conj _ Hl)))))))).
  - destruct (Z_lt_le_dec op 0).
    + rewrite Z.mod_eq by lia.
      replace (op / 2^32) with (-1) by (apply Z.div_unique with (op + 2^32); lia).
      replace (op - 2 ^ 32 * -1 <? 2 ^ 31) with false by (symmetry; apply Z.ltb_ge; lia). lia.
    + rewrite Z.mod_small by lia.
      replace (op <? 2 ^ 31) with true by (symmetry; apply Z.ltb_lt; lia). reflexivity.
  - rewrite Hlen. pose proof (length_concat_enc_mod items) as H. rewrite Nat.Div0.add_mod.
    rewrite H. reflexivity.
  - lia.
Qed.

(** [Packet.parse] takes exactly one frame: a built frame followed by
    any further bytes is refused with the out-of-field [ConnectionError]
    (the header's length word is not used to cut the buffer). *)
Theorem parse_rejects_trailing (op : Z) (items : list bytes) (b extra : bytes) :
  build op items = Ok b -> extra <> [] ->
  parse (b ++ extra)
  = Err (ConnectionError "Moira has sent package with out-of-field information").
Proof.
  intros Hb He.
  destruct (build_hdr_app op items b extra Hb) as [H1 [H2 [H3 [H4 [H5 [_ [Hm [H16 _]]]]]]]].
  rewrite parse_header by (rewrite length_app; lia).
  rewrite H1, H2, H4, H5.
  replace (Z.of_nat (length b) mod 4 =? 0) with true.
  2:{ symmetry. apply Z.eqb_eq. apply (f_equal Z.of_nat) in Hm.
      rewrite Nat2Z.inj_mod in Hm. exact Hm. }
  cbn [negb Z.eqb Pos.eqb]. rewrite Nat2Z.id.
  unfold build, bind in Hb.
  destruct (build_body items []) as [body|e] eqn:Eb; [|discriminate].
  apply build_body_ok in Eb as [Hf _].
  rewrite parse_fields_enc by exact Hf. cbn [bind].
  destruct extra as [|x extra]; [congruence|]. reflexivity.
Qed.

Lemma parse_rejects_trailing_witness :
  build 5 [[x61]] = Ok [x00; x00; x00; x18; x00; x00; x00; x02; x00; x00; x00; x05;
                        x00; x00; x00; x01; x00; x00; x00; x02; x61; x00; x00; x00]
  /\ parse ([x00; x00; x00; x18; x00; x00; x00; x02; x00; x00; x00; x05;
             x00; x00; x00; x01; x00; x00; x00; x02; x61; x00; x00; x00] ++ [x00; x00; x00; x00])
     = Err (ConnectionError "Moira has sent package with out-of-field information").
Proof.
  assert (E : build 5 [[x61]] = Ok [x00; x00; x00; x18; x00; x00; x00; x02; x00; x00; x00; x05;
                        x00; x00; x00; x01; x00; x00; x00; x02; x61; x00; x00; x00])
    by (vm_compute; reflexivity).
  split; [exact E|]. apply (parse_rejects_trailing 5 [[x61]] _ _ E). discriminate.
Defined.

(** [recvPacket] on a stream that starts with a built frame. *)
Lemma recvPacket_frame (op : Z) (items : list bytes) (b rest : bytes) (c : conn) :
  build op items = Ok b ->
  Forall (fun seg => seg <> []) (inbox c) -> concat (inbox c) = b ++ rest ->
  exists inb,
    recvPacket c = (Ok (mkPacket (Z.of_nat (length b)) op (map rstrip0 items)),
                    mkConn (version c) (sent c) inb)
    /\ concat inb = rest /\ Forall (fun seg => seg <> []) inb.
Proof.
  intros Hb Hne Hs.
  destruct (build_hdr_app op items b rest Hb) as [_ [_ [_ [_ [_ [F1 [_ [H16 Hl]]]]]]]].
  unfold recvPacket, recv.
  pose proof (recv_loop_exact 4 4 [] c Hne ltac:(lia)) as R1. cbn [length] in R1.
  rewrite Hs, length_app in R1.
  replace (4 - 0 <=? length b + length rest)%nat with true in R1
    by (symmetry; apply Nat.leb_le; lia).
  destruct R1 as [inb1 [R1 [C1 N1]]]. rewrite Nat.sub_0_r, F1 in R1. cbn [app] in R1.
  unfold cbind. rewrite R1. unfold clift at 1.
  unfold _read_u32 at 1.
  rewrite (firstn_all2 (be32 (Z.of_nat (length b)))) by (rewrite length_be32; lia).
  rewrite unpack_u32_be32 by lia.
  replace (Z.of_nat (length b) <? 4) with false by (symmetry; apply Z.ltb_ge; lia).
  replace (Z.to_nat (Z.of_nat (length b) - 4)) with (length b - 4)%nat by lia.
  assert (Hs1 : skipn 4 (b ++ rest) = skipn 4 b ++ rest).
  { rewrite skipn_app. replace (4 - length b)%nat with 0%nat by lia. reflexivity. }
  rewrite Nat.sub_0_r, Hs1 in C1.
  pose proof (recv_loop_exact (length b - 4) (length b - 4) []
                (mkConn (version c) (sent c) inb1) N1 ltac:(cbn; lia)) as R2.
  cbn [length inbox version sent] in R2. rewrite C1, length_app, length_skipn, Nat.sub_0_r in R2.
  replace (length b - 4 <=? length b - 4 + length rest)%nat with true in R2
    by (symmetry; apply Nat.leb_le; lia).
  destruct R2 as [inb2 [R2 [C2 N2]]]. rewrite R2.
  assert (Hf : firstn (length b - 4) (skipn 4 b ++ rest) = skipn 4 b).
  { rewrite firstn_app, length_skipn, Nat.sub_diag, firstn_O, app_nil_r.
    apply firstn_all2. rewrite length_skipn. lia. }
  assert (Hk : skipn (length b - 4) (skipn 4 b ++ rest) = rest).
  { rewrite skipn_app, length_skipn, Nat.sub_diag, skipn_O, skipn_all2; [reflexivity|].
    rewrite length_skipn. lia. }
  rewrite Hf in *. rewrite Hk in C2. cbn [app].
  assert (Eb : be32 (Z.of_nat (length b)) ++ skipn 4 b = b).
  { rewrite <- (firstn_skipn 4 b) at 3. f_equal.
    pose proof (build_hdr_app op items b [] Hb) as [_ [_ [_ [_ [_ [G _]]]]]].
    rewrite app_nil_r in G. symmetry. exact G. }
  unfold clift. rewrite Eb, (parse_build op items b Hb).
  exists inb2. auto.
Qed.

(** [sendPacket] and [recvPacket] agree: when the stream starts with the
    frame [Packet.build] writes for an opcode and fields, however it is
    cut into segments, [recvPacket] returns the packet with that opcode,
    the frame's length and the fields without their trailing zeros, and
    leaves exactly the bytes after the frame. *)
Theorem recvPacket_build (op : Z) (items : list bytes) (b rest : bytes) (c : conn) :
  build op items = Ok b ->
  Forall (fun seg => seg <> []) (inbox c) -> concat (inbox c) = b ++ rest ->
  exists inb,
    recvPacket c = (Ok (mkPacket (Z.of_nat (length b)) op (map rstrip0 items)),
                    mkConn (version c) (sent c) inb)
    /\ concat inb = rest.
Proof.
  intros Hb Hne Hs. destruct (recvPacket_frame op items b rest c Hb Hne Hs) as [inb [H1 [H2 _]]].
  exists inb. auto.
Qed.

Lemma recvPacket_build_witness :
  build 5 [[x61]] = Ok [x00; x00; x00; x18; x00; x00; x00; x02; x00; x00; x00; x05;
                        x00; x00; x00; x01; x00; x00; x00; x02; x61; x00; x00; x00]
  /\ Forall (fun seg => seg <> [])
       (inbox (mkConn None [] [[x00; x00]; [x00; x18; x00; x00; x00; x02; x00; x00; x00; x05;
                               x00; x00; x00; x01; x00; x00; x00; x02; x61; x00; x00; x00; x09]]))
  /\ exists inb,
       recvPacket (mkConn None [] [[x00; x00]; [x00; x18; x00; x00; x00; x02; x00; x00; x00; x05;
                                   x00; x00; x00; x01; x00; x00; x00; x02; x61; x00; x00; x00; x09]])
       = (Ok (mkPacket 24 5 [[x61]]), mkConn None [] inb)
       /\ concat inb = [x09].
Proof.
  assert (E : build 5 [[x61]] = Ok [x00; x00; x00; x18; x00; x00; x00; x02; x00; x00; x00; x05;
                        x00; x00; x00; x01; x00; x00; x00; x02; x61; x00; x00; x00])
    by (vm_compute; reflexivity).
  assert (N : Forall (fun seg => seg <> [])
       (inbox (mkConn None [] [[x00; x00]; [x00; x18; x00; x00; x00; x02; x00; x00; x00; x05;
                               x00; x00; x00; x01; x00; x00; x00; x02; x61; x00; x00; x00; x09]])))
    by (repeat constructor; discriminate).
  refine (conj E (conj N _)).
  exact (recvPacket_build 5 [[x61]] _ [x09] _ E N eq_refl).
Defined.

(** A successful [recvPacket], however the stream is cut into segments,
    consumes exactly [raw_len] bytes from the front of the stream, at
    least the 16 of the header, and returns their [Packet.parse]; it
    sends nothing and keeps [version]. *)
Theorem recvPacket_consumes (c : conn) (p : packet) (c' : conn) :
  recvPacket c = (Ok p, c') ->
  exists t, concat (inbox c) = t ++ concat (inbox c') /\ parse t = Ok p
  /\ Z.of_nat (length t) = raw_len p /\ (16 <= length t)%nat
  /\ version c' = version c /\ sent c' = sent c.
Proof. apply recvPacket_consumes_aux. Qed.

Lemma recvPacket_consumes_witness :
  recvPacket (mkConn None [] [[x00; x00; x00; x10; x00; x00; x00; x02];
                              [x00; x00; x00; x07; x00; x00; x00; x00; x05]])
  = (Ok (mkPacket 16 7 []), mkConn None [] [[x05]])
  /\ exists t, concat [[x00; x00; x00; x10; x00; x00; x00; x02];
                       [x00; x00; x00; x07; x00; x00; x00; x00; x05]] = t ++ concat [[x05]]
     /\ parse t = Ok (mkPacket 16 7 []) /\ Z.of_nat (length t) = 16
     /\ (16 <= length t)%nat /\ @None Z = None /\ @nil bytes = [].
Proof.
  assert (E : recvPacket (mkConn None [] [[x00; x00; x00; x10; x00; x00; x00; x02];
                              [x00; x00; x00; x07; x00; x00; x00; x00; x05]])
              = (Ok (mkPacket 16 7 []), mkConn None [] [[x05]])) by (vm_compute; reflexivity).
  split; [exact E|]. exact (recvPacket_consumes _ _ _ E).
Defined.

(* ================================================================== *)
(** ** The reply loops of [query] and [checkMOTD] *)

(** The bound [stream_fuel] puts on the loops never shows: with any
    fuel above the number of bytes left, the loops behave the same. *)
Lemma query_loop_fuel `{MoiraConstants} (f : nat) (r : packet) (acc : list (list bytes))
    (c : conn) :
  (length (concat (inbox c)) < f)%nat -> query_loop f r acc c = query_loop (S f) r acc c.
Proof.
  revert r acc c. induction f as [|f IH]; intros r acc c Hf; [lia|].
  cbn [query_loop]. destruct (opcode r =? MR_MORE_DATA); [|reflexivity].
  unfold cbind. destruct (recvPacket c) as [[p|e] c'] eqn:E; [|reflexivity].
  apply recvPacket_consumes_aux in E. destruct E as [t [Ht [_ [_ [H16 _]]]]].
  rewrite Ht, length_app in Hf. specialize (IH p (acc ++ [data r]) c' ltac:(lia)).
  exact IH.
Qed.

Lemma motd_loop_fuel `{MoiraConstants} (f : nat) (r : packet) (motd : bytes) (c : conn) :
  (length (concat (inbox c)) < f)%nat -> motd_loop f r motd c = motd_loop (S f) r motd c.
Proof.
  revert r motd c. induction f as [|f IH]; intros r motd c Hf; [lia|].
  cbn [motd_loop]. destruct (opcode r =? MR_MORE_DATA); [|reflexivity].
  unfold cbind, clift. destruct (first_field r) as [line|e]; [|reflexivity].
  destruct (recvPacket c) as [[p|e] c'] eqn:E; [|reflexivity].
  apply recvPacket_consumes_aux in E. destruct E as [t [Ht [_ [_ [H16 _]]]]].
  rewrite Ht, length_app in Hf. exact (IH p (motd ++ line) c' ltac:(lia)).
Qed.

(** A frame has at least one byte, so there are no more frames than bytes. *)
Lemma frames_length `{MoiraConstants} (op : Z) (rows : list (list bytes)) (frames : list bytes) :
  Forall2 (fun r b => build op r = Ok b) rows frames ->
  (length rows <= length (concat frames))%nat.
Proof.
  induction 1 as [|r b rows frames Hb _ IH]; [cbn; lia|].
  destruct (build_shape _ _ _ Hb) as [_ [Hl _]].
  cbn [concat length]. rewrite length_app. lia.
Qed.

Lemma build_nonempty (op : Z) (items : list bytes) (b : bytes) :
  build op items = Ok b -> b <> [].
Proof.
  intros Hb ->. destruct (build_shape _ _ _ Hb) as [_ [Hl _]]. cbn [length] in Hl. lia.
Qed.

Lemma query_loop_frames `{MoiraConstants} (s : Z) (fs : list bytes) (fb rest : bytes) :
  build s fs = Ok fb -> s <> MR_MORE_DATA ->
  forall rows frames f p0 acc c,
  Forall2 (fun r b => build MR_MORE_DATA r = Ok b) rows frames ->
  Forall (fun seg => seg <> []) (inbox c) ->
  concat (inbox c) = concat frames ++ fb ++ rest ->
  (length rows < f)%nat -> opcode p0 = MR_MORE_DATA ->
  exists inb,
    query_loop f p0 acc c
    = ((if s =? MR_SUCCESS then Ok (acc ++ data p0 :: map (map rstrip0) rows)
        else Err (MoiraError s)),
       mkConn (version c) (sent c) inb)
    /\ concat inb = rest.
Proof.
  intros Hfb Hs rows frames f p0 acc c Hrf. revert f p0 acc c.
  induction Hrf as [|r b rows frames Hb _ IH]; intros f p0 acc c Hne Hc Hf Hp0.
  - destruct f as [|f]; [cbn in Hf; lia|].
    cbn [query_loop]. rewrite Hp0, Z.eqb_refl. unfold cbind.
    destruct (recvPacket_frame s fs fb rest c Hfb Hne Hc) as [inb [R [C _]]].
    rewrite R. exists inb. split; [|exact C].
    replace (s =? MR_MORE_DATA) with false by (symmetry; apply Z.eqb_neq; exact Hs).
    destruct f; cbn [query_loop opcode];
      replace (s =? MR_MORE_DATA) with false by (symmetry; apply Z.eqb_neq; exact Hs);
      destruct (s =? MR_SUCCESS); reflexivity.
  - destruct f as [|f]; [cbn in Hf; lia|].
    cbn [query_loop]. rewrite Hp0, Z.eqb_refl. unfold cbind.
    cbn [concat] in Hc. rewrite <- app_assoc in Hc.
    destruct (recvPacket_frame MR_MORE_DATA r b _ c Hb Hne Hc) as [inb1 [R [C N]]].
    rewrite R.
    destruct (IH f (mkPacket (Z.of_nat (length b)) MR_MORE_DATA (map rstrip0 r))
                (acc ++ [data p0]) (mkConn (version c) (sent c) inb1) N C
                ltac:(cbn [length] in Hf; lia) eq_refl) as [inb [R' C']].
    rewrite R'. exists inb. split; [|exact C'].
    cbn [version sent data map]. rewrite <- app_assoc. reflexivity.
Qed.

(** [MoiraClient.query] without a version: it sends one [MR_QUERY] frame
    holding the query name and its arguments, then reads replies while
    they carry [MR_MORE_DATA]; the first other status ends the query:
    [MR_SUCCESS] returns the rows of the [MR_MORE_DATA] replies in order
    (each field without trailing zeros), any other status raises
    [MoiraError] with it.  The stream is consumed up to the final
    reply, and [version] is kept. *)
Theorem query_rows `{MoiraConstants} (name : bytes) (params : list bytes)
    (rows : list (list bytes)) (frames : list bytes) (s : Z) (fs : list bytes)
    (qb fb rest : bytes) (c : conn) :
  build MR_QUERY (name :: params) = Ok qb ->
  Forall2 (fun r b => build MR_MORE_DATA r = Ok b) rows frames ->
  build s fs = Ok fb -> s <> MR_MORE_DATA ->
  Forall (fun seg => seg <> []) (inbox c) ->
  concat (inbox c) = concat frames ++ fb ++ rest ->
  exists inb,
    query name params None c
    = ((if s =? MR_SUCCESS then Ok (map (map rstrip0) rows) else Err (MoiraError s)),
       mkConn (version c) (sent c ++ [qb]) inb)
    /\ concat inb = rest.
Proof.
  intros Hq Hrf Hfb Hs Hne Hc.
  unfold query, sendPacket, clift, socket_send, cret, cbind. rewrite Hq.
  cbv beta iota.
  set (c1 := mkConn (version c) (sent c ++ [qb]) (inbox c)).
  assert (Hne1 : Forall (fun seg => seg <> []) (inbox c1)) by exact Hne.
  assert (Hc1 : concat (inbox c1) = concat frames ++ fb ++ rest) by exact Hc.
  destruct Hrf as [|r b rows frames Hb Hrf].
  - destruct (recvPacket_frame s fs fb rest c1 Hfb Hne1 Hc1) as [inb [R [C _]]].
    rewrite R. unfold stream_fuel. cbn [inbox]. exists inb. split; [|exact C].
    cbn [query_loop opcode].
    replace (s =? MR_MORE_DATA) with false by (symmetry; apply Z.eqb_neq; exact Hs).
    destruct (s =? MR_SUCCESS); reflexivity.
  - cbn [concat] in Hc1. rewrite <- app_assoc in Hc1.
    destruct (recvPacket_frame MR_MORE_DATA r b _ c1 Hb Hne1 Hc1) as [inb1 [R [C N]]].
    rewrite R. unfold stream_fuel. cbn [inbox].
    pose proof (frames_length _ _ _ Hrf) as Hl.
    destruct (query_loop_frames s fs fb rest Hfb Hs rows frames
                (S (length (concat inb1))) (mkPacket (Z.of_nat (length b)) MR_MORE_DATA (map rstrip0 r))
                [] (mkConn (version c1) (sent c1) inb1) Hrf N C
                ltac:(rewrite C, !length_app; lia) eq_refl) as [inb [R' C']].
    rewrite R'. exists inb. split; [|exact C']. reflexivity.
Qed.

Lemma query_rows_witness :
  match build 3 [[x61]; [x62]], build 1 [[x63; x64]], build 1 [[x65]], build 0 [] with
  | Ok qb, Ok f1, Ok f2, Ok fb =>
      Forall2 (fun r b => build 1 r = Ok b) [[[x63; x64]]; [[x65]]] [f1; f2]
      /\ Forall (fun seg => seg <> []) (inbox (mkConn None [] [f1 ++ f2; fb]))
      /\ exists inb,
           query [x61] [[x62]] None (mkConn None [] [f1 ++ f2; fb])
           = (Ok [[[x63; x64]]; [[x65]]], mkConn None [qb] inb)
           /\ concat inb = []
  | _, _, _, _ => False
  end.
Proof.
  destruct (build 3 [[x61]; [x62]]) as [qb|?] eqn:Eq; [|vm_compute in Eq; discriminate].
  destruct (build 1 [[x63; x64]]) as [f1|?] eqn:E1; [|vm_compute in E1; discriminate].
  destruct (build 1 [[x65]]) as [f2|?] eqn:E2; [|vm_compute in E2; discriminate].
  destruct (build 0 []) as [fb|?] eqn:Eb; [|vm_compute in Eb; discriminate].
  assert (HF : Forall2 (fun r b => build 1 r = Ok b) [[[x63; x64]]; [[x65]]] [f1; f2])
    by (repeat constructor; assumption).
  assert (HN : Forall (fun seg => seg <> []) (inbox (mkConn None [] [f1 ++ f2; fb]))).
  { cbn [inbox]. constructor; [|constructor; [exact (build_nonempty _ _ _ Eb)|constructor]].
    destruct f1; [exfalso; exact (build_nonempty _ _ _ E1 eq_refl)|discriminate]. }
  refine (conj HF (conj HN _)).
  exact (query_rows [x61] [[x62]] [[[x63; x64]]; [[x65]]] [f1; f2] 0 [] qb fb []
           (mkConn None [] [f1 ++ f2; fb]) Eq HF Eb ltac:(discriminate) HN
           ltac:(cbn [concat inbox]; rewrite !app_nil_r, <- !app_assoc; reflexivity)).
Defined.

Lemma motd_loop_frames `{MoiraConstants} (s : Z) (fs : list bytes) (fb rest : bytes) :
  build s fs = Ok fb -> s <> MR_MORE_DATA ->
  forall rows frames f p0 l motd c,
  Forall2 (fun r b => build MR_MORE_DATA r = Ok b) rows frames ->
  Forall (fun r => r <> []) rows ->
  Forall (fun seg => seg <> []) (inbox c) ->
  concat (inbox c) = concat frames ++ fb ++ rest ->
  (length rows < f)%nat -> opcode p0 = MR_MORE_DATA -> first_field p0 = Ok l ->
  exists inb,
    motd_loop f p0 motd c
    = ((if s =? MR_SUCCESS
        then Err (MoiraUnavailableError
               (String.append "Moira server is currently unavaliable: "
                  (string_of_list_byte
                     (motd ++ l ++ concat (map (fun r => rstrip0 (hd [] r)) rows)))))
        else Err (MoiraError s)),
       mkConn (version c) (sent c) inb)
    /\ concat inb = rest.
Proof.
  intros Hfb Hs rows frames f p0 l motd c Hrf. revert f p0 l motd c.
  induction Hrf as [|r b rows frames Hb _ IH];
    intros f p0 l motd c Hrn Hne Hc Hf Hp0 Hl.
  - destruct f as [|f]; [cbn in Hf; lia|].
    cbn [motd_loop]. rewrite Hp0, Z.eqb_refl. unfold cbind, clift. rewrite Hl.
    destruct (recvPacket_frame s fs fb rest c Hfb Hne Hc) as [inb [R [C _]]].
    rewrite R. exists inb. split; [|exact C].
    cbn [map concat]. rewrite !app_nil_r.
    destruct f; cbn [motd_loop opcode];
      replace (s =? MR_MORE_DATA) with false by (symmetry; apply Z.eqb_neq; exact Hs);
      destruct (s =? MR_SUCCESS); reflexivity.
  - inversion Hrn as [|? ? Hr Hrn']; subst.
    destruct f as [|f]; [cbn in Hf; lia|].
    cbn [motd_loop]. rewrite Hp0, Z.eqb_refl. unfold cbind, clift. rewrite Hl.
    cbn [concat] in Hc. rewrite <- app_assoc in Hc.
    destruct (recvPacket_frame MR_MORE_DATA r b _ c Hb Hne Hc) as [inb1 [R [C N]]].
    rewrite R.
    assert (Hl' : first_field (mkPacket (Z.of_nat (length b)) MR_MORE_DATA (map rstrip0 r))
                  = Ok (rstrip0 (hd [] r)))
      by (destruct r as [|x r]; [contradiction|reflexivity]).
    destruct (IH f (mkPacket (Z.of_nat (length b)) MR_MORE_DATA (map rstrip0 r))
                (rstrip0 (hd [] r)) (motd ++ l) (mkConn (version c) (sent c) inb1) Hrn' N C
                ltac:(cbn [length] in Hf; lia) eq_refl Hl') as [inb [R' C']].
    rewrite R'. exists inb. split; [|exact C'].
    cbn [version sent map concat]. rewrite <- !app_assoc. reflexivity.
Qed.

(** [MoiraClient.checkMOTD]: it sends one [MR_MOTD] frame with no
    argument.  If the first reply is final ([MR_SUCCESS]) it returns;
    a first reply with another status that is not [MR_MORE_DATA] raises
    [MoiraError].  Otherwise the first fields of the [MR_MORE_DATA]
    replies are joined into the notice, and the final reply raises
    [MoiraUnavailableError] with it when it is [MR_SUCCESS], [MoiraError]
    with its status else.  The stream is consumed up to the final reply. *)
Theorem checkMOTD_replies `{MoiraConstants} (rows : list (list bytes))
    (frames : list bytes) (s : Z) (fs : list bytes) (mb fb rest : bytes) (c : conn) :
  MR_MORE_DATA <> MR_SUCCESS ->
  build MR_MOTD [] = Ok mb ->
  Forall2 (fun r b => build MR_MORE_DATA r = Ok b) rows frames ->
  Forall (fun r => r <> []) rows ->
  build s fs = Ok fb -> s <> MR_MORE_DATA ->
  Forall (fun seg => seg <> []) (inbox c) ->
  concat (inbox c) = concat frames ++ fb ++ rest ->
  exists inb,
    checkMOTD c
    = (match rows with
       | [] => if s =? MR_SUCCESS then Ok tt else Err (MoiraError s)
       | _ :: _ =>
           if s =? MR_SUCCESS
           then Err (MoiraUnavailableError
                  (String.append "Moira server is currently unavaliable: "
                     (string_of_list_byte (concat (map (fun r => rstrip0 (hd [] r)) rows)))))
           else Err (MoiraError s)
       end,
       mkConn (version c) (sent c ++ [mb]) inb)
    /\ concat inb = rest.
Proof.
  intros Hms Hm Hrf Hrn Hfb Hs Hne Hc.
  unfold checkMOTD, sendPacket, clift, socket_send, cret, cthrow, cbind. rewrite Hm.
  cbv beta iota.
  set (c1 := mkConn (version c) (sent c ++ [mb]) (inbox c)).
  assert (Hne1 : Forall (fun seg => seg <> []) (inbox c1)) by exact Hne.
  assert (Hc1 : concat (inbox c1) = concat frames ++ fb ++ rest) by exact Hc.
  destruct Hrf as [|r b rows frames Hb Hrf].
  - destruct (recvPacket_frame s fs fb rest c1 Hfb Hne1 Hc1) as [inb [R [C _]]].
    rewrite R. cbn [opcode]. exists inb. split; [|exact C].
    replace (s =? MR_MORE_DATA) with false by (symmetry; apply Z.eqb_neq; exact Hs).
    destruct (s =? MR_SUCCESS); reflexivity.
  - inversion Hrn as [|? ? Hr Hrn']; subst.
    cbn [concat] in Hc1. rewrite <- app_assoc in Hc1.
    destruct (recvPacket_frame MR_MORE_DATA r b _ c1 Hb Hne1 Hc1) as [inb1 [R [C N]]].
    rewrite R. cbn [opcode].
    replace (MR_MORE_DATA =? MR_SUCCESS) with false by (symmetry; apply Z.eqb_neq; exact Hms).
    rewrite Z.eqb_refl. cbn [negb]. unfold stream_fuel. cbn [inbox].
    pose proof (frames_length _ _ _ Hrf) as Hl.
    assert (Hl' : first_field (mkPacket (Z.of_nat (length b)) MR_MORE_DATA (map rstrip0 r))
                  = Ok (rstrip0 (hd [] r)))
      by (destruct r as [|x r]; [contradiction|reflexivity]).
    destruct (motd_loop_frames s fs fb rest Hfb Hs rows frames
                (S (length (concat inb1))) (mkPacket (Z.of_nat (length b)) MR_MORE_DATA (map rstrip0 r))
                (rstrip0 (hd [] r)) [] (mkConn (version c1) (sent c1) inb1) Hrf Hrn' N C
                ltac:(rewrite C, !length_app; lia) eq_refl Hl') as [inb [R' C']].
    rewrite R'. exists inb. split; [|exact C']. reflexivity.
Qed.

Lemma checkMOTD_replies_witness :
  match build 6 [], build 1 [[x68; x69]], build 0 [] with
  | Ok mb, Ok f1, Ok fb =>
      exists inb,
        checkMOTD (mkConn None [] [f1; fb])
        = (Err (MoiraUnavailableError "Moira server is currently unavaliable: hi"),
           mkConn None [mb] inb)
        /\ concat inb = []
  | _, _, _ => False
  end.
Proof.
  destruct (build 6 []) as [mb|?] eqn:Em; [|vm_compute in Em; discriminate].
  destruct (build 1 [[x68; x69]]) as [f1|?] eqn:E1; [|vm_compute in E1; discriminate].
  destruct (build 0 []) as [fb|?] eqn:Eb; [|vm_compute in Eb; discriminate].
  assert (HF : Forall2 (fun r b => build 1 r = Ok b) [[[x68; x69]]] [f1])
    by (repeat constructor; assumption).
  assert (HN : Forall (fun seg => seg <> []) (inbox (mkConn None [] [f1; fb]))).
  { cbn [inbox]. constructor; [exact (build_nonempty _ _ _ E1)|].
    constructor; [exact (build_nonempty _ _ _ Eb)|constructor]. }
  assert (Hms : MR_MORE_DATA <> MR_SUCCESS) by (vm_compute; discriminate).
  exact (checkMOTD_replies [[[x68; x69]]] [f1] 0 [] mb fb [] (mkConn None [] [f1; fb])
           Hms Em HF ltac:(repeat constructor; discriminate) Eb
           ltac:(discriminate) HN
           ltac:(cbn [concat inbox]; rewrite !app_nil_r; reflexivity)).
Defined.

Lemma bytes_eqb_spec (a b : bytes) : bytes_eqb a b = true <-> a = b.
Proof.
  unfold bytes_eqb. destruct (list_eq_dec Byte.byte_eq_dec a b); split; congruence.
Qed.

(** [MoiraClient.challenge]: it always sends [MOIRA_PROTOCOL_CHALLENGE],
    and it succeeds exactly when the first segment the server delivers
    starts with the whole [MOIRA_PROTOCOL_RESPONSE]: a single
    [socket.recv] is made, so a response split over two segments, or a
    closed stream, fails.  Every failure is the [ConnectionError] about
    the connection initiation request. *)
Theorem challenge_handshake `{MoiraConstants} (c : conn) :
  (fst (challenge c) = Ok tt <->
     exists x rest, inbox c = (MOIRA_PROTOCOL_RESPONSE ++ x) :: rest)
  /\ (forall e, fst (challenge c) = Err e ->
        e = ConnectionError "Moira server failed to return the correct response to connection initiation request")
  /\ sent (snd (challenge c)) = sent c ++ [MOIRA_PROTOCOL_CHALLENGE].
Proof.
  unfold challenge, cbind, socket_send, socket_recv, cret, cthrow.
  cbn [inbox sent version].
  destruct (inbox c) as [|seg rest] eqn:Ei.
  - replace (bytes_eqb [] MOIRA_PROTOCOL_RESPONSE) with false by reflexivity.
    cbn [negb fst snd sent]. split; [|split; [congruence|reflexivity]].
    split; [discriminate|]. intros [x [r Hx]]. discriminate.
  - destruct (bytes_eqb (firstn (length MOIRA_PROTOCOL_RESPONSE) seg) MOIRA_PROTOCOL_RESPONSE)
      eqn:Eb; cbn [negb fst snd sent].
    + split; [|split; [congruence|reflexivity]].
      split; [|reflexivity]. intros _.
      apply bytes_eqb_spec in Eb.
      exists (skipn (length MOIRA_PROTOCOL_RESPONSE) seg), rest.
      rewrite <- Eb at 1. rewrite firstn_skipn. reflexivity.
    + split; [|split; [congruence|reflexivity]].
      split; [discriminate|]. intros [x [r Hx]].
      pose proof (f_equal (hd []) Hx) as Hs. cbn [hd] in Hs. subst seg.
      rewrite firstn_app, Nat.sub_diag, firstn_O, app_nil_r, firstn_all in Eb.
      assert (bytes_eqb MOIRA_PROTOCOL_RESPONSE MOIRA_PROTOCOL_RESPONSE = true)
        by (apply bytes_eqb_spec; reflexivity).
      congruence.
Qed.

Lemma challenge_ok `{MoiraConstants} (x : bytes) (segs : list bytes) (c : conn) :
  inbox c = (MOIRA_PROTOCOL_RESPONSE ++ x) :: segs ->
  Forall (fun seg => seg <> []) segs ->
  exists inb,
    challenge c = (Ok tt, mkConn (version c) (sent c ++ [MOIRA_PROTOCOL_CHALLENGE]) inb)
    /\ concat inb = x ++ concat segs /\ Forall (fun seg => seg <> []) inb.
Proof.
  intros Ei Hne.
  unfold challenge, cbind, socket_send, socket_recv, cret, cthrow.
  cbn [inbox sent version]. rewrite Ei.
  rewrite firstn_app, Nat.sub_diag, firstn_O, app_nil_r, firstn_all.
  replace (bytes_eqb MOIRA_PROTOCOL_RESPONSE MOIRA_PROTOCOL_RESPONSE) with true
    by (symmetry; apply bytes_eqb_spec; reflexivity).
  cbn [negb]. rewrite length_app.
  destruct x as [|y x].
  - exists segs. rewrite app_nil_r, Nat.ltb_irrefl. split; [reflexivity|split; [reflexivity|exact Hne]].
  - exists ((skipn (length MOIRA_PROTOCOL_RESPONSE) (MOIRA_PROTOCOL_RESPONSE ++ y :: x)) :: segs).
    replace (length MOIRA_PROTOCOL_RESPONSE <? length MOIRA_PROTOCOL_RESPONSE + length (y :: x))%nat
      with true by (symmetry; apply Nat.ltb_lt; cbn [length]; lia).
    rewrite skipn_app, Nat.sub_diag, skipn_O, skipn_all. cbn [app concat].
    split; [reflexivity|split; [reflexivity|constructor; [discriminate|exact Hne]]].
Qed.

Lemma checkMOTD_ok `{MoiraConstants} (mb fm rest : bytes) (c : conn) :
  build MR_MOTD [] = Ok mb -> build MR_SUCCESS [] = Ok fm ->
  Forall (fun seg => seg <> []) (inbox c) -> concat (inbox c) = fm ++ rest ->
  exists inb,
    checkMOTD c = (Ok tt, mkConn (version c) (sent c ++ [mb]) inb)
    /\ concat inb = rest /\ Forall (fun seg => seg <> []) inb.
Proof.
  intros Hm Hf Hne Hc.
  unfold checkMOTD, sendPacket, clift, socket_send, cret, cthrow, cbind. rewrite Hm.
  cbv beta iota.
  destruct (recvPacket_frame MR_SUCCESS [] fm rest
              (mkConn (version c) (sent c ++ [mb]) (inbox c)) Hf Hne Hc) as [inb [R [C N]]].
  rewrite R. cbn [opcode]. rewrite Z.eqb_refl. exists inb. auto.
Qed.

(** [MoiraClient.__init__] once connected, with no [default_version]:
    when the server answers the challenge, reports no outage notice
    ([MR_SUCCESS] to [MR_MOTD]) and answers the [MR_SETVERSION] request
    for [MOIRA_QUERY_VERSION], the client has sent exactly the challenge,
    the [MR_MOTD] frame and that [MR_SETVERSION] frame, in this order; it
    succeeds when the last answer is [MR_SUCCESS] or [MR_VERSION_LOW] and
    raises [MoiraError] with it otherwise.  [version] is left [None]. *)
Theorem MoiraClient_init_handshake `{MoiraConstants} (x : bytes) (segs : list bytes)
    (mb fm vb fv rest : bytes) (sv : Z) (fs : list bytes) (c : conn) :
  build MR_MOTD [] = Ok mb -> build MR_SUCCESS [] = Ok fm ->
  build MR_SETVERSION [str_Z MOIRA_QUERY_VERSION] = Ok vb -> build sv fs = Ok fv ->
  inbox c = (MOIRA_PROTOCOL_RESPONSE ++ x) :: segs ->
  Forall (fun seg => seg <> []) segs ->
  x ++ concat segs = fm ++ fv ++ rest ->
  exists inb,
    MoiraClient_init None c
    = ((if (sv =? MR_SUCCESS) || (sv =? MR_VERSION_LOW) then Ok tt else Err (MoiraError sv)),
       mkConn None (sent c ++ [MOIRA_PROTOCOL_CHALLENGE; mb; vb]) inb)
    /\ concat inb = rest.
Proof.
  intros Hm Hf Hv Hfv Ei Hne Hc.
  destruct (challenge_ok x segs c Ei Hne) as [inb1 [R1 [C1 N1]]].
  rewrite Hc in C1.
  destruct (checkMOTD_ok mb fm (fv ++ rest)
              (mkConn (version c) (sent c ++ [MOIRA_PROTOCOL_CHALLENGE]) inb1) Hm Hf N1 C1) as [inb2 [R2 [C2 N2]]].
  unfold MoiraClient_init, cbind. rewrite R1. cbv beta iota.
  rewrite R2. cbv beta iota.
  unfold init_version, setVersion, set_version_field, get_version, sendPacket, clift,
    socket_send, cret, cthrow, cbind.
  cbv beta iota zeta. cbn [version sent inbox py_eq_version]. rewrite Hv. cbv beta iota.
  match goal with
  | |- context [recvPacket ?c3] =>
      destruct (recvPacket_frame sv fs fv rest c3 Hfv N2 C2) as [inb [R [C _]]]
  end.
  rewrite R. cbn [opcode version sent]. exists inb. split; [|exact C].
  rewrite <- !app_assoc. cbn [app].
  destruct (sv =? MR_SUCCESS), (sv =? MR_VERSION_LOW); reflexivity.
Qed.

Lemma MoiraClient_init_handshake_witness :
  match build 6 [], build 0 [], build 8 [str_Z MOIRA_QUERY_VERSION] with
  | Ok mb, Ok fm, Ok vb =>
      exists inb,
        MoiraClient_init None (mkConn None [] [MOIRA_PROTOCOL_RESPONSE ++ fm; fm])
        = (Ok tt, mkConn None [MOIRA_PROTOCOL_CHALLENGE; mb; vb] inb)
        /\ concat inb = []
  | _, _, _ => False
  end.
Proof.
  destruct (build 6 []) as [mb|?] eqn:Em; [|vm_compute in Em; discriminate].
  destruct (build 0 []) as [fm|?] eqn:Ef; [|vm_compute in Ef; discriminate].
  destruct (build 8 [str_Z MOIRA_QUERY_VERSION]) as [vb|?] eqn:Ev;
    [|vm_compute in Ev; discriminate].
  exact (MoiraClient_init_handshake fm [fm] mb fm vb fm [] 0 [] (mkConn None [] [MOIRA_PROTOCOL_RESPONSE ++ fm; fm])
           Em Ef Ev Ef eq_refl
           ltac:(constructor; [exact (build_nonempty _ _ _ Ef)|constructor])
           ltac:(cbn [concat]; rewrite !app_nil_r; reflexivity)).
Defined.

Lemma upper_ascii_idem (c : ascii) : upper_ascii (upper_ascii c) = upper_ascii c.
Proof. destruct c as [[] [] [] [] [] [] [] []]; reflexivity. Qed.

Lemma py_upper_idem (s : string) : py_upper (py_upper s) = py_upper s.
Proof. induction s as [|c s IH]; cbn; [reflexivity|]. rewrite upper_ascii_idem, IH. reflexivity. Qed.

Lemma py_upper_append (a b : string) :
  py_upper (String.append a b) = String.append (py_upper a) (py_upper b).
Proof. induction a as [|c a IH]; cbn; [reflexivity|]. rewrite IH. reflexivity. Qed.

Lemma prefix_refl (s : string) : String.prefix s s = true.
Proof.
  induction s as [|c s IH]; cbn; [reflexivity|].
  destruct (ascii_dec c c); [exact IH|congruence].
Qed.

Lemma str_contains_suffix (s u : string) : str_contains s (String.append u s) = true.
Proof.
  induction u as [|c u IH]; cbn [String.append].
  - destruct s as [|c s]; [reflexivity|].
    change (str_contains (String c s) (String c s))
      with (String.prefix (String c s) (String c s) || str_contains (String c s) s).
    rewrite prefix_refl. reflexivity.
  - change (str_contains s (String c (String.append u s)))
      with (String.prefix s (String c (String.append u s)) || str_contains s (String.append u s)).
    rewrite IH, orb_true_r. reflexivity.
Qed.

Lemma host_name_idem (nm : string) :
  let u := py_upper nm in
  let h := if str_contains ".MIT.EDU"%string u then u else String.append u ".MIT.EDU"%string in
  (let u' := py_upper h in
   if str_contains ".MIT.EDU"%string u' then u' else String.append u' ".MIT.EDU"%string) = h.
Proof.
  cbv zeta. destruct (str_contains ".MIT.EDU"%string (py_upper nm)) eqn:E.
  - rewrite py_upper_idem, E. reflexivity.
  - rewrite py_upper_append, py_upper_idem.
    change (py_upper ".MIT.EDU"%string) with ".MIT.EDU"%string.
    rewrite str_contains_suffix. reflexivity.
Qed.

Lemma str_in_types (mt : string) :
  str_in mt ListMember_types = true ->
  mt = ListMember_User \/ mt = ListMember_Kerberos \/ mt = ListMember_List \/
  mt = ListMember_String \/ mt = ListMember_Machine \/ mt = ListMember_No.
Proof.
  unfold str_in. intros Hm. apply existsb_exists in Hm.
  destruct Hm as [x [Hin Heq]]. apply String.eqb_eq in Heq. subst x.
  cbn [ListMember_types In] in Hin.
  destruct Hin as [<-|[<-|[<-|[<-|[<-|[<-|[]]]]]]]; auto 7.
Qed.

Lemma fromTuple_cons2 (idna : string -> result string) (mt nm : string)
    (rest : list string) :
  (length rest <= 1)%nat ->
  fromTuple idna (mt :: nm :: rest) = (r <- create idna mt nm ;; Ok (r, hd_error rest)).
Proof.
  intros Hr. destruct rest as [|tg [|x r]]; [| |cbn in Hr; lia];
    unfold fromTuple; cbn [length Nat.eqb orb negb nth_error Nat.ltb Nat.leb hd_error];
    destruct (create idna mt nm); reflexivity.
Qed.

Lemma create_ok (idna : string -> result string) (mt nm : string) :
  str_in mt ListMember_types = true ->
  (mt = ListMember_List -> is_ascii nm = true) ->
  create idna mt nm
  = Ok (mkMember mt (if String.eqb mt ListMember_Machine
                     then (if str_contains ".MIT.EDU"%string (py_upper nm) then py_upper nm
                 else String.append (py_upper nm) ".MIT.EDU"%string)
                     else nm)).
Proof.
  intros Ht Ha. apply str_in_types in Ht.
  destruct Ht as [-> | [-> | [-> | [-> | [-> | ->]]]]]; try reflexivity.
  unfold create, List_init. rewrite (Ha eq_refl). reflexivity.
Qed.

Lemma create_error (idna : string -> result string) (mt nm : string) (e : error) :
  create idna mt nm = Err e <->
  (str_in mt ListMember_types = false
   /\ e = UserError (String.append "Invalid list member type specified: " mt))
  \/ (mt = ListMember_List /\ is_ascii nm = false /\ idna nm = Err e).
Proof.
  unfold create.
  destruct (String.eqb mt ListMember_List) eqn:E1.
  { apply String.eqb_eq in E1. subst mt. unfold List_init.
    destruct (is_ascii nm) eqn:Ea.
    - split; [discriminate|]. intros [[Hs _]|[_ [Hf _]]]; discriminate.
    - destruct (idna nm) as [n|e'] eqn:Ei; cbn [bind].
      + split; [discriminate|]. intros [[Hs _]|[_ [_ Hf]]]; discriminate.
      + split.
        * intros Hx. right. split; [reflexivity|split; [reflexivity|congruence]].
        * intros [[Hs _]|[_ [_ Hf]]]; [discriminate|congruence]. }
  assert (Hn : mt <> ListMember_List) by (intros Hm; apply String.eqb_neq in E1; exact (E1 Hm)).
  assert (Hr : ~ (mt = ListMember_List /\ is_ascii nm = false /\ idna nm = Err e)) by tauto.
  destruct (String.eqb mt ListMember_User) eqn:E2.
  { apply String.eqb_eq in E2. subst mt.
    split; [discriminate|]. intros [[Hs _]|Hf]; [discriminate|contradiction]. }
  destruct (String.eqb mt ListMember_Machine) eqn:E3.
  { apply String.eqb_eq in E3. subst mt.
    split; [discriminate|]. intros [[Hs _]|Hf]; [discriminate|contradiction]. }
  unfold ListMember_init.
  destruct (str_in mt ListMember_types) eqn:Et; cbn [negb].
  - split; [discriminate|]. intros [[Hs _]|Hf]; [discriminate|contradiction].
  - unfold raise. split.
    + intros Hx. left. split; [reflexivity|congruence].
    + intros [[_ ->]|Hf]; [reflexivity|contradiction].
Qed.

(** [ListMember.fromTuple] then [toTuple]: a [(type, name)] or
    [(type, name, tag)] tuple with a valid type (and an ASCII name for a
    [LIST]) comes back unchanged, except that a [MACHINE] name is
    upper-cased and gets [.MIT.EDU] appended unless it already contains
    it.  Reading the tuple produced that way again gives the same tuple. *)
Theorem fromTuple_toTuple (idna : string -> result string) (mt nm : string)
    (rest : list string) :
  (length rest <= 1)%nat -> str_in mt ListMember_types = true ->
  (mt = ListMember_List -> is_ascii nm = true) ->
  exists m tag,
    fromTuple idna (mt :: nm :: rest) = Ok (m, tag)
    /\ toTuple m tag
       = mt :: (if String.eqb mt ListMember_Machine
                then (if str_contains ".MIT.EDU"%string (py_upper nm) then py_upper nm
                 else String.append (py_upper nm) ".MIT.EDU"%string)
                else nm) :: rest
    /\ (r <- fromTuple idna (toTuple m tag) ;; Ok (toTuple (fst r) (snd r)))
       = Ok (toTuple m tag).
Proof.
  intros Hr Ht Ha.
  rewrite (fromTuple_cons2 idna mt nm rest Hr), (create_ok idna mt nm Ht Ha).
  cbn [bind].
  eexists; eexists; split; [reflexivity|].
  assert (Ht2 : toTuple (mkMember mt (if String.eqb mt ListMember_Machine
                 then (if str_contains ".MIT.EDU"%string (py_upper nm) then py_upper nm
                 else String.append (py_upper nm) ".MIT.EDU"%string)
                 else nm)) (hd_error rest)
               = mt :: (if String.eqb mt ListMember_Machine
                        then (if str_contains ".MIT.EDU"%string (py_upper nm) then py_upper nm
                 else String.append (py_upper nm) ".MIT.EDU"%string)
                        else nm) :: rest)
    by (destruct rest as [|tg [|x r]]; [reflexivity|reflexivity|cbn in Hr; lia]).
  split; [exact Ht2|]. rewrite Ht2.
  assert (Ha2 : mt = ListMember_List ->
                is_ascii (if String.eqb mt ListMember_Machine
                          then (if str_contains ".MIT.EDU"%string (py_upper nm) then py_upper nm
                 else String.append (py_upper nm) ".MIT.EDU"%string)
                          else nm) = true)
    by (intros ->; exact (Ha eq_refl)).
  rewrite (fromTuple_cons2 idna mt _ rest Hr), (create_ok idna mt _ Ht Ha2).
  cbn [bind fst snd]. rewrite <- Ht2. f_equal. f_equal. f_equal.
  destruct (String.eqb mt ListMember_Machine); [|reflexivity].
  pose proof (host_name_idem nm) as Hh. cbv zeta in Hh. exact Hh.
Qed.

Lemma fromTuple_toTuple_witness :
  exists m tag,
    fromTuple (fun s => Ok s) ["MACHINE"; "w20"; "x"]%string = Ok (m, tag)
    /\ toTuple m tag = ["MACHINE"; "W20.MIT.EDU"; "x"]%string
    /\ (r <- fromTuple (fun s => Ok s) (toTuple m tag) ;; Ok (toTuple (fst r) (snd r)))
       = Ok (toTuple m tag).
Proof.
  exact (fromTuple_toTuple (fun s => Ok s) "MACHINE" "w20" ["x"%string]
           ltac:(cbn; lia) eq_refl ltac:(intros; reflexivity)).
Defined.

(** [ListMember.fromTuple] fails exactly when the tuple has neither two
    nor three elements ([UserError] about the tuple format), when its type
    is not one of the six member types ([UserError] naming the type), or
    when a [LIST] name is not ASCII and its IDNA conversion raises (that
    error unchanged).  A lower-case type such as [user] is refused, not
    upper-cased. *)
Theorem fromTuple_error (idna : string -> result string) (t : list string) (e : error) :
  fromTuple idna t = Err e <->
  ((length t <> 2)%nat /\ (length t <> 3)%nat
   /\ e = UserError "Moira list member tuple must has a type-name[-tag] format")
  \/ exists mt nm rest,
       t = mt :: nm :: rest /\ (length rest <= 1)%nat
       /\ ((str_in mt ListMember_types = false
            /\ e = UserError (String.append "Invalid list member type specified: " mt))
           \/ (mt = ListMember_List /\ is_ascii nm = false /\ idna nm = Err e)).
Proof.
  destruct t as [|mt [|nm rest]].
  - unfold fromTuple, raise. cbn. split.
    + intros Hx. left. split; [discriminate|split; [discriminate|congruence]].
    + intros [[_ [_ ->]]|[mt [nm [rest [Hx _]]]]]; [reflexivity|discriminate].
  - unfold fromTuple, raise. cbn. split.
    + intros Hx. left. split; [discriminate|split; [discriminate|congruence]].
    + intros [[_ [_ ->]]|[mt' [nm [rest [Hx _]]]]]; [reflexivity|discriminate].
  - destruct (Nat.le_gt_cases (length rest) 1) as [Hr|Hr].
    + rewrite (fromTuple_cons2 idna mt nm rest Hr).
      destruct (create idna mt nm) as [m|e'] eqn:Ec; cbn [bind].
      * split; [discriminate|].
        intros [[H2 [H3 _]]|[mt' [nm' [rest' [Hx [_ He]]]]]].
        -- destruct rest as [|tg [|x r]]; cbn in *; [congruence|congruence|lia].
        -- injection Hx as <- <- <-. apply (create_error idna mt nm e) in He. congruence.
      * split.
        -- intros Hx. injection Hx as <-. right. exists mt, nm, rest.
           split; [reflexivity|split; [exact Hr|]]. apply create_error. exact Ec.
        -- intros [[H2 [H3 _]]|[mt' [nm' [rest' [Hx [_ He]]]]]].
           ++ destruct rest as [|tg [|x r]]; cbn in *; [congruence|congruence|lia].
           ++ injection Hx as <- <- <-. apply (create_error idna mt nm e) in He. congruence.
    + assert (Hf : fromTuple idna (mt :: nm :: rest)
                   = Err (UserError "Moira list member tuple must has a type-name[-tag] format")).
      { unfold fromTuple. cbn [length].
        replace ((S (S (length rest)) =? 2)%nat) with false by (symmetry; apply Nat.eqb_neq; lia).
        replace ((S (S (length rest)) =? 3)%nat) with false by (symmetry; apply Nat.eqb_neq; lia).
        reflexivity. }
      rewrite Hf. split.
      * intros Hx. left. cbn [length]. split; [lia|split; [lia|congruence]].
      * intros [[_ [_ ->]]|[mt' [nm' [rest' [Hx [Hr' _]]]]]]; [reflexivity|].
        injection Hx as _ _ <-. lia.
Qed.

(** [ListTracer.createInverseMap]: over expanded lists with distinct
    names, each holding a member at most once (a [frozenset]), the
    inverse map has no entry for a member exactly when no expanded list
    holds it explicitly; otherwise its entry names every list that holds
    it explicitly, each once.  Lists that could not be read ([None]) and
    empty lists contribute nothing. *)
Theorem createInverseMap_lookup (m : list_member) (kn : dict (option (list list_member))) :
  NoDup (dict_keys kn) -> (forall a ms, In (a, Some ms) kn -> NoDup ms) ->
  (inv_get m (createInverseMap kn) = None <-> forall a, ~ holds kn a m)
  /\ forall ls, inv_get m (createInverseMap kn) = Some ls ->
       NoDup ls /\ forall a, In a ls <-> holds kn a m.
Proof.
  intros Hk Hc. rewrite inv_get_createInverseMap.
  pose proof (holders_NoDup m kn Hk Hc) as Hn.
  split.
  - destruct (holders m kn) as [|a l] eqn:E; cbn [opt_app].
    + split; [|reflexivity]. intros _ a Ha.
      apply (holds_holders kn a m Hk) in Ha. rewrite E in Ha. destruct Ha.
    + split; [discriminate|]. intros Hno. exfalso. apply (Hno a).
      apply (holds_holders kn a m Hk). rewrite E. left. reflexivity.
  - intros ls Hls. destruct (holders m kn) as [|a l] eqn:E; cbn [opt_app] in Hls;
      [discriminate|]. injection Hls as <-.
    split; [exact Hn|]. intros b. rewrite (holds_holders kn b m Hk), E. reflexivity.
Qed.

Lemma createInverseMap_lookup_witness :
  let kn := [("a"%string, Some [list_ref "b"; mkMember "USER" "u"]);
             ("b"%string, Some [mkMember "USER" "u"]);
             ("c"%string, None)] in
  (inv_get (mkMember "USER" "u") (createInverseMap kn) = None
     <-> forall a, ~ holds kn a (mkMember "USER" "u"))
  /\ forall ls, inv_get (mkMember "USER" "u") (createInverseMap kn) = Some ls ->
       NoDup ls /\ forall a, In a ls <-> holds kn a (mkMember "USER" "u").
Proof.
  intros kn.
  apply (createInverseMap_lookup (mkMember "USER" "u") kn).
  - cbv [kn dict_keys map fst].
    repeat (apply NoDup_cons; [intros Hx; cbv [In] in Hx; intuition discriminate|]).
    apply NoDup_nil.
  - intros a ms Hin. cbv [kn In] in Hin.
    destruct Hin as [Hin|[Hin|[Hin|[]]]]; try discriminate; injection Hin as _ <-;
      repeat (apply NoDup_cons; [intros Hx; cbv [In] in Hx; intuition discriminate|]);
      apply NoDup_nil.
Defined.

(** [List.getAllMembers] on the client side: when it succeeds, a member
    is returned exactly when some list it read (recorded with contents in
    the returned [known] dictionary) holds that member explicitly, and,
    unless [include_lists] is set, the member is not a [LIST]. *)
Theorem getAllMembers_members `{MoiraConstants}
    (srv : string -> result (list list_member))
    (set_order : list string -> list string) (root : string) (include_lists : bool) :
  (forall l, Permutation (set_order l) l) ->
  match getAllMembers srv set_order root include_lists [] with
  | (Ok (mem, _, kn), _) =>
      forall m, In m mem <->
        (exists k ms, dict_get k kn = Some (Some ms) /\ In m ms)
        /\ (include_lists = true \/ is_list m = false)
  | (Err _, _) => True
  end.
Proof.
  intros Hperm.
  pose proof (getAllMembers_inv srv set_order root Hperm include_lists) as Hg.
  destruct (getAllMembers srv set_order root include_lists []) as [[[[mem den] kn]|e] log];
    [|exact I].
  destruct Hg as [st [Hi [_ [_ [-> ->]]]]].
  intros m. destruct include_lists.
  - rewrite (inv_members _ _ _ _ Hi). intuition.
  - rewrite filter_In, (inv_members _ _ _ _ Hi). split.
    + intros [Hm Hl]. split; [exact Hm|]. right. destruct (is_list m); [discriminate|reflexivity].
    + intros [Hm [Hf|Hl]]; [discriminate|]. split; [exact Hm|]. rewrite Hl. reflexivity.
Qed.

Lemma getAllMembers_members_witness :
  match getAllMembers diamond_srv (fun l => l) "A"%string false [] with
  | (Ok (mem, _, kn), _) =>
      forall m, In m mem <->
        (exists k ms, dict_get k kn = Some (Some ms) /\ In m ms)
        /\ (false = true \/ is_list m = false)
  | (Err _, _) => True
  end.
Proof.
  exact (getAllMembers_members diamond_srv (fun l => l) "A" false
           (fun l => Permutation_refl l)).
Defined.
